(** * Resume-Link-Scraper-API: a shallow embedding of [main.py]

    The development follows the layout of the source file:
    - [Py]: the handful of Python [str] primitives the program calls;
    - [UrlParse]: [urllib.parse.urlsplit] / [urlunsplit] (CPython 3.11);
    - [URLExtractor]: [normalize_url] and [extract_pdf_urls];
    - [ContentScraper]: [fetch_html] and [extract_main_text];
    - [ScraperService]: the worker, the semaphore and [scrape_urls];
    - [Api]: the [/scrape-resume-links] route.

    Python strings are modelled as lists of characters whose code points lie
    in U+0000..U+00FF (Rocq's [ascii], read as Latin-1). *)

From Stdlib Require Import ZArith QArith Ascii String List.
From stdpp Require Import base option list strings gmap pretty.

Local Open Scope nat_scope.

(** ** Python [str] primitives *)

Module Py.

Abbreviation str := (list ascii).

(** A literal of the source, as a list of characters. *)
Definition py (s : string) : str := list_ascii_of_string s.

Definition code (c : ascii) : N := N_of_ascii c.

Definition in_range (lo hi : N) (c : ascii) : bool :=
  ((lo <=? code c) && (code c <=? hi))%N.

(** [str.isspace] on one character: the Unicode white space below U+0100. *)
Definition isspace (c : ascii) : bool :=
  in_range 9 13 c || in_range 28 32 c
  || (code c =? 133)%N || (code c =? 160)%N.

(** [c.isascii() and c.isalpha()]. *)
Definition isascii_alpha (c : ascii) : bool :=
  in_range 65 90 c || in_range 97 122 c.

Definition isdigit_ascii (c : ascii) : bool := in_range 48 57 c.

(** [str.lower] on one character: A-Z and the Latin-1 capitals
    (U+00C0..U+00DE without the multiplication sign) move up by 32. *)
Definition lower_char (c : ascii) : ascii :=
  if in_range 65 90 c || (in_range 192 222 c && negb (code c =? 215)%N)
  then ascii_of_N (code c + 32) else c.

Definition lower (s : str) : str := map lower_char s.

(** [s.startswith(p)]. *)
Definition startswith (p s : str) : bool := bool_decide (take (length p) s = p).

(** [c in chars]. *)
Definition char_in (chars : str) (c : ascii) : bool := bool_decide (c ∈ chars).

(** [s.lstrip(...)]: drop the longest prefix of characters satisfying [p]. *)
Fixpoint lstrip_by (p : ascii → bool) (s : str) : str :=
  match s with
  | [] => []
  | c :: s' => if p c then lstrip_by p s' else s
  end.

(** [s.rstrip(...)]: drop the longest suffix of characters satisfying [p]. *)
Fixpoint rstrip_by (p : ascii → bool) (s : str) : str :=
  match s with
  | [] => []
  | c :: s' =>
      match rstrip_by p s' with
      | [] => if p c then [] else [c]
      | r => c :: r
      end
  end.

(** [s.strip()] with no argument strips white space on both sides. *)
Definition strip (s : str) : str := rstrip_by isspace (lstrip_by isspace s).

(** [s.replace(c, '')] for a one-character [c]. *)
Definition remove_char (c : ascii) (s : str) : str :=
  List.filter (λ x, negb (bool_decide (x = c))) s.

(** The first occurrence of [c] splits [s] in two: [s.split(c, 1)] when
    [c in s], and [s.find(c)] is the length of the first half. *)
Fixpoint cut (c : ascii) (s : str) : option (str * str) :=
  match s with
  | [] => None
  | x :: s' =>
      if decide (x = c) then Some ([], s')
      else match cut c s' with
           | Some (a, b) => Some (x :: a, b)
           | None => None
           end
  end.

(** [s.partition(c)]: the separator is kept as the middle component. *)
Definition partition (c : ascii) (s : str) : str * str * str :=
  match cut c s with
  | Some (a, b) => (a, [c], b)
  | None => (s, [], [])
  end.

(** [s.rpartition(c)[2]]: what follows the last [c], or all of [s]. *)
Definition rpartition_tail (c : ascii) (s : str) : str :=
  match cut c (reverse s) with
  | Some (a, _) => reverse a
  | None => s
  end.

(** The longest prefix of characters not satisfying [p], and the rest. *)
Fixpoint span_until (p : ascii → bool) (s : str) : str * str :=
  match s with
  | [] => ([], [])
  | c :: s' =>
      if p c then ([], s)
      else let '(a, b) := span_until p s' in (c :: a, b)
  end.

(** [needle in s] for strings. *)
Fixpoint contains (needle s : str) : bool :=
  startswith needle s
  || match s with
     | [] => false
     | _ :: s' => contains needle s'
     end.

(** Truthiness of an [Optional[str]]: neither [None] nor empty. *)
Definition truthy (o : option str) : bool :=
  match o with
  | Some (_ :: _) => true
  | _ => false
  end.

(** Exceptions, as far as the program tells them apart: the two classes it
    names or provokes, and every other subclass of [Exception] with its
    class name.  Each carries the text of [str(e)].  What lies outside
    [Exception] (cancellation, interpreter exit) is not modelled. *)
Inductive exn :=
| FileDataError (msg : str)
| ValidationError (msg : str)
| Exception (cls msg : str).

(** [e.__class__.__name__]. *)
Definition class_name (e : exn) : str :=
  match e with
  | FileDataError _ => py "FileDataError"
  | ValidationError _ => py "ValidationError"
  | Exception cls _ => cls
  end.

(** [str(e)]. *)
Definition exn_str (e : exn) : str :=
  match e with
  | FileDataError msg | ValidationError msg | Exception _ msg => msg
  end.

(** A call either returns or raises. *)
Inductive result (A : Type) :=
| Ok (a : A)
| Raise (e : exn).
Global Arguments Ok {A} a.
Global Arguments Raise {A} e.

Global Instance result_ret : MRet result := λ A a, Ok a.
Global Instance result_bind : MBind result := λ A B f r,
  match r with
  | Ok a => f a
  | Raise e => Raise e
  end.

End Py.

Import Py.

(** ** [urllib.parse] *)

Module UrlParse.

Record SplitResult := mkSplit {
  scheme : str;
  netloc : str;
  path : str;
  query : str;
  fragment : str
}.

(** [parts._replace(fragment=f)]. *)
Definition _replace_fragment (parts : SplitResult) (f : str) : SplitResult :=
  mkSplit (scheme parts) (netloc parts) (path parts) (query parts) f.

Definition uses_netloc : list str :=
  [] :: map py ["ftp"; "http"; "gopher"; "nntp"; "telnet";
          "imap"; "wais"; "file"; "mms"; "https"; "shttp";
          "snews"; "prospero"; "rtsp"; "rtspu"; "rsync";
          "svn"; "svn+ssh"; "sftp"; "nfs"; "git"; "git+ssh";
          "ws"; "wss"]%string.

(** [c in scheme_chars]. *)
Definition is_scheme_char (c : ascii) : bool :=
  in_range 97 122 c || in_range 65 90 c || in_range 48 57 c
  || char_in (py "+-.") c.

(** [c in _WHATWG_C0_CONTROL_OR_SPACE]: U+0000..U+0020. *)
Definition is_c0_or_space (c : ascii) : bool := in_range 0 32 c.

(** [_UNSAFE_URL_BYTES_TO_REMOVE]: tab, carriage return, line feed. *)
Definition _UNSAFE_URL_BYTES_TO_REMOVE : str := ["009"; "013"; "010"]%char.

(** [for b in _UNSAFE_URL_BYTES_TO_REMOVE: url = url.replace(b, '')]. *)
Definition remove_unsafe (url : str) : str :=
  foldl (λ url b, remove_char b url) url _UNSAFE_URL_BYTES_TO_REMOVE.

(** [for c in '/?#'] of [_splitnetloc]. *)
Definition is_netloc_delim (c : ascii) : bool := char_in (py "/?#") c.

(** [_splitnetloc(url, start)]: the domain runs from [start] to the earliest
    of the three delimiters (or to the end). *)
Definition _splitnetloc (url : str) (start : nat) : str * str :=
  span_until is_netloc_delim (drop start url).

Section urlsplit.

(** [_check_bracketed_host] relies on [ipaddress.ip_address] and on a
    regular expression for IPvFuture; it is taken as a capability of the
    runtime: [true] when the bracketed host is accepted. *)
Variable _check_bracketed_host : str → bool.

(** [_check_bracketed_netloc]: [true] when no [ValueError] is raised. *)
Definition _check_bracketed_netloc (netloc : str) : bool :=
  let hostname_and_port := rpartition_tail "@" netloc in
  let '(before_bracket, have_open_br, bracketed) :=
    partition "[" hostname_and_port in
  match have_open_br with
  | _ :: _ =>
      match before_bracket with
      | _ :: _ => false
      | [] =>
          let '(hostname, _, port) := partition "]" bracketed in
          match port with
          | _ :: _ =>
              if negb (startswith (py ":") port) then false
              else _check_bracketed_host hostname
          | [] => _check_bracketed_host hostname
          end
      end
  | [] =>
      let '(hostname, _, port) := partition ":" hostname_and_port in
      _check_bracketed_host hostname
  end.

(** The scheme test of [urlsplit]: [url.find(':') > 0], a first character
    that is an ASCII letter, and only scheme characters before the colon. *)
Definition split_scheme (url : str) : str * str :=
  match cut ":" url with
  | Some (c :: pre, post) =>
      if isascii_alpha c && forallb is_scheme_char (c :: pre)
      then (lower (c :: pre), post)
      else ([], url)
  | _ => ([], url)
  end.

(** The two tests on brackets after [_splitnetloc]: [true] when one of
    them raises [ValueError]. *)
Definition netloc_raises (netloc : str) : bool :=
  let has_open := char_in netloc "[" in
  let has_close := char_in netloc "]" in
  (has_open && negb has_close) || (has_close && negb has_open)
  || (has_open && has_close && negb (_check_bracketed_netloc netloc)).

(** The [//netloc] step of [urlsplit]; [None] stands for [ValueError]. *)
Definition split_netloc (url : str) : option (str * str) :=
  if startswith (py "//") url then
    let '(netloc, rest) := _splitnetloc url 2 in
    if netloc_raises netloc then None else Some (netloc, rest)
  else Some ([], url).

(** [url.split(c, 1)] guarded by [c in url]. *)
Definition split_off (c : ascii) (url : str) : str * str :=
  match cut c url with
  | Some (a, b) => (a, b)
  | None => (url, [])
  end.

(** [urlsplit(url)] with the default [scheme=''] and [allow_fragments=True].
    [_checknetloc] only raises for a netloc whose NFKC form gains one of
    [/?#@:], which no character below U+0100 does, so it is the identity
    here.  [None] stands for [ValueError]. *)
Definition urlsplit (url : str) : option SplitResult :=
  let url := lstrip_by is_c0_or_space url in
  let url := remove_unsafe url in
  let '(scheme, url) := split_scheme url in
  '(netloc, url) ← split_netloc url;
  let '(url, fragment) := split_off "#" url in
  let '(url, query) := split_off "?" url in
  Some (mkSplit scheme netloc url query fragment).

End urlsplit.

(** [urlunsplit(components)]. *)
Definition urlunsplit (parts : SplitResult) : str :=
  let url := path parts in
  let url :=
    if bool_decide (netloc parts ≠ [])
       || (bool_decide (scheme parts ≠ [])
           && bool_decide (scheme parts ∈ uses_netloc)
           && negb (bool_decide (take 2 url = py "//")))
    then
      let url :=
        if bool_decide (url ≠ []) && negb (bool_decide (take 1 url = py "/"))
        then py "/" ++ url else url in
      py "//" ++ netloc parts ++ url
    else url in
  let url :=
    if bool_decide (scheme parts ≠ []) then scheme parts ++ py ":" ++ url
    else url in
  let url :=
    if bool_decide (query parts ≠ []) then url ++ py "?" ++ query parts
    else url in
  if bool_decide (fragment parts ≠ []) then url ++ py "#" ++ fragment parts
  else url.

End UrlParse.

Import UrlParse.

(** ** URL extraction utilities *)

Module URLExtractor.

(** [_TRAILING_PUNCT]: the characters [)],.;:>] and the two quotes. *)
Definition _TRAILING_PUNCT : str := py ")],.;:>" ++ ["034"; "'"]%char.

Definition is_trailing_punct (c : ascii) : bool := char_in _TRAILING_PUNCT c.

Definition _strip_trailing_punct (url : str) : str :=
  rstrip_by is_trailing_punct url.

(** *** The pattern [_URL_RE]

    A prefix [https?://] or [www\.], a host [[\w.-]+], an optional port
    [:\d{2,5}] and an optional path, a slash followed by any number of
    [[^\s<]]; compiled with [re.IGNORECASE].  Every part after the host is
    optional, so the greedy first attempt of the matcher is the match and
    no backtracking occurs. *)

(** [\w]: alphanumeric characters and the underscore. *)
Definition is_word_char (c : ascii) : bool :=
  in_range 48 57 c || in_range 65 90 c || (code c =? 95)%N
  || in_range 97 122 c || (code c =? 170)%N || in_range 178 179 c
  || (code c =? 181)%N || in_range 185 186 c || in_range 188 190 c
  || in_range 192 214 c || in_range 216 246 c || in_range 248 255 c.

(** [[\w.-]]. *)
Definition is_host_char (c : ascii) : bool :=
  is_word_char c || char_in (py ".-") c.

(** [[^\s<]]. *)
Definition is_path_char (c : ascii) : bool :=
  negb (isspace c) && negb (bool_decide (c = "<"%char)).

(** The prefix group: the length of the prefix matched at the head. *)
Definition match_prefix (s : str) : option nat :=
  if startswith (py "https://") (lower s) then Some 8
  else if startswith (py "http://") (lower s) then Some 7
  else if startswith (py "www.") (lower s) then Some 4
  else None.

(** The port group: a colon and two to five digits, or nothing. *)
Definition match_port (s : str) : nat :=
  match s with
  | ":"%char :: r =>
      let digits := (span_until (λ c, negb (isdigit_ascii c)) r).1 in
      if 2 <=? length digits then 1 + min 5 (length digits) else 0
  | _ => 0
  end.

(** The path group: a slash and the longest run of [[^\s<]], or nothing. *)
Definition match_path (s : str) : nat :=
  match s with
  | "/"%char :: r => 1 + length (span_until (λ c, negb (is_path_char c)) r).1
  | _ => 0
  end.

(** The length of the match of [_URL_RE] starting at the head of [s]. *)
Definition match_here (s : str) : option nat :=
  match match_prefix s with
  | None => None
  | Some n =>
      let host := (span_until (λ c, negb (is_host_char c)) (drop n s)).1 in
      match host with
      | [] => None
      | _ :: _ =>
          let n := n + length host in
          let n := n + match_port (drop n s) in
          Some (n + match_path (drop n s))
      end
  end.

(** [_URL_RE.findall(text)]: the matches from left to right, not
    overlapping; [skip] counts the characters of the last match that are
    still to be passed over. *)
Fixpoint findall_from (skip : nat) (text : str) : list str :=
  match text with
  | [] => []
  | _ :: text' =>
      match skip with
      | S k => findall_from k text'
      | 0 =>
          match match_here text with
          | Some n => take n text :: findall_from (n - 1) text'
          | None => findall_from 0 text'
          end
      end
  end.

Definition findall (text : str) : list str := findall_from 0 text.

(** *** The document-parsing capability (PyMuPDF)

    A page yields a text rendering and a list of link annotations; either
    call may raise ([None]).  A link is reduced to [link.get("uri")]. *)

Record Page := mkPage {
  get_text : option (option str);
  get_links : option (option (list (option str)))
}.

(** The outcome of [fitz.open(stream=pdf_bytes, filetype="pdf")] and of
    the iteration over the pages: an exception of either leaves
    [extract_pdf_urls] with no partial result. *)
Inductive opened :=
| OpenRaises (e : exn)
| Document (pages : list Page).

(** [url_list[:max_urls]]: a negative bound counts from the end. *)
Definition slice_to {A} (k : Z) (l : list A) : list A :=
  if (k <? 0)%Z then take (Z.to_nat (Z.of_nat (length l) + k)) l
  else take (Z.to_nat k) l.

(** [x[i], x[j] = x[j], x[i]]. *)
Definition swap {A} (i j : nat) (x : list A) : list A :=
  match x !! i, x !! j with
  | Some a, Some b => <[j:=a]> (<[i:=b]> x)
  | _, _ => x
  end.

(** [random.shuffle(x)]: [for i in reversed(range(1, len(x)))], exchange
    [x[i]] with [x[randbelow(i + 1)]].  The generator is the list [draws]
    of the numbers it hands out, each reduced below its bound; [i] is the
    number of iterations still to run. *)
Fixpoint shuffle_from {A} (i : nat) (draws : list nat) (x : list A) : list A :=
  match i with
  | 0 => x
  | S i' =>
      let j := hd 0 draws `mod` (i + 1) in
      shuffle_from i' (tl draws) (swap i j x)
  end.

Definition shuffle {A} (draws : list nat) (x : list A) : list A :=
  shuffle_from (length x - 1) draws x.

Section normalize.

Variable _check_bracketed_host : str → bool.

(** The three preparation steps of [normalize_url] before parsing. *)
Definition prepare (raw : str) : str :=
  let raw := strip raw in
  let raw := _strip_trailing_punct raw in
  if startswith (py "www.") (lower raw) then py "http://" ++ raw else raw.

(** The tests of [normalize_url] on the parsed URL, and its result. *)
Definition accept (parts : SplitResult) : option str :=
  if negb (bool_decide (scheme parts ∈ [py "http"; py "https"])) then None
  else if bool_decide (netloc parts = []) then None
  else Some (urlunsplit (_replace_fragment parts [])).

Definition normalize_url (raw : str) : option str :=
  match urlsplit _check_bracketed_host (prepare raw) with
  | None => None
  | Some parts => accept parts
  end.

(** [norm = cls.normalize_url(m); if norm: urls.add(norm)]. *)
Definition add_normalized (urls : gset str) (raw : str) : gset str :=
  match normalize_url raw with
  | Some norm => if bool_decide (norm ≠ []) then {[norm]} ∪ urls else urls
  | None => urls
  end.

(** The first [try] block of the page loop; an exception of [get_text]
    leaves the set as it was. *)
Definition scan_text (urls : gset str) (page : Page) : gset str :=
  match get_text page with
  | None => urls
  | Some text => foldl add_normalized urls (findall (default [] text))
  end.

(** [uri = link.get("uri"); if uri: ...]. *)
Definition add_link (urls : gset str) (uri : option str) : gset str :=
  match uri with
  | Some (c :: u) => add_normalized urls (c :: u)
  | _ => urls
  end.

(** The second [try] block of the page loop. *)
Definition scan_links (urls : gset str) (page : Page) : gset str :=
  match get_links page with
  | None => urls
  | Some links => foldl add_link urls (default [] links)
  end.

Definition scan_page (urls : gset str) (page : Page) : gset str :=
  scan_links (scan_text urls page) page.

(** The set [urls] once every page has been scanned. *)
Definition discovered (pages : list Page) : gset str :=
  foldl scan_page ∅ pages.

(** [list(urls)] enumerates the set in an order the language leaves
    open. *)
Variable list_of_set : gset str → list str.

(** The generator behind [random.shuffle]. *)
Variable draws : list nat.

(** [extract_pdf_urls(pdf_bytes, max_urls)], on the outcome of opening the
    document; an exception of [fitz.open] propagates to the caller. *)
Definition extract_pdf_urls (doc : opened) (max_urls : Z) : result (list str) :=
  match doc with
  | Document pages =>
      let url_list := list_of_set (discovered pages) in
      let url_list := shuffle draws url_list in
      Ok (slice_to max_urls url_list)
  | OpenRaises e => Raise e
  end.

End normalize.

End URLExtractor.

Import URLExtractor.

(** ** Configuration and runtime *)

(** [class Config], read once from the environment. *)
Class Config := {
  USER_AGENT : str;
  REQUEST_TIMEOUT_S : Q;
  CONNECT_TIMEOUT_S : Q;
  CONCURRENCY : Z;
  PER_REQUEST_DELAY_S : Q;
  MAX_URLS : Z;
  MAX_PDF_SIZE_MB : Q
}.

(** What the program takes from its libraries.  A library call made inside
    [try: ... except Exception: pass] returns [None] when it raises. *)
Class Runtime := {
  (** f-string rendering of a float under a format specification. *)
  format_float : str → Q → str;
  (** [trafilatura.extract(html, include_formatting=False,
      favor_recall=True)], which returns a string or [None]. *)
  trafilatura_extract : str → option (option str);
  (** Whether [readability] and [lxml] could be imported. *)
  HAS_READABILITY : bool;
  (** [Document(html).summary(html_partial=True)]. *)
  Document_summary : str → option str;
  (** [fromstring(markup).text_content()]. *)
  fromstring_text_content : str → option str;
  (** The text of the error pydantic raises for a rejected [source_url]. *)
  validation_message : str → str;
  (** [ipaddress] and the IPvFuture pattern behind [urlsplit]. *)
  check_bracketed_host : str → bool;
  (** [fitz.open] on the uploaded bytes. *)
  fitz_open : list Byte.byte → opened
}.

(** ** Data models *)

Inductive Status := success | error.

Record ScrapeItem := mkItem {
  source_url : str;
  status : Status;
  scraped_text : option str;
  error_message : option str
}.

(** ** Content fetching and extraction *)

Module ContentScraper.

Record Response := mkResponse {
  status_code : Z;
  content_type : option str;
  text : str
}.

(** What [await self.client.get(url)] can do: raise one of the three
    exceptions [fetch_html] names, raise anything else, or deliver a
    response.  [RequestError] stands for the subclasses of
    [httpx.RequestError] outside [httpx.TimeoutException]. *)
Inductive get_outcome :=
| TimeoutException
| InvalidURL
| RequestError (e : exn)
| OtherError (e : exn)
| Responded (resp : Response).

Section scraper.

Context `{Config} `{Runtime}.

(** The remote side: what a call [client.get(url)] ends in, given the calls
    made on the client so far.  The client is built with
    [follow_redirects=True, max_redirects=5]: the requests it sends on its
    own to follow redirects happen inside the call and show in its outcome
    only. *)
Variable respond : list str → str → get_outcome.

(** The shared [httpx.AsyncClient], reduced to the log of the calls of
    its [get]: one entry per call, the URL the call was handed. *)
Definition client_get (client : list str) (url : str)
  : get_outcome * list str :=
  (respond client url, client ++ [url]).

Definition fetch_html (client : list str) (url : str)
  : result (option str * option str) * list str :=
  let '(outcome, client) := client_get client url in
  (match outcome with
   | TimeoutException =>
       Ok (None, Some (py "timeout after "
                       ++ format_float [] REQUEST_TIMEOUT_S ++ py "s"))
   | InvalidURL => Ok (None, Some (py "invalid URL"))
   | RequestError e =>
       Ok (None, Some (py "request error: " ++ class_name e
                       ++ py ": " ++ exn_str e))
   | OtherError e => Raise e
   | Responded resp =>
       let ctype := lower (default [] (content_type resp)) in
       if (400 <=? status_code resp)%Z then
         Ok (None, Some (py "http " ++ py (pretty (status_code resp))))
       else if negb (contains (py "text/html") ctype)
               && negb (contains (py "application/xhtml+xml") ctype) then
         Ok (None, Some (py "unsupported content-type: "
                         ++ match ctype with
                            | [] => py "unknown"
                            | _ :: _ => ctype
                            end))
       else Ok (Some (text resp), None)
   end, client).

(** [re.sub(r"\s{3,}", "\n\n", s)]: [run] is the white space read since
    the last other character; a run of three or more becomes two line
    feeds, a shorter one is kept. *)
Definition flush_run (run : str) : str :=
  if 3 <=? length run then ["010"; "010"]%char else run.

Fixpoint sub_whitespace (run : str) (s : str) : str :=
  match s with
  | [] => flush_run run
  | c :: s' =>
      if isspace c then sub_whitespace (run ++ [c]) s'
      else flush_run run ++ c :: sub_whitespace [] s'
  end.

(** [re.sub(r"\s{3,}", "\n\n", txt.strip())]. *)
Definition tidy (txt : str) : str := sub_whitespace [] (strip txt).

(** The first [try] block of [extract_main_text]. *)
Definition primary_strategy (html : str) : option str :=
  match trafilatura_extract html with
  | Some (Some (c :: txt)) => Some (tidy (c :: txt))
  | _ => None
  end.

(** The second [try] block, entered when [HAS_READABILITY]. *)
Definition secondary_strategy (html : str) : option str :=
  match Document_summary html ≫= fromstring_text_content with
  | Some (c :: txt) => Some (tidy (c :: txt))
  | _ => None
  end.

Definition extract_main_text (html : str) : option str :=
  match primary_strategy html with
  | Some txt => Some txt
  | None => if HAS_READABILITY then secondary_strategy html else None
  end.

End scraper.

Global Arguments fetch_html : simpl never.
Global Arguments extract_main_text : simpl never.

End ContentScraper.

Import ContentScraper.

(** ** The scraper service *)

Module ScraperService.

(** [max_length] of [ScrapeItem.source_url]. *)
Definition SOURCE_URL_MAX_LENGTH : nat := 2000.

Section service.

Context `{Config} `{Runtime}.

Variable respond : list str → str → get_outcome.

(** [ScrapeItem(source_url=..., status=..., ...)]: pydantic validates the
    fields and raises when [source_url] is longer than [max_length]. *)
Definition ScrapeItem_new (url : str) (st : Status)
    (txt err : option str) : result ScrapeItem :=
  if SOURCE_URL_MAX_LENGTH <? length url
  then Raise (ValidationError (validation_message url))
  else Ok (mkItem url st txt err).

(** The body of [worker] under [async with self.sem]. *)
Definition worker_body (client : list str) (url : str)
  : result ScrapeItem * list str :=
  let '(fetched, client) := fetch_html respond client url in
  (match fetched with
   | Raise e => Raise e
   | Ok (html, err) =>
       if truthy err then ScrapeItem_new url error None err
       else
         let text := extract_main_text (default [] html) in
         if negb (truthy text) then
           ScrapeItem_new url error None
             (Some (py "no main content extracted"))
         else ScrapeItem_new url success text None
   end, client).

(** [asyncio.Semaphore(value)] raises [ValueError] for a negative value;
    the semaphore is its counter. *)
Definition Semaphore (value : Z) : option Z :=
  if (value <? 0)%Z then None else Some value.

(** [ScraperService.__init__]. *)
Definition __init__ : option Z := Semaphore CONCURRENCY.

(** A task of [asyncio.gather]: it sleeps for the start delay, waits for a
    slot of the semaphore unless one is free, fetches and extracts while
    it holds the slot, and is done with what [worker] returned or
    raised. *)
Inductive task_state :=
| Pending
| Delayed
| WaitingForSlot
| Fetching
| Done (r : result ScrapeItem).

Record state := mkState {
  sem : Z;
  client : list str;
  tasks : list (str * task_state)
}.

(** [tasks = [worker(u) for u in urls]] with a fresh client. *)
Definition init (sem : Z) (urls : list str) : state :=
  mkState sem [] (map (λ u, (u, Pending)) urls).

(** The event loop resumes task [i] up to its next suspension point;
    [None] when the task cannot move.  The suspension points are the start
    delay, the acquisition of the semaphore and the wait for the network;
    extraction runs in the move that ends the fetch.  The queue of the
    semaphore is left out: a free slot goes to whichever task asks next,
    of which the first-come order of [asyncio] is one case. *)
Definition step_task (i : nat) (st : state) : option state :=
  match tasks st !! i with
  | Some (url, Pending) =>
      Some (mkState (sem st) (client st) (<[i:=(url, Delayed)]> (tasks st)))
  | Some (url, Delayed) =>
      if (0 <? sem st)%Z
      then Some (mkState (sem st - 1) (client st)
                   (<[i:=(url, Fetching)]> (tasks st)))
      else Some (mkState (sem st) (client st)
                   (<[i:=(url, WaitingForSlot)]> (tasks st)))
  | Some (url, WaitingForSlot) =>
      if (0 <? sem st)%Z
      then Some (mkState (sem st - 1) (client st)
                   (<[i:=(url, Fetching)]> (tasks st)))
      else None
  | Some (url, Fetching) =>
      let '(r, client) := worker_body (client st) url in
      Some (mkState (sem st + 1) client (<[i:=(url, Done r)]> (tasks st)))
  | _ => None
  end.

(** One move of the event loop. *)
Definition step (st st' : state) : Prop := ∃ i, step_task i st = Some st'.

(** The loop resumes the tasks in the order [sched]; a task that cannot
    move is passed over. *)
Definition run (sched : list nat) (st : state) : state :=
  foldl (λ st i, default st (step_task i st)) st sched.

(** What [await asyncio.gather( *tasks, return_exceptions=True)] hands
    back once every task is done, in the order of [tasks]. *)
Definition gathered (st : state) : option (list (result ScrapeItem)) :=
  mapM (λ t, match t.2 with Done r => Some r | _ => None end) (tasks st).

(** The body of the loop over [zip(results, urls)]: an exception that
    [gather] handed back becomes an [error] item, anything else is kept. *)
Definition to_item (p : result ScrapeItem * str) : result ScrapeItem :=
  match p.1 with
  | Raise e =>
      ScrapeItem_new p.2 error None
        (Some (py "internal error: " ++ class_name e
               ++ py ": " ++ exn_str e))
  | Ok item => Ok item
  end.

Definition append_item (items : result (list ScrapeItem))
    (p : result ScrapeItem * str) : result (list ScrapeItem) :=
  items ← items;
  item ← to_item p;
  Ok (items ++ [item]).

Definition collect_items (results : list (result ScrapeItem))
    (urls : list str) : result (list ScrapeItem) :=
  foldl append_item (Ok []) (zip results urls).

(** [scrape_urls(urls)] when the event loop follows [sched]; [None] when
    [sched] ends before every task is done. *)
Definition scrape_urls (sem : Z) (sched : list nat) (urls : list str)
  : option (result (list ScrapeItem)) :=
  results ← gathered (run sched (init sem urls));
  Some (collect_items results urls).

Definition is_fetching (t : str * task_state) : bool :=
  match t.2 with Fetching => true | _ => false end.

Definition is_waiting (t : str * task_state) : bool :=
  match t.2 with WaitingForSlot => true | _ => false end.

(** [sum(f(t) for t in l)]. *)
Definition total {A} (f : A → nat) (l : list A) : nat := sum_list (map f l).

Definition count_if {A} (p : A → bool) (l : list A) : nat :=
  total (λ x, if p x then 1 else 0) l.

(** Number of tasks between acquiring and releasing the semaphore. *)
Definition fetching (st : state) : nat := count_if is_fetching (tasks st).

(** Number of tasks blocked on the semaphore. *)
Definition waiting (st : state) : nat := count_if is_waiting (tasks st).

(** How many moves a task is away from [Done]. *)
Definition rank (t : str * task_state) : nat :=
  match t.2 with
  | Pending => 4
  | Delayed => 3
  | WaitingForSlot => 2
  | Fetching => 1
  | Done _ => 0
  end.

Definition remaining (st : state) : nat := total rank (tasks st).

End service.

Global Arguments worker_body : simpl never.

End ScraperService.

Import ScraperService.

(** ** The route [POST /scrape-resume-links] *)

Module Api.

(** What the caller of the route gets: an [HTTPException] raised by the
    handler, the JSON body, or an exception the handler lets through. *)
Inductive reply :=
| HTTPException (status_code : Z) (detail : str)
| JSONResponse (scraped_data : list ScrapeItem)
| Unhandled (e : exn).

Section route.

Context `{Config} `{Runtime}.

Variable respond : list str → str → get_outcome.
Variable list_of_set : gset str → list str.
Variable draws : list nat.

(** [len(content) / (1024 * 1024)]: the quotient of an integer below 2^53
    by a power of two is exact in binary floating point, so the float is
    the rational it denotes. *)
Definition size_mb (content : list Byte.byte) : Q :=
  Z.of_nat (length content) # 1048576.

(** The handler past the size check: link discovery, the three
    rejections, and the scrape. *)
Definition parse_and_scrape (sem : Z) (sched : list nat)
    (content : list Byte.byte) : option reply :=
  match extract_pdf_urls check_bracketed_host list_of_set draws
          (fitz_open content) MAX_URLS with
  | Raise (FileDataError _) =>
      Some (HTTPException 400 (py "Invalid or corrupted PDF"))
  | Raise e =>
      Some (HTTPException 400 (py "PDF parse error: " ++ exn_str e))
  | Ok [] =>
      Some (HTTPException 422 (py "No hyperlinks found in the PDF"))
  | Ok urls =>
      match scrape_urls respond sem sched urls with
      | None => None
      | Some (Ok items) => Some (JSONResponse items)
      | Some (Raise e) => Some (Unhandled e)
      end
  end.

(** [scrape_resume_links(resume_pdf)] on the bytes read from the upload;
    [sem] is the semaphore of the module-level [scraper_service] and
    [sched] the order in which the event loop resumes the tasks.  [None]
    when [sched] ends before the scrape does. *)
Definition scrape_resume_links (sem : Z) (sched : list nat)
    (content : list Byte.byte) : option reply :=
  if negb (Qle_bool (size_mb content) MAX_PDF_SIZE_MB) then
    Some (HTTPException 413
            (py "PDF too large (" ++ format_float (py ".2f") (size_mb content)
             ++ py " MB). Max " ++ format_float (py ".0f") MAX_PDF_SIZE_MB
             ++ py " MB"))
  else parse_and_scrape sem sched content.

End route.

End Api.

Import Api.

(** * The vocabulary of the statements *)

(** Closes a decidable statement without variables by evaluation. *)
Ltac by_evaluation := apply (bool_decide_unpack _); vm_compute; exact I.

(** Splits a move of the event loop, given by the case lemma [cases], into
    the five moves a task can make. *)
Ltac task_cases cases H :=
  apply cases in H
    as (?url & ?ts & ?ts' & ?Hi & ?Htasks
        & [(-> & -> & ?Hsem & ?Hcl)
          |[(-> & -> & ?Hpos & ?Hsem & ?Hcl)
          |[(-> & -> & ?Hpos & ?Hsem & ?Hcl)
          |[(-> & -> & ?Hpos & ?Hsem & ?Hcl)
           |(-> & -> & ?Hsem & ?Hcl)]]]]).

(** ** Items and runs *)

(** "Exactly one of [scraped_text] / [error_message] is populated,
    determined by [status]". *)
Definition item_ok (item : ScrapeItem) : Prop :=
  (is_Some (scraped_text item) ↔ ¬ is_Some (error_message item))
  ∧ (status item = success ↔ is_Some (scraped_text item))
  ∧ (status item = error ↔ is_Some (error_message item)).

(** The semaphore's counter and the tasks that hold a slot add up to the
    value the semaphore was created with. *)
Definition balanced (value : Z) (st : state) : Prop :=
  (0 ≤ sem st)%Z ∧ (sem st + Z.of_nat (fetching st) = value)%Z.

(** Every task is resumed twice, in the order of the list: it starts its
    delay, then wakes and asks for a slot. *)
Definition wake_all (n : nat) : list nat :=
  flat_map (λ i, [i; i]) (seq 0 n).

Section run_vocabulary.

Context `{Config} `{Runtime}.
Variable respond : list str → str → get_outcome.

(** [r] is what the body of [worker] gave for [u] on some state of the
    client. *)
Definition worker_result (u : str) (r : result ScrapeItem) : Prop :=
  ∃ cl, r = (worker_body respond cl u).1.

(** The invariants of a run over [urls]: the tasks keep their URLs, and a
    task is done with what the body of [worker] gave for its URL. *)
Definition tasks_for (urls : list str) (st : state) : Prop :=
  (tasks st).*1 = urls
  ∧ Forall (λ t, ∀ r, t.2 = Done r →
                 ∃ cl, r = (worker_body respond cl t.1).1) (tasks st).

End run_vocabulary.

(** ** Failures of the fetcher *)

(** The failure taxonomy of the fetcher, in the words of the
    specification. *)
Inductive failure :=
| Timeout
| InvalidUrl
| RequestFailed
| HttpStatus
| UnsupportedContentType.

(** "The content-type header indicates HTML or XHTML". *)
Definition indicates_html (resp : Response) : bool :=
  contains (py "text/html") (lower (default [] (content_type resp)))
  || contains (py "application/xhtml+xml")
       (lower (default [] (content_type resp))).

(** Which failure, if any, an outcome of the GET falls under. *)
Definition failure_of (outcome : get_outcome) : option failure :=
  match outcome with
  | TimeoutException => Some Timeout
  | InvalidURL => Some InvalidUrl
  | RequestError _ => Some RequestFailed
  | OtherError _ => None
  | Responded resp =>
      if decide (400 ≤ status_code resp)%Z then Some HttpStatus
      else if indicates_html resp then None
      else Some UnsupportedContentType
  end.

(** The first character of the message of each failure. *)
Definition initial (k : failure) : ascii :=
  match k with
  | Timeout => "t"
  | InvalidUrl => "i"
  | RequestFailed => "r"
  | HttpStatus => "h"
  | UnsupportedContentType => "u"
  end.

Section failure_vocabulary.

Context `{Config} `{Runtime}.

(** The message the specification gives for a failure. *)
Definition described (k : failure) (outcome : get_outcome) (msg : str)
  : Prop :=
  match k with
  | Timeout =>
      msg = py "timeout after " ++ format_float [] REQUEST_TIMEOUT_S ++ py "s"
  | InvalidUrl => msg = py "invalid URL"
  | RequestFailed =>
      ∃ e, outcome = RequestError e
           ∧ msg = py "request error: " ++ class_name e ++ py ": " ++ exn_str e
  | HttpStatus =>
      ∃ resp, outcome = Responded resp
              ∧ msg = py "http " ++ py (pretty (status_code resp))
  | UnsupportedContentType =>
      ∃ resp, outcome = Responded resp
              ∧ msg = py "unsupported content-type: "
                      ++ match lower (default [] (content_type resp)) with
                         | [] => py "unknown"
                         | value => value
                         end
  end.

End failure_vocabulary.

(** ** URLs found in a document *)

Section discovery_vocabulary.

Variable _check_bracketed_host : str → bool.

(** The normalized URLs found in a document, in the words of the
    specification: every match of the pattern in the text of a page and
    every non-empty target of a link annotation of the page, normalized,
    rejections left out; a page call that fails contributes nothing. *)
Definition usable (raw : str) : option str :=
  match normalize_url _check_bracketed_host raw with
  | Some (c :: norm) => Some (c :: norm)
  | _ => None
  end.

Definition nonempty (uri : option str) : option str :=
  match uri with
  | Some (c :: u) => Some (c :: u)
  | _ => None
  end.

Definition candidates (page : Page) : list str :=
  match get_text page with
  | Some text => findall (default [] text)
  | None => []
  end
  ++ match get_links page with
     | Some links => omap nonempty (default [] links)
     | None => []
     end.

Definition found (pages : list Page) : list str :=
  omap usable (pages ≫= candidates).

End discovery_vocabulary.

(** ** Shapes of URLs *)

Definition safe (c : ascii) : Prop := c ∉ _UNSAFE_URL_BYTES_TO_REMOVE.

(** The string handed to [urlsplit], past the white space on the left. *)
Definition www_prefixed (raw : str) : str :=
  if startswith (py "www.") (lower raw) then py "http://" ++ raw else raw.

(** "Does not end in white space or trailing punctuation". *)
Definition ends_clean (s : str) : Prop :=
  rstrip_by isspace s = s ∧ _strip_trailing_punct s = s.

Definition query_suffix (query : str) : str :=
  match query with
  | [] => []
  | _ :: _ => py "?" ++ query
  end.

(** ** Shapes of text *)

(** Closes a statement about one character by going through the 256 of
    them. *)
Ltac by_cases_on c := destruct c as [[] [] [] [] [] [] [] []]; by vm_compute.

(** The characters of a text that are not white space, in their order. *)
Definition visible (s : str) : str := List.filter (λ c, negb (isspace c)) s.

(** "No three white-space characters in a row": [n] counts the white
    space read since the last other character. *)
Fixpoint short_runs (n : nat) (s : str) : bool :=
  match s with
  | [] => true
  | c :: s' =>
      if isspace c then (n <? 2) && short_runs (S n) s' else short_runs 0 s'
  end.

(** The text made of the pieces [gaps] with the matches [ms] between
    them: a gap, a match, a gap, ..., a last gap. *)
Fixpoint weave (gaps ms : list str) : str :=
  match gaps with
  | [] => []
  | g :: gaps' =>
      g ++ match ms with
           | [] => []
           | m :: ms' => m ++ weave gaps' ms'
           end
  end.

(** The three prefixes of the pattern, in lower case. *)
Definition prefixes : list str := [py "https://"; py "http://"; py "www."].

(** The shape of a match of the pattern: a prefix in any case, at least
    one host character, and no character outside [[^\s<]]. *)
Definition is_match (m : str) : Prop :=
  (∃ p h r, m = p ++ h :: r ∧ lower p ∈ prefixes ∧ is_host_char h = true)
  ∧ Forall (λ c, is_path_char c = true) m.

(** ** States of a run *)

(** The URLs of the tasks that are done, in the order of the tasks: the
    ones whose request has been made and answered. *)
Definition finished (st : state) : list str :=
  omap (λ t, match t.2 with Done _ => Some t.1 | _ => None end) (tasks st).

(** A run on a semaphore without slots: no slot is free, no request has
    been sent, and no task is past the wait for a slot. *)
Definition blocked (st : state) : Prop :=
  sem st = 0%Z ∧ client st = [] ∧ Forall (λ t, 2 ≤ rank t) (tasks st).

(** ** Replies of the route *)

(** The detail of the 400 reply for an exception of link discovery. *)
Definition bad_request_detail (e : exn) : str :=
  match e with
  | FileDataError _ => py "Invalid or corrupted PDF"
  | _ => py "PDF parse error: " ++ exn_str e
  end.

(** ** Sample configuration and runtime, for closed instances *)

Module Samples.

(** The defaults of [class Config]. *)
Definition default_config : Config := {|
  USER_AGENT := py "Mozilla/5.0 ResumeLinkScraper/1.0";
  REQUEST_TIMEOUT_S := 12;
  CONNECT_TIMEOUT_S := 5;
  CONCURRENCY := 6;
  PER_REQUEST_DELAY_S := 15 # 100;
  MAX_URLS := 40;
  MAX_PDF_SIZE_MB := 10
|}.

(** A runtime whose extractors echo the markup and whose parser finds one
    page whose text is the upload itself. *)
Definition echo_runtime : Runtime := {|
  format_float := λ _ q, py (pretty (Qnum q)) ++ py "/" ++ py (pretty (Zpos (Qden q)));
  trafilatura_extract := λ html, Some (Some html);
  HAS_READABILITY := true;
  Document_summary := λ html, Some html;
  fromstring_text_content := λ markup, Some markup;
  validation_message := λ _, py "ensure this value has at most 2000 characters";
  check_bracketed_host := λ _, true;
  fitz_open := λ content,
    Document [mkPage (Some (Some (map ascii_of_byte content))) (Some None)]
|}.

(** A server that answers every request with a small HTML page. *)
Definition html_server : list str → str → get_outcome :=
  λ _ _, Responded (mkResponse 200 (Some (py "text/html; charset=utf-8"))
                      (py "<p>hello</p>")).

(** A URL of 2001 characters. *)
Definition long_url : str := py "http://x.com/" ++ replicate 1988 "a"%char.

(** An upload whose text is that URL. *)
Definition long_link_upload : list Byte.byte := map byte_of_ascii long_url.

(** A runtime like [echo_runtime] whose extractors find nothing. *)
Definition silent_runtime : Runtime := {|
  format_float := format_float (Runtime := echo_runtime);
  trafilatura_extract := λ _, Some None;
  HAS_READABILITY := true;
  Document_summary := λ _, None;
  fromstring_text_content := λ markup, Some markup;
  validation_message := validation_message (Runtime := echo_runtime);
  check_bracketed_host := λ _, true;
  fitz_open := fitz_open (Runtime := echo_runtime)
|}.

(** A configuration whose size limit is three bytes. *)
Definition tiny_config : Config := {|
  USER_AGENT := py "ResumeLinkScraper/1.0";
  REQUEST_TIMEOUT_S := 12;
  CONNECT_TIMEOUT_S := 5;
  CONCURRENCY := 6;
  PER_REQUEST_DELAY_S := 15 # 100;
  MAX_URLS := 40;
  MAX_PDF_SIZE_MB := 3 # 1048576
|}.

Definition three_bytes : list Byte.byte := [Byte.x25; Byte.x50; Byte.x44].

Definition three_urls : list str :=
  [py "http://a.example/"; py "http://b.example/"; py "http://c.example/"].

Definition eight_urls : list str :=
  map (λ c, py "http://example.org/" ++ [c]) (py "abcdefgh").

(** A server that answers the first URL with a page, the second with a
    404, and fails the third with an exception that is no request
    error. *)
Definition mixed_server : list str → str → get_outcome :=
  λ _ url,
    if bool_decide (url = py "http://a.example/") then
      Responded (mkResponse 200 (Some (py "text/html")) (py "<p>hello</p>"))
    else if bool_decide (url = py "http://b.example/") then
      Responded (mkResponse 404 (Some (py "text/html")) (py "not found"))
    else OtherError (Exception (py "RuntimeError") (py "boom")).

(** A document of two pages whose texts hold one URL each (the first with
    trailing punctuation) and whose first page links to the first URL
    again. *)
Definition two_page_document : list Page :=
  [mkPage (Some (Some (py "Portfolio: https://a.example/me).")))
          (Some (Some [Some (py "https://a.example/me"); None]));
   mkPage (Some (Some (py "code at www.b.example/dev, thanks")))
          (Some None)].

(** A runtime like [echo_runtime] whose parser finds that document in
    every upload. *)
Definition two_page_runtime : Runtime := {|
  format_float := format_float (Runtime := echo_runtime);
  trafilatura_extract := λ html, Some (Some html);
  HAS_READABILITY := true;
  Document_summary := λ html, Some html;
  fromstring_text_content := λ markup, Some markup;
  validation_message := validation_message (Runtime := echo_runtime);
  check_bracketed_host := λ _, true;
  fitz_open := λ _, Document two_page_document
|}.

(** A configuration whose semaphore has no slot. *)
Definition blocked_config : Config := {|
  USER_AGENT := py "ResumeLinkScraper/1.0";
  REQUEST_TIMEOUT_S := 12;
  CONNECT_TIMEOUT_S := 5;
  CONCURRENCY := 0;
  PER_REQUEST_DELAY_S := 15 # 100;
  MAX_URLS := 40;
  MAX_PDF_SIZE_MB := 10
|}.

(** A runtime like [echo_runtime] whose first extractor finds white space
    only. *)
Definition blank_runtime : Runtime := {|
  format_float := format_float (Runtime := echo_runtime);
  trafilatura_extract := λ _, Some (Some (py "  " ++ ["010"]%char));
  HAS_READABILITY := true;
  Document_summary := λ html, Some html;
  fromstring_text_content := λ markup, Some markup;
  validation_message := validation_message (Runtime := echo_runtime);
  check_bracketed_host := λ _, true;
  fitz_open := fitz_open (Runtime := echo_runtime)
|}.


End Samples.

Import Samples.

(** * Properties *)

(** ** The event loop and the semaphore *)

Section loop_facts.

Context `{Config} `{Runtime}.
Variable respond : list str → str → get_outcome.

Local Abbreviation step := (step respond).
Local Abbreviation step_task := (step_task respond).
Local Abbreviation run := (run respond).
Local Abbreviation tasks_for := (tasks_for respond).
Local Abbreviation worker_result := (worker_result respond).

Lemma total_insert {A} (f : A → nat) (l : list A) i x y :
  l !! i = Some x → total f (<[i:=y]> l) + f x = total f l + f y.
Proof.
  unfold total. revert i. induction l as [|a l IH]; intros [|i] Hi;
    simplify_eq/=; [lia|].
  specialize (IH i Hi). lia.
Qed.

Lemma count_if_insert {A} (p : A → bool) (l : list A) i x y :
  l !! i = Some x →
  count_if p (<[i:=y]> l) + (if p x then 1 else 0)
  = count_if p l + (if p y then 1 else 0).
Proof. apply total_insert. Qed.

Lemma total_zero_Forall {A} (f : A → nat) (l : list A) :
  total f l = 0 ↔ Forall (λ x, f x = 0) l.
Proof.
  unfold total. induction l as [|a l IH]; simpl.
  - split; auto.
  - rewrite Forall_cons, <- IH. lia.
Qed.

Lemma total_pos_lookup {A} (f : A → nat) (l : list A) :
  0 < total f l → ∃ i x, l !! i = Some x ∧ 0 < f x.
Proof.
  unfold total. induction l as [|a l IH]; simpl; [lia|].
  intros Hpos. destruct (decide (0 < f a)) as [Ha|Ha].
  - by exists 0, a.
  - destruct IH as (i & x & Hi & Hx); [lia|]. by exists (S i), x.
Qed.

Lemma balanced_init value urls :
  (0 ≤ value)%Z → balanced value (init value urls).
Proof.
  intros Hv. split; [done|]. unfold fetching, init; simpl.
  assert (count_if is_fetching (map (λ u : str, (u, Pending)) urls) = 0)
    as ->; [|lia].
  apply total_zero_Forall, Forall_forall. intros t Ht.
  apply list_elem_of_fmap in Ht as (u & -> & _). done.
Qed.

Lemma step_task_cases i st st' :
  step_task i st = Some st' →
  ∃ url ts ts',
    tasks st !! i = Some (url, ts)
    ∧ tasks st' = <[i:=(url, ts')]> (tasks st)
    ∧ ((ts = Pending ∧ ts' = Delayed
        ∧ sem st' = sem st ∧ client st' = client st)
       ∨ (ts = Delayed ∧ ts' = Fetching ∧ (0 < sem st)%Z
          ∧ sem st' = (sem st - 1)%Z ∧ client st' = client st)
       ∨ (ts = Delayed ∧ ts' = WaitingForSlot ∧ (sem st ≤ 0)%Z
          ∧ sem st' = sem st ∧ client st' = client st)
       ∨ (ts = WaitingForSlot ∧ ts' = Fetching ∧ (0 < sem st)%Z
          ∧ sem st' = (sem st - 1)%Z ∧ client st' = client st)
       ∨ (ts = Fetching
          ∧ ts' = Done (worker_body respond (client st) url).1
          ∧ sem st' = (sem st + 1)%Z
          ∧ client st' = (worker_body respond (client st) url).2)).
Proof.
  unfold ScraperService.step_task. intros Hstep.
  destruct (tasks st !! i) as [[url ts]|] eqn:Hi; [|done].
  exists url, ts.
  destruct ts as [| | | |r]; try done.
  - inversion Hstep; subst; clear Hstep. exists Delayed. tauto.
  - destruct (Z.ltb_spec 0 (sem st));
      inversion Hstep; subst; clear Hstep;
      [exists Fetching|exists WaitingForSlot]; cbn; tauto.
  - destruct (Z.ltb_spec 0 (sem st)); [|done].
    inversion Hstep; subst; clear Hstep. exists Fetching. cbn. tauto.
  - destruct (worker_body respond (client st) url) as [r cl] eqn:Hw.
    inversion Hstep; subst; clear Hstep. exists (Done r). cbn.
    repeat split; auto. do 4 right. tauto.
Qed.

Lemma balanced_step value i st st' :
  balanced value st → step_task i st = Some st' → balanced value st'.
Proof.
  intros [Hnn Hsum] Hstep. unfold balanced, fetching in *.
  task_cases step_task_cases Hstep; rewrite Htasks, Hsem;
    match goal with
    | |- context [<[_:=?y]> _] =>
        pose proof (count_if_insert is_fetching _ _ _ y Hi) as Hc
    end;
    unfold is_fetching at 2 4 in Hc; cbn in Hc; lia.
Qed.

Lemma balanced_rtc value st st' :
  balanced value st → rtc step st st' → balanced value st'.
Proof.
  intros Hb Hrtc. induction Hrtc as [|st st' st'' [i Hi] _ IH]; [done|].
  eauto using balanced_step.
Qed.

Lemma run_rtc sched st : rtc step st (run sched st).
Proof.
  revert st. induction sched as [|i sched IH]; intros st; simpl; [done|].
  destruct (step_task i st) as [st'|] eqn:Hi; simpl.
  - eapply rtc_l; [by exists i|]. apply IH.
  - apply IH.
Qed.

Lemma run_app s1 s2 st : run (s1 ++ s2) st = run s2 (run s1 st).
Proof. apply foldl_app. Qed.

(** *** What a task can be done with *)

Lemma ScrapeItem_new_Ok url s txt err item :
  ScrapeItem_new url s txt err = Ok item →
  item = mkItem url s txt err ∧ length url ≤ SOURCE_URL_MAX_LENGTH.
Proof.
  unfold ScrapeItem_new. destruct (Nat.ltb_spec SOURCE_URL_MAX_LENGTH (length url));
    [done|]. intros [= <-]. auto.
Qed.

Lemma ScrapeItem_new_short url s txt err :
  length url ≤ SOURCE_URL_MAX_LENGTH →
  ScrapeItem_new url s txt err = Ok (mkItem url s txt err).
Proof.
  unfold ScrapeItem_new. by destruct (Nat.ltb_spec SOURCE_URL_MAX_LENGTH (length url)); [lia|].
Qed.

Lemma ScrapeItem_new_long url s txt err :
  SOURCE_URL_MAX_LENGTH < length url →
  ScrapeItem_new url s txt err = Raise (ValidationError (validation_message url)).
Proof.
  unfold ScrapeItem_new. by destruct (Nat.ltb_spec SOURCE_URL_MAX_LENGTH (length url)); [|lia].
Qed.

Lemma truthy_Some o : truthy o = true → ∃ c s, o = Some (c :: s).
Proof. destruct o as [[|c s]|]; [done| |done]. eauto. Qed.

(** The three branches of [worker] past the fetch. *)
Lemma worker_body_unfold cl url :
  (worker_body respond cl url).1 =
  match (fetch_html respond cl url).1 with
  | Raise e => Raise e
  | Ok (html, err) =>
      if truthy err then ScrapeItem_new url error None err
      else if negb (truthy (extract_main_text (default [] html)))
           then ScrapeItem_new url error None
                  (Some (py "no main content extracted"))
           else ScrapeItem_new url success
                  (extract_main_text (default [] html)) None
  end.
Proof.
  unfold worker_body. destruct (fetch_html respond cl url) as [[[html err]|e] cl'];
    reflexivity.
Qed.

Lemma worker_body_Ok cl url item :
  (worker_body respond cl url).1 = Ok item →
  source_url item = url ∧ item_ok item
  ∧ (status item = success → ∃ c s, scraped_text item = Some (c :: s)).
Proof.
  rewrite worker_body_unfold.
  destruct (fetch_html respond cl url).1 as [[html err]|e]; [|done].
  destruct (truthy err) eqn:Herr.
  { apply truthy_Some in Herr as (c & s & ->).
    intros [-> _]%ScrapeItem_new_Ok. unfold item_ok; simpl.
    split_and!; try done; try (split; [by intros []|]; intros Hn; by destruct Hn);
      try (split; [done|by intros []]); eauto. }
  destruct (truthy (extract_main_text _)) eqn:Htxt; simpl.
  - apply truthy_Some in Htxt as (c & s & Htxt). rewrite Htxt.
    intros [-> _]%ScrapeItem_new_Ok. unfold item_ok; simpl.
    split_and!; try done; eauto;
      try (split; [intros _ []; done|eauto]); try (split; [done|by intros []]).
  - intros [-> _]%ScrapeItem_new_Ok. unfold item_ok; simpl.
    split_and!; try done; try (split; [by intros []|]; intros Hn; by destruct Hn);
      try (split; [done|by intros []]); eauto.
Qed.

Lemma tasks_for_init value urls : tasks_for urls (init value urls).
Proof.
  split; simpl.
  - rewrite <- list_fmap_compose. apply list_fmap_id.
  - apply Forall_forall. intros t (u & -> & _)%list_elem_of_fmap r Hr. done.
Qed.

Lemma fst_insert_same {A B} (l : list (A * B)) i a b b' :
  l !! i = Some (a, b) → (<[i:=(a, b')]> l).*1 = l.*1.
Proof.
  intros Hi. rewrite list_fmap_insert. simpl.
  apply list_insert_id. by rewrite list_lookup_fmap, Hi.
Qed.

Lemma tasks_for_step urls i st st' :
  tasks_for urls st → step_task i st = Some st' → tasks_for urls st'.
Proof.
  intros [Hurls Hdone] Hstep. unfold tasks_for.
  task_cases step_task_cases Hstep; rewrite Htasks; (split;
    [by erewrite fst_insert_same|
     apply Forall_insert; [done|]; intros r Hr; simplify_eq/=; eauto]).
Qed.

Lemma tasks_for_rtc urls st st' :
  tasks_for urls st → rtc step st st' → tasks_for urls st'.
Proof.
  intros Hb Hrtc. induction Hrtc as [|st st' st'' [i Hi] _ IH]; [done|].
  eauto using tasks_for_step.
Qed.

(** *** The loop over [zip(results, urls)] *)

Lemma foldl_append_item_Raise e ps :
  foldl (append_item) (Raise e) ps = Raise e.
Proof. induction ps as [|p ps IH]; simpl; auto. Qed.

Lemma foldl_append_item_Ok acc ps items :
  foldl append_item (Ok acc) ps = Ok items ↔
  ∃ its, Forall2 (λ p it, to_item p = Ok it) ps its ∧ items = acc ++ its.
Proof.
  revert acc items. induction ps as [|p ps IH]; intros acc items; simpl.
  - split.
    + intros [= <-]. exists []. by rewrite app_nil_r.
    + intros (its & ->%Forall2_nil_inv_l & ->). by rewrite app_nil_r.
  - destruct (to_item p) as [it|e] eqn:Hp; simpl.
    + rewrite IH. split.
      * intros (its & Hits & ->). exists (it :: its). rewrite <- app_assoc.
        split; [|done]. by constructor.
      * intros (its & Hits & ->).
        apply Forall2_cons_inv_l in Hits as (it' & its' & Hit' & Hits' & ->).
        assert (it' = it) as -> by congruence.
        exists its'. by rewrite <- app_assoc.
    + rewrite foldl_append_item_Raise. split; [done|].
      intros (its & Hits & _).
      apply Forall2_cons_inv_l in Hits as (it' & its' & Hit' & _ & _).
      congruence.
Qed.

Lemma foldl_append_item_first_Raise acc ps1 p ps2 its e :
  Forall2 (λ p it, to_item p = Ok it) ps1 its →
  to_item p = Raise e →
  foldl append_item (Ok acc) (ps1 ++ p :: ps2) = Raise e.
Proof.
  intros Hps1 Hp. rewrite foldl_app.
  assert (foldl append_item (Ok acc) ps1 = Ok (acc ++ its)) as ->.
  { apply foldl_append_item_Ok. eauto. }
  simpl. rewrite Hp. simpl.
  apply foldl_append_item_Raise.
Qed.

(** *** Runs end, and end with every task done *)

Lemma gathered_Some st results :
  gathered st = Some results ↔
  Forall2 (λ t r, t.2 = Done r) (tasks st) results.
Proof.
  unfold gathered. rewrite mapM_Some.
  split; intros Hall; (eapply Forall2_impl; [exact Hall|]);
    intros [u ts] r; simpl; destruct ts; naive_solver.
Qed.

Lemma remaining_step i st st' :
  step_task i st = Some st' → remaining st' < remaining st.
Proof.
  intros Hstep. unfold remaining.
  task_cases step_task_cases Hstep; rewrite Htasks;
    match goal with
    | |- context [<[_:=?y]> _] =>
        pose proof (total_insert rank _ _ _ y Hi) as Hc
    end;
    unfold rank at 2 4 in Hc; cbn in Hc; lia.
Qed.

Lemma remaining_init value urls :
  remaining (init value urls) = 4 * length urls.
Proof.
  unfold remaining, init, total; simpl.
  induction urls as [|u urls IH]; simpl; [done|]. rewrite IH. lia.
Qed.

Lemma remaining_nsteps n st st' :
  nsteps step n st st' → remaining st' + n ≤ remaining st.
Proof.
  induction 1 as [|n st st1 st2 [i Hi] _ IH]; [lia|].
  apply remaining_step in Hi. lia.
Qed.

Lemma gathered_remaining st :
  is_Some (gathered st) ↔ remaining st = 0.
Proof.
  unfold gathered, remaining. rewrite mapM_is_Some, total_zero_Forall.
  apply Forall_proper; [|done]. intros [u ts]; unfold rank; simpl.
  destruct ts; split; try done; by intros [].
Qed.

Lemma step_task_enabled i st url ts :
  tasks st !! i = Some (url, ts) →
  match ts with
  | Done _ => False
  | WaitingForSlot => (0 < sem st)%Z
  | _ => True
  end →
  is_Some (step_task i st).
Proof.
  intros Hi Hen. unfold ScraperService.step_task. rewrite Hi.
  destruct ts; try done; try (by eexists).
  - destruct (0 <? sem st)%Z; by eexists.
  - destruct (Z.ltb_spec 0 (sem st)); [by eexists|lia].
Qed.

(** No deadlock: while a task is not done and the semaphore was created
    with at least one slot, some task can move. *)
Lemma progress value st :
  balanced value st → (0 < value)%Z → 0 < remaining st →
  ∃ i st', step_task i st = Some st'.
Proof.
  intros [Hnn Hsum] Hpos Hrem.
  destruct (decide (0 < sem st)%Z) as [Hsem|Hsem].
  - apply total_pos_lookup in Hrem as (i & [url ts] & Hi & Hrank).
    destruct (step_task_enabled i st url ts Hi) as [st' Hst']; [|by eauto].
    destruct ts; try done. unfold rank in Hrank; simpl in Hrank; lia.
  - assert (0 < fetching st) as Hf by lia.
    apply total_pos_lookup in Hf as (i & [url ts] & Hi & Hfet).
    destruct (step_task_enabled i st url ts Hi) as [st' Hst']; [|by eauto].
    unfold is_fetching in Hfet; simpl in Hfet. destruct ts; try done; lia.
Qed.

(** Every state of a run over a semaphore with a slot can be driven to
    the end of the run. *)
Lemma completion value st :
  balanced value st → (0 < value)%Z →
  ∃ sched, is_Some (gathered (run sched st)).
Proof.
  intros Hbal Hpos.
  remember (remaining st) as n eqn:Hn.
  revert st Hbal Hn. induction (lt_wf n) as [n _ IH]. intros st Hbal ->.
  destruct (decide (remaining st = 0)) as [Hz|Hnz].
  - exists []. simpl. by apply gathered_remaining.
  - destruct (progress value st) as (i & st' & Hi); [done|done|lia|].
    destruct (IH (remaining st')) with (st := st') as [sched Hs];
      [by eapply remaining_step|by eapply balanced_step|done|].
    exists (i :: sched). simpl. by rewrite Hi.
Qed.

(** *** From the gathered results to the items *)

Lemma scrape_urls_Some sem sched urls res :
  scrape_urls respond sem sched urls = Some res →
  ∃ results, Forall2 worker_result urls results
             ∧ res = collect_items results urls.
Proof.
  unfold scrape_urls. intros Hres.
  destruct (gathered _) as [results|] eqn:Hg; simplify_eq/=.
  exists results. split; [|done].
  apply gathered_Some in Hg.
  destruct (tasks_for_rtc urls _ _ (tasks_for_init sem urls)
              (run_rtc sched (init sem urls))) as [Hurls Hdone].
  rewrite <- Hurls. clear Hurls.
  induction Hg as [|[u ts] r tl rs Hr Hg IH]; simpl; [constructor|].
  apply Forall_cons in Hdone as [Hd Hdone]. constructor; [|by apply IH].
  by apply Hd.
Qed.

Lemma to_item_Ok u r it :
  worker_result u r → to_item (r, u) = Ok it →
  source_url it = u ∧ item_ok it.
Proof.
  intros [cl ->]. unfold to_item; cbn [fst snd].
  destruct (worker_body respond cl u).1 as [item|e] eqn:Hw.
  - intros [= ->]. by apply worker_body_Ok in Hw as (? & ? & _).
  - intros [-> _]%ScrapeItem_new_Ok. split; [done|].
    unfold item_ok; simpl. split_and!; split; try done;
      try (by intros []); try (intros Hn; by destruct Hn); eauto.
Qed.

Lemma to_item_short u r :
  length u ≤ SOURCE_URL_MAX_LENGTH → ∃ it, to_item (r, u) = Ok it.
Proof.
  intros Hu. unfold to_item; simpl. destruct r as [item|e]; [by eauto|].
  rewrite ScrapeItem_new_short by done. eauto.
Qed.

Lemma collect_items_Ok urls results items :
  Forall2 worker_result urls results →
  collect_items results urls = Ok items →
  Forall2 (λ u it, source_url it = u ∧ item_ok it) urls items.
Proof.
  unfold collect_items. intros Hw (its & Hits & ->)%foldl_append_item_Ok.
  simpl. revert its Hits.
  induction Hw as [|u r urls results Hr Hw IH]; intros its Hits; simpl in *.
  - apply Forall2_nil_inv_l in Hits as ->. constructor.
  - apply Forall2_cons_inv_l in Hits as (it & its' & Hit & Hits & ->).
    constructor; [by eapply to_item_Ok|by apply IH].
Qed.

Lemma collect_items_short urls results :
  length results = length urls →
  Forall (λ u, length u ≤ SOURCE_URL_MAX_LENGTH) urls →
  ∃ items, collect_items results urls = Ok items.
Proof.
  intros Hlen Hshort. unfold collect_items.
  cut (∃ its, Forall2 (λ p it, to_item p = Ok it) (zip results urls) its).
  { intros [its Hits]. exists ([] ++ its). apply foldl_append_item_Ok. eauto. }
  revert results Hlen.
  induction Hshort as [|u urls Hu Hshort IH]; intros [|r results] Hlen;
    simplify_eq/=; try (by exists []).
  destruct (IH results) as [its Hits]; [done|].
  destruct (to_item_short u r Hu) as [it Hit].
  exists (it :: its). by constructor.
Qed.

(** *** Slots fill up in the order the tasks wake *)

Lemma wake_all_S n : wake_all (S n) = wake_all n ++ [n; n].
Proof.
  unfold wake_all. rewrite seq_S, flat_map_app. simpl. done.
Qed.

Lemma step_pending i st u :
  tasks st !! i = Some (u, Pending) →
  step_task i st
  = Some (mkState (sem st) (client st) (<[i:=(u, Delayed)]> (tasks st))).
Proof. intros Hi. unfold ScraperService.step_task. by rewrite Hi. Qed.

Lemma step_delayed i st u :
  tasks st !! i = Some (u, Delayed) →
  step_task i st
  = Some (if (0 <? sem st)%Z
          then mkState (sem st - 1) (client st)
                 (<[i:=(u, Fetching)]> (tasks st))
          else mkState (sem st) (client st)
                 (<[i:=(u, WaitingForSlot)]> (tasks st))).
Proof.
  intros Hi. unfold ScraperService.step_task. rewrite Hi.
  by destruct (0 <? sem st)%Z.
Qed.

Lemma run_wake_all value urls k :
  (0 ≤ value)%Z → k ≤ length urls →
  let st := run (wake_all k) (init value urls) in
  sem st = (value - Z.of_nat (min k (Z.to_nat value)))%Z
  ∧ fetching st = min k (Z.to_nat value)
  ∧ waiting st = k - min k (Z.to_nat value)
  ∧ length (tasks st) = length urls
  ∧ ∀ j, k ≤ j → tasks st !! j = tasks (init value urls) !! j.
Proof.
  intros Hv. induction k as [|k IH]; intros Hk; cbv zeta in *.
  - simpl. split_and!; try done.
    + lia.
    + apply total_zero_Forall, Forall_forall.
      by intros t (u & -> & _)%list_elem_of_fmap.
    + apply total_zero_Forall, Forall_forall.
      by intros t (u & -> & _)%list_elem_of_fmap.
    + by rewrite length_map.
  - rewrite wake_all_S, run_app.
    destruct IH as (Hsem & Hfet & Hwait & Hlen & Hrest); [lia|].
    set (st := run (wake_all k) (init value urls)) in *.
    destruct (lookup_lt_is_Some_2 urls k) as [u Hu]; [lia|].
    assert (tasks st !! k = Some (u, Pending)) as Hk0.
    { rewrite Hrest by lia. simpl. by rewrite list_lookup_fmap, Hu. }
    assert (<[k:=(u, Delayed)]> (tasks st) !! k = Some (u, Delayed)) as Hk1.
    { apply list_lookup_insert_eq. rewrite Hlen; lia. }
    unfold ScraperService.run; cbn [foldl].
    rewrite (step_pending k st u Hk0); cbn [default from_option id].
    rewrite (step_delayed k (mkState _ _ _) u Hk1);
      cbn [default from_option id sem client tasks].
    pose proof (count_if_insert is_fetching _ _ _ (u, Delayed) Hk0) as Hf1.
    pose proof (count_if_insert is_waiting _ _ _ (u, Delayed) Hk0) as Hw1.
    unfold fetching, waiting in *.
    destruct (Z.ltb_spec 0 (sem st)) as [Hpos|Hpos]; cbn [sem client tasks];
      [pose proof (count_if_insert is_fetching _ _ _ (u, Fetching) Hk1) as Hf2;
       pose proof (count_if_insert is_waiting _ _ _ (u, Fetching) Hk1) as Hw2
      |pose proof (count_if_insert is_fetching _ _ _ (u, WaitingForSlot) Hk1)
         as Hf2;
       pose proof (count_if_insert is_waiting _ _ _ (u, WaitingForSlot) Hk1)
         as Hw2];
      rewrite list_insert_insert_eq in Hf2, Hw2 |- *;
      unfold is_fetching at 2 4 in Hf1; unfold is_fetching at 2 4 in Hf2;
      unfold is_waiting at 2 4 in Hw1; unfold is_waiting at 2 4 in Hw2;
      cbn in Hf1, Hf2, Hw1, Hw2;
      (split_and!; [lia|lia|lia|by rewrite length_insert|]);
      intros j Hj; rewrite list_lookup_insert_ne by lia; apply Hrest; lia.
Qed.

Lemma service_created value :
  __init__ = Some value → value = CONCURRENCY ∧ (0 ≤ value)%Z.
Proof.
  unfold __init__, Semaphore.
  destruct (Z.ltb_spec CONCURRENCY 0); [done|]. intros [= <-]. lia.
Qed.

Lemma worker_body_Ok_short cl url item :
  (worker_body respond cl url).1 = Ok item →
  length url ≤ SOURCE_URL_MAX_LENGTH.
Proof.
  rewrite worker_body_unfold.
  destruct (fetch_html respond cl url).1 as [[html err]|e]; [|done].
  destruct (truthy err); [by intros [_ ?]%ScrapeItem_new_Ok|].
  destruct (negb _); by intros [_ ?]%ScrapeItem_new_Ok.
Qed.

(** ** The claims on [scrape_urls] *)

(** C1 (amended).  For every input list of URLs of at most 2000 characters
    each, on a service whose semaphore has at least one slot, [scrape_urls]
    returns: every interleaving of the tasks can be continued to the end of
    the run and none takes more than four moves per task; and whatever the
    interleaving, the value returned is a list of [ScrapeItem]s as long as
    the input whose i-th [source_url] is the i-th input URL. *)
Theorem scrape_urls_preserves_order sem urls :
  __init__ = Some sem → (0 < CONCURRENCY)%Z →
  Forall (λ u, length u ≤ SOURCE_URL_MAX_LENGTH) urls →
  (∀ sched, ∃ sched',
      is_Some (scrape_urls respond sem (sched ++ sched') urls))
  ∧ (∀ n st, nsteps step n (init sem urls) st → n ≤ 4 * length urls)
  ∧ (∀ sched res,
      scrape_urls respond sem sched urls = Some res →
      ∃ items, res = Ok items
               ∧ length items = length urls
               ∧ ∀ i, source_url <$> items !! i = urls !! i).
Proof.
  intros [-> Hnn]%service_created Hpos Hshort. split_and!.
  - intros sched.
    destruct (completion CONCURRENCY (run sched (init CONCURRENCY urls)))
      as [sched' [results Hres]]; [|done|].
    { eapply balanced_rtc; [by apply balanced_init|apply run_rtc]. }
    exists sched'. unfold scrape_urls. rewrite run_app, Hres. by eexists.
  - intros n st Hn%remaining_nsteps. rewrite remaining_init in Hn. lia.
  - intros sched res (results & Hw & ->)%scrape_urls_Some.
    destruct (collect_items_short urls results) as [items Hitems];
      [symmetry; by eapply Forall2_length|done|].
    exists items. split; [done|].
    pose proof (collect_items_Ok _ _ _ Hw Hitems) as Hall.
    split; [symmetry; by eapply Forall2_length|].
    intros i. destruct (urls !! i) as [u|] eqn:Hu.
    + destruct (Forall2_lookup_l _ _ _ _ _ Hall Hu) as (it & -> & <- & _).
      done.
    + apply lookup_ge_None in Hu.
      rewrite (Forall2_length _ _ _ Hall) in Hu.
      by rewrite (proj2 (lookup_ge_None items i) Hu).
Qed.

(** One URL above the length limit makes the call raise, whatever its
    siblings did: the item built for it in the final loop is rejected like
    the one built in the task. *)
Lemma scrape_urls_long_url sem sched urls1 u urls2 res :
  Forall (λ u, length u ≤ SOURCE_URL_MAX_LENGTH) urls1 →
  SOURCE_URL_MAX_LENGTH < length u →
  scrape_urls respond sem sched (urls1 ++ u :: urls2) = Some res →
  res = Raise (ValidationError (validation_message u)).
Proof.
  intros Hshort Hlong (results & Hw & ->)%scrape_urls_Some.
  apply Forall2_app_inv_l in Hw as (rs1 & rs' & Hw1 & Hw' & ->).
  apply Forall2_cons_inv_l in Hw' as (r & rs2 & Hr & Hw2 & ->).
  unfold collect_items.
  rewrite zip_with_app by (symmetry; by eapply Forall2_length). simpl.
  destruct (collect_items_short urls1 rs1) as [its Hits];
    [symmetry; by eapply Forall2_length|done|].
  apply foldl_append_item_Ok in Hits as (its' & Hits' & _).
  eapply foldl_append_item_first_Raise; [done|].
  unfold to_item; cbn [fst snd]. destruct Hr as [cl ->].
  destruct (worker_body respond cl u).1 as [item|e] eqn:Hwb.
  - apply worker_body_Ok_short in Hwb. lia.
  - by apply ScrapeItem_new_long.
Qed.

(** Failure isolation for URLs within the length limit: the i-th item is
    what the i-th task returned, or the [error] item built from what it
    raised; no other task enters into it. *)
Lemma scrape_urls_isolates sem sched urls res :
  Forall (λ u, length u ≤ SOURCE_URL_MAX_LENGTH) urls →
  scrape_urls respond sem sched urls = Some res →
  ∃ items, res = Ok items ∧
    Forall2 (λ u it, ∃ cl,
      match (worker_body respond cl u).1 with
      | Ok item => it = item
      | Raise e =>
          it = mkItem u error None
                 (Some (py "internal error: " ++ class_name e
                        ++ py ": " ++ exn_str e))
      end) urls items.
Proof.
  intros Hshort (results & Hw & ->)%scrape_urls_Some.
  destruct (collect_items_short urls results) as [items Hitems];
    [symmetry; by eapply Forall2_length|done|].
  exists items. split; [done|].
  unfold collect_items in Hitems.
  apply foldl_append_item_Ok in Hitems as (its & Hits & ->). cbn [app].
  clear Hshort. revert its Hits.
  induction Hw as [|u r urls results [cl ->] Hw IH]; intros its Hits;
    cbn [zip_with] in Hits.
  - apply Forall2_nil_inv_l in Hits as ->. constructor.
  - apply Forall2_cons_inv_l in Hits as (it & its' & Hit & Hits & ->).
    constructor; [|by apply IH]. exists cl.
    unfold to_item in Hit; cbn [fst snd] in Hit.
    destruct (worker_body respond cl u).1 as [item|e]; [congruence|].
    by apply ScrapeItem_new_Ok in Hit as [-> _].
Qed.

(** C4.  Every [ScrapeItem] of a list returned by [scrape_urls] has exactly
    one of [scraped_text] and [error_message] populated, [scraped_text]
    exactly when [status] is [success] and [error_message] exactly when it
    is [error]. *)
Theorem scrape_urls_items_ok sem sched urls items :
  scrape_urls respond sem sched urls = Some (Ok items) →
  Forall item_ok items.
Proof.
  intros (results & Hw & Hitems)%scrape_urls_Some.
  symmetry in Hitems. pose proof (collect_items_Ok _ _ _ Hw Hitems) as Hall.
  apply Forall_forall. intros it Hit.
  apply list_elem_of_lookup in Hit as [i Hi].
  by destruct (Forall2_lookup_r _ _ _ _ _ Hall Hi) as (u & _ & _ & ?).
Qed.

(** C9.  On a service whose semaphore was created, in every state a run of
    [scrape_urls] can reach the tasks between acquiring and releasing the
    semaphore number at most [Config.CONCURRENCY], and the counter of the
    semaphore is that limit less their number; a task takes a slot only
    when the counter is positive and runs the fetch/extract pipeline only
    from the state in which it holds one, giving it back as it finishes;
    and the state in which as many tasks as there are slots fetch while all
    the others wait for a slot, their delay behind them, can be reached. *)
Theorem semaphore_bounds_pipelines sem urls :
  __init__ = Some sem →
  (∀ st, rtc step (init sem urls) st →
     (Z.of_nat (fetching st) ≤ CONCURRENCY)%Z
     ∧ ScraperService.sem st = (CONCURRENCY - Z.of_nat (fetching st))%Z)
  ∧ (∀ st i st',
       rtc step (init sem urls) st → step_task i st = Some st' →
       (∀ url, tasks st' !! i = Some (url, Fetching) →
          (0 < ScraperService.sem st)%Z
          ∧ ScraperService.sem st' = (ScraperService.sem st - 1)%Z)
       ∧ (∀ url r, tasks st' !! i = Some (url, Done r) →
            tasks st !! i = Some (url, Fetching)
            ∧ r = (worker_body respond (client st) url).1
            ∧ ScraperService.sem st' = (ScraperService.sem st + 1)%Z)
       ∧ (client st' ≠ client st →
            ∃ url, tasks st !! i = Some (url, Fetching)))
  ∧ (∃ st, rtc step (init sem urls) st
           ∧ fetching st = min (length urls) (Z.to_nat CONCURRENCY)
           ∧ waiting st
             = length urls - min (length urls) (Z.to_nat CONCURRENCY)).
Proof.
  intros [-> Hnn]%service_created. split_and!.
  - intros st Hst.
    destruct (balanced_rtc CONCURRENCY _ _ (balanced_init _ urls Hnn) Hst)
      as [Hsem Hsum].
    lia.
  - intros st i st' _ Hstep.
    assert (i < length (tasks st)) as Hlt.
    { unfold ScraperService.step_task in Hstep.
      destruct (tasks st !! i) eqn:Hi; [|done]. by eapply lookup_lt_Some. }
    task_cases step_task_cases Hstep; rewrite Htasks, list_lookup_insert_eq by done;
      (split_and!; [intros u [= <-]|intros u r [= <- <-]|intros Hne]);
      try done; try by eauto.
  - exists (run (wake_all (length urls)) (init CONCURRENCY urls)).
    split; [apply run_rtc|].
    by destruct (run_wake_all CONCURRENCY urls (length urls) Hnn)
      as (_ & ? & ? & _).
Qed.

End loop_facts.

(** ** The fetcher and the extractor *)

Section fetch_facts.

Context `{Config} `{Runtime}.
Variable respond : list str → str → get_outcome.

Lemma described_initial k outcome msg :
  described k outcome msg → head msg = Some (initial k).
Proof.
  destruct k; simpl.
  - by intros ->.
  - by intros ->.
  - by intros (e & _ & ->).
  - by intros (resp & _ & ->).
  - by intros (resp & _ & ->).
Qed.

Lemma fetch_html_unfold client url :
  fetch_html respond client url =
  (match respond client url with
   | TimeoutException =>
       Ok (None, Some (py "timeout after "
                       ++ format_float [] REQUEST_TIMEOUT_S ++ py "s"))
   | InvalidURL => Ok (None, Some (py "invalid URL"))
   | RequestError e =>
       Ok (None, Some (py "request error: " ++ class_name e
                       ++ py ": " ++ exn_str e))
   | OtherError e => Raise e
   | Responded resp =>
       let ctype := lower (default [] (content_type resp)) in
       if (400 <=? status_code resp)%Z then
         Ok (None, Some (py "http " ++ py (pretty (status_code resp))))
       else if negb (contains (py "text/html") ctype)
               && negb (contains (py "application/xhtml+xml") ctype) then
         Ok (None, Some (py "unsupported content-type: "
                         ++ match ctype with
                            | [] => py "unknown"
                            | _ :: _ => ctype
                            end))
       else Ok (Some (text resp), None)
   end, client ++ [url]).
Proof. reflexivity. Qed.

Lemma fetch_html_failure client url k :
  failure_of (respond client url) = Some k →
  ∃ msg, (fetch_html respond client url).1 = Ok (None, Some msg)
         ∧ described k (respond client url) msg.
Proof.
  rewrite fetch_html_unfold. cbn [fst].
  destruct (respond client url) as [| |e|e|resp]; simpl; try done;
    try (intros [= <-]; eexists; split; [done|]; simpl; by eauto).
  unfold indicates_html. rewrite <- negb_orb.
  destruct (decide (400 ≤ status_code resp)%Z) as [Hs|Hs].
  - intros [= <-]. destruct (Z.leb_spec 400 (status_code resp)); [|lia].
    eexists; split; [done|]. simpl. eauto.
  - destruct (Z.leb_spec 400 (status_code resp)); [lia|].
    destruct (_ || _); [done|]. intros [= <-]. simpl.
    eexists; split; [done|]. exists resp. split; [done|].
    by destruct (lower _).
Qed.

Lemma fetch_html_success client url resp :
  respond client url = Responded resp →
  failure_of (Responded resp) = None →
  (fetch_html respond client url).1 = Ok (Some (text resp), None).
Proof.
  rewrite fetch_html_unfold. cbn [fst]. intros ->. simpl.
  unfold indicates_html. rewrite <- negb_orb.
  destruct (decide (400 ≤ status_code resp)%Z) as [Hs|Hs]; [done|].
  destruct (Z.leb_spec 400 (status_code resp)); [lia|].
  by destruct (_ || _).
Qed.


(** C6 (amended).  When the primary strategy raises or yields [None] or
    the empty string, [extract_main_text] turns to readability if it is
    available: its result is then the cleaned text of readability when
    that text is not empty, and [None] when readability is not available,
    raises or yields the empty string; a primary text that is not empty is
    returned cleaned, without the fallback.  For a URL of at most 2000
    characters the worker turns a fetch without error whose extraction
    gave no text ([None], or an empty string) into the [error] item "no
    main content extracted"; for a longer URL the constructor of that item
    raises.  No item with status [success] has an empty [scraped_text]. *)
Theorem extract_main_text_fallback html :
  (trafilatura_extract html ∈ [None; Some None; Some (Some [])] →
     extract_main_text html
     = if HAS_READABILITY then
         match Document_summary html ≫= fromstring_text_content with
         | Some (c :: txt) => Some (tidy (c :: txt))
         | _ => None
         end
       else None)
  ∧ (∀ c txt, trafilatura_extract html = Some (Some (c :: txt)) →
       extract_main_text html = Some (tidy (c :: txt)))
  ∧ (trafilatura_extract html ∈ [None; Some None; Some (Some [])] →
     HAS_READABILITY = false
     ∨ Document_summary html ≫= fromstring_text_content ∈ [None; Some []] →
     extract_main_text html = None)
  ∧ (∀ client url h err,
       (fetch_html respond client url).1 = Ok (h, err) →
       truthy err = false → default [] h = html →
       truthy (extract_main_text html) = false →
       (length url ≤ SOURCE_URL_MAX_LENGTH →
        (worker_body respond client url).1
        = Ok (mkItem url error None
                (Some (py "no main content extracted"))))
       ∧ (SOURCE_URL_MAX_LENGTH < length url →
          (worker_body respond client url).1
          = Raise (ValidationError (validation_message url))))
  ∧ (∀ client url item,
       (worker_body respond client url).1 = Ok item →
       status item = success →
       ∃ c txt, scraped_text item = Some (c :: txt)).
Proof.
  assert (trafilatura_extract html ∈ [None; Some None; Some (Some [])] →
          primary_strategy html = None) as Hprimary.
  { unfold primary_strategy. rewrite !elem_of_cons, elem_of_nil.
    intros [->|[->|[->|[]]]]; done. }
  assert (trafilatura_extract html ∈ [None; Some None; Some (Some [])] →
          extract_main_text html
          = if HAS_READABILITY then
              match Document_summary html ≫= fromstring_text_content with
              | Some (c :: txt) => Some (tidy (c :: txt))
              | _ => None
              end
            else None) as Hfallback.
  { intros Hp%Hprimary. unfold extract_main_text. by rewrite Hp. }
  split_and!.
  - done.
  - intros c txt Hp. unfold extract_main_text, primary_strategy.
    by rewrite Hp.
  - intros Hp Hsec. rewrite (Hfallback Hp).
    destruct Hsec as [->|Hsec]; [done|].
    destruct HAS_READABILITY; [|done].
    revert Hsec. rewrite !elem_of_cons, elem_of_nil.
    intros [->|[->|[]]]; done.
  - intros client url h err Hf Herr <- Hnone.
    assert ((worker_body respond client url).1
            = ScrapeItem_new url error None
                (Some (py "no main content extracted"))) as Hw.
    { rewrite worker_body_unfold, Hf, Herr, Hnone. done. }
    rewrite Hw. split.
    + apply ScrapeItem_new_short.
    + apply ScrapeItem_new_long.
  - intros client url item Hw Hs.
    by apply worker_body_Ok in Hw as (_ & _ & Hnonempty); auto.
Qed.

End fetch_facts.

(** ** The route *)

Section route_facts.

Context `{Config} `{Runtime}.
Variable respond : list str → str → get_outcome.
Variable list_of_set : gset str → list str.
Variable draws : list nat.

Local Abbreviation route := (scrape_resume_links respond list_of_set draws).
Local Abbreviation handler := (parse_and_scrape respond list_of_set draws).

Lemma parse_and_scrape_not_413 sem sched content detail :
  handler sem sched content ≠ Some (HTTPException 413 detail).
Proof.
  unfold parse_and_scrape.
  destruct (extract_pdf_urls _ _ _ _ _) as [[|u urls]|[]]; try done.
  by destruct (scrape_urls _ _ _ _) as [[]|].
Qed.

(** C10.  The size check is a strict comparison: an upload whose size in
    MB equals [MAX_PDF_SIZE_MB] goes on to link discovery, and the route
    answers 413 exactly when the size is strictly greater than the
    maximum. *)
Theorem size_limit_is_strict sem sched content :
  ((size_mb content == MAX_PDF_SIZE_MB)%Q →
   route sem sched content = handler sem sched content)
  ∧ ((∃ detail, route sem sched content = Some (HTTPException 413 detail))
     ↔ (MAX_PDF_SIZE_MB < size_mb content)%Q).
Proof.
  unfold scrape_resume_links. split.
  - intros Heq.
    assert (Qle_bool (size_mb content) MAX_PDF_SIZE_MB = true) as ->; [|done].
    apply Qle_bool_iff. rewrite Heq. apply Qle_refl.
  - destruct (Qle_bool (size_mb content) MAX_PDF_SIZE_MB) eqn:Hle; simpl.
    + apply Qle_bool_iff in Hle. split.
      * intros [detail Hd]. by apply parse_and_scrape_not_413 in Hd.
      * intros Hlt. by apply Qlt_not_le in Hlt.
    + split; [|by eauto]. intros _. apply Qnot_le_lt.
      intros Hle'%Qle_bool_iff. congruence.
Qed.

End route_facts.

(** ** Link discovery *)

Section discovery_facts.

Variable _check_bracketed_host : str → bool.

Local Abbreviation normalize_url := (normalize_url _check_bracketed_host).
Local Abbreviation add_normalized := (add_normalized _check_bracketed_host).
Local Abbreviation discovered := (discovered _check_bracketed_host).
Local Abbreviation usable := (usable _check_bracketed_host).
Local Abbreviation found := (found _check_bracketed_host).

Lemma omap_cons {A B} (f : A → option B) x l :
  omap f (x :: l)
  = match f x with Some y => y :: omap f l | None => omap f l end.
Proof. reflexivity. Qed.

Lemma add_normalized_usable (X : gset str) raw :
  add_normalized X raw
  = match usable raw with Some norm => {[norm]} ∪ X | None => X end.
Proof.
  unfold URLExtractor.add_normalized, usable.
  by destruct (normalize_url raw) as [[|c norm]|].
Qed.

Lemma foldl_add_normalized (X : gset str) raws :
  foldl add_normalized X raws = X ∪ list_to_set (omap usable raws).
Proof.
  revert X. induction raws as [|raw raws IH]; intros X; cbn [foldl].
  - change (omap usable []) with (@nil str).
    by rewrite list_to_set_nil, (right_id_L ∅ (∪)).
  - rewrite IH, add_normalized_usable, omap_cons.
    destruct (usable raw) as [norm|]; [|done].
    rewrite list_to_set_cons, (comm_L (∪) {[norm]} X).
    by rewrite (assoc_L (∪)).
Qed.

Lemma foldl_add_link (X : gset str) links :
  foldl (add_link _check_bracketed_host) X links
  = X ∪ list_to_set (omap usable (omap nonempty links)).
Proof.
  revert X. induction links as [|uri links IH]; intros X; cbn [foldl].
  - change (omap usable (omap nonempty [])) with (@nil str).
    by rewrite list_to_set_nil, (right_id_L ∅ (∪)).
  - rewrite IH, (omap_cons nonempty).
    destruct uri as [[|c u]|]; cbn [add_link nonempty]; try done.
    change (URLExtractor.add_normalized _check_bracketed_host X (c :: u))
      with (add_normalized X (c :: u)).
    rewrite add_normalized_usable, omap_cons.
    destruct (usable (c :: u)) as [norm|]; [|done].
    rewrite list_to_set_cons, (comm_L (∪) {[norm]} X).
    by rewrite (assoc_L (∪)).
Qed.

Lemma scan_page_candidates (X : gset str) page :
  scan_page _check_bracketed_host X page
  = X ∪ list_to_set (omap usable (candidates page)).
Proof.
  unfold scan_page, scan_links, scan_text, candidates.
  rewrite omap_app, list_to_set_app_L.
  destruct (get_links page) as [links|], (get_text page) as [text|];
    rewrite ?foldl_add_link, ?foldl_add_normalized;
    change (omap usable []) with (@nil str);
    rewrite ?list_to_set_nil, ?(left_id_L ∅ (∪)), ?(right_id_L ∅ (∪)),
      ?(assoc_L (∪)); done.
Qed.

Lemma discovered_found pages : discovered pages = list_to_set (found pages).
Proof.
  unfold URLExtractor.discovered, found.
  cut (∀ X : gset str,
          foldl (scan_page _check_bracketed_host) X pages
          = X ∪ list_to_set (omap usable (pages ≫= candidates))).
  { intros ->. by rewrite (left_id_L ∅ (∪)). }
  induction pages as [|page pages IH]; intros X; cbn [foldl].
  - change (omap usable ([] ≫= candidates)) with (@nil str).
    by rewrite list_to_set_nil, (right_id_L ∅ (∪)).
  - rewrite IH, scan_page_candidates.
    change ((page :: pages) ≫= candidates)
      with (candidates page ++ (pages ≫= candidates)).
    by rewrite omap_app, list_to_set_app_L, (assoc_L (∪)).
Qed.

Lemma size_discovered pages :
  size (discovered pages) = length (remove_dups (found pages)).
Proof.
  rewrite discovered_found.
  rewrite <- (size_list_to_set (C:=gset str) (remove_dups (found pages)))
    by apply NoDup_remove_dups.
  f_equal. apply set_eq. intros x.
  by rewrite !elem_of_list_to_set, elem_of_remove_dups.
Qed.

(** *** The shuffle and the slice *)

Lemma insert_Permutation {A} (x : list A) i a b :
  x !! i = Some a → <[i:=b]> x ≡ₚ b :: delete i x.
Proof.
  intros Hi. rewrite insert_take_drop by (by eapply lookup_lt_Some).
  rewrite delete_take_drop. by rewrite Permutation_middle.
Qed.

Lemma swap_Permutation {A} i j (x : list A) : swap i j x ≡ₚ x.
Proof.
  unfold swap. destruct (x !! i) as [a|] eqn:Hi; [|done].
  destruct (x !! j) as [b|] eqn:Hj; [|done].
  destruct (decide (i = j)) as [->|Hne].
  - simplify_eq. rewrite list_insert_insert_eq. by rewrite list_insert_id.
  - assert (<[i:=b]> x !! j = Some b) as Hj'
      by (by rewrite list_lookup_insert_ne).
    etrans; [apply (insert_Permutation _ j b a Hj')|].
    etrans; [|symmetry; apply (delete_Permutation x i a Hi)].
    apply Permutation_skip, (Permutation_cons_inv (a:=b)).
    etrans; [symmetry; apply (delete_Permutation _ j b Hj')|].
    apply (insert_Permutation x i a b Hi).
Qed.

Lemma shuffle_Permutation {A} draws (x : list A) : shuffle draws x ≡ₚ x.
Proof.
  unfold shuffle. generalize (length x - 1). intros i. revert draws x.
  induction i as [|i IH]; intros draws x; simpl; [done|].
  rewrite IH. apply swap_Permutation.
Qed.

Lemma slice_to_sublist {A} k (l : list A) : slice_to k l `sublist_of` l.
Proof. unfold slice_to. destruct (k <? 0)%Z; apply sublist_take. Qed.

Lemma slice_to_length {A} k (l : list A) :
  (0 ≤ k)%Z → length (slice_to k l) = min (Z.to_nat k) (length l).
Proof.
  intros Hk. unfold slice_to. destruct (Z.ltb_spec k 0); [lia|].
  apply length_take.
Qed.

(** *** Variants of a URL with trailing punctuation *)

Lemma rstrip_by_app_all p s t :
  Forall (λ c, p c = true) t → rstrip_by p (s ++ t) = rstrip_by p s.
Proof.
  intros Ht. induction s as [|c s IH]; simpl.
  - induction Ht as [|c t Hc Ht IH]; simpl; [done|]. by rewrite IH, Hc.
  - by rewrite IH.
Qed.

Lemma rstrip_by_fixed_app p s t :
  t ≠ [] → rstrip_by p t = t → rstrip_by p (s ++ t) = s ++ t.
Proof.
  intros Hne Ht. induction s as [|c s IH]; simpl; [done|].
  rewrite IH. destruct (s ++ t) eqn:Hst; [|done].
  by apply app_eq_nil in Hst as [_ ->].
Qed.

Lemma lstrip_by_app p s t :
  lstrip_by p s ≠ [] → lstrip_by p (s ++ t) = lstrip_by p s ++ t.
Proof.
  induction s as [|c s IH]; simpl; [done|]. destruct (p c); auto.
Qed.

Lemma lstrip_by_all p s :
  lstrip_by p s = [] → Forall (λ c, p c = true) s.
Proof.
  induction s as [|c s IH]; simpl; [constructor|].
  destruct (p c) eqn:Hc; [|done]. intros Hs. constructor; auto.
Qed.

Lemma rstrip_by_all p s :
  Forall (λ c, p c = true) s → rstrip_by p s = [].
Proof.
  induction 1 as [|c s Hc _ IH]; simpl; [done|]. by rewrite IH, Hc.
Qed.

Lemma lstrip_by_none p s t :
  Forall (λ c, p c = false) t → lstrip_by p s = [] →
  lstrip_by p (s ++ t) = t.
Proof.
  intros Ht. induction s as [|c s IH]; simpl.
  - intros _. destruct Ht as [|c t Hc _]; simpl; [done|by rewrite Hc].
  - destruct (p c); [auto|done].
Qed.

Lemma punct_not_space c : is_trailing_punct c = true → isspace c = false.
Proof.
  unfold is_trailing_punct, char_in. intros Hc%bool_decide_eq_true.
  repeat (apply elem_of_cons in Hc as [->|Hc]; [done|]).
  by apply elem_of_nil in Hc.
Qed.

Lemma rstrip_by_fixed_lstrip p s :
  rstrip_by p s = s → rstrip_by p (lstrip_by p s) = lstrip_by p s.
Proof.
  induction s as [|c s IH]; simpl; [done|].
  destruct (p c) eqn:Hc.
  - destruct (rstrip_by p s) as [|c' r] eqn:Hr; [done|].
    intros [= Hs]. by apply IH.
  - intros Hs. simpl. by rewrite Hc.
Qed.

Lemma rstrip_space_punct ps :
  ps ≠ [] → Forall (λ c, is_trailing_punct c = true) ps →
  rstrip_by isspace ps = ps.
Proof.
  intros Hne Hps. induction Hps as [|c ps Hc%punct_not_space Hps IH];
    [done|]. simpl. destruct ps as [|c' ps'].
  - simpl. by rewrite Hc.
  - rewrite IH by done. done.
Qed.

Lemma strip_trailing_punct_variant raw ps :
  rstrip_by isspace raw = raw →
  Forall (λ c, is_trailing_punct c = true) ps →
  _strip_trailing_punct (strip (raw ++ ps))
  = _strip_trailing_punct (strip raw).
Proof.
  intros Hraw Hps. destruct ps as [|c ps]; [by rewrite app_nil_r|].
  pose proof (rstrip_space_punct (c :: ps) ltac:(done) Hps) as Hfix.
  unfold strip, _strip_trailing_punct.
  rewrite (rstrip_by_fixed_lstrip isspace raw Hraw).
  destruct (lstrip_by isspace raw) as [|c' s] eqn:Hl.
  - apply lstrip_by_all in Hl as Hall.
    rewrite (lstrip_by_none isspace raw (c :: ps)); [|  |done].
    + rewrite Hfix. by rewrite (rstrip_by_all _ (c :: ps)).
    + eapply Forall_impl; [exact Hps|]. intros x. apply punct_not_space.
  - rewrite lstrip_by_app by (by rewrite Hl). rewrite Hl.
    rewrite rstrip_by_fixed_app by done.
    by rewrite rstrip_by_app_all.
Qed.

(** A string that does not end in white space normalizes like any of its
    variants with trailing punctuation. *)
Lemma normalize_url_trailing_punct raw ps :
  rstrip_by isspace raw = raw →
  Forall (λ c, is_trailing_punct c = true) ps →
  normalize_url (raw ++ ps) = normalize_url raw.
Proof.
  intros Hraw Hps. unfold URLExtractor.normalize_url, prepare.
  by rewrite strip_trailing_punct_variant.
Qed.

End discovery_facts.

Section discovery_theorem.

Variable _check_bracketed_host : str → bool.
Variable list_of_set : gset str → list str.
Variable draws : list nat.

(** Whatever the order, [list(urls)] lists the elements of the set once
    each. *)
Hypothesis list_of_set_enumerates : ∀ X, list_of_set X ≡ₚ elements X.

(** C3 (amended).  For every document and every cap [k ≥ 0],
    [extract_pdf_urls] returns a duplicate-free sequence of normalized URLs
    found in the document whose length is the minimum of [k] and the number
    of distinct normalized URLs found; a string without trailing white
    space and its variants with trailing punctuation have the same normal
    form, hence one entry between them. *)
Theorem discovery_dedup_cap pages k :
  (0 ≤ k)%Z →
  ∃ urls,
    extract_pdf_urls _check_bracketed_host list_of_set draws
      (Document pages) k = Ok urls
    ∧ NoDup urls
    ∧ (∀ u, u ∈ urls → u ∈ found _check_bracketed_host pages)
    ∧ length urls
      = min (Z.to_nat k)
          (length (remove_dups (found _check_bracketed_host pages)))
    ∧ (∀ raw ps u,
         rstrip_by isspace raw = raw →
         Forall (λ c, is_trailing_punct c = true) ps →
         usable _check_bracketed_host raw = Some u →
         usable _check_bracketed_host (raw ++ ps) = Some u).
Proof.
  intros Hk. set (X := discovered _check_bracketed_host pages).
  exists (slice_to k (shuffle draws (list_of_set X))). split; [done|].
  assert (shuffle draws (list_of_set X) ≡ₚ elements X) as Hperm.
  { by rewrite shuffle_Permutation. }
  split_and!.
  - eapply sublist_NoDup; [|apply slice_to_sublist].
    rewrite Hperm. apply NoDup_elements.
  - intros u Hu.
    eapply elem_of_sublist in Hu; [|apply slice_to_sublist].
    rewrite Hperm in Hu. apply elem_of_elements in Hu.
    unfold X in Hu. rewrite discovered_found in Hu.
    by apply elem_of_list_to_set in Hu.
  - rewrite slice_to_length by done. rewrite Hperm.
    by rewrite <- size_discovered.
  - intros raw ps u Hraw Hps. unfold usable.
    by rewrite normalize_url_trailing_punct.
Qed.

End discovery_theorem.

(** ** The normalizer *)

Section string_facts.

Implicit Types (s t : str) (c : ascii) (p : ascii → bool).

Lemma lstrip_by_app_stop p s c t :
  p c = false → lstrip_by p (s ++ c :: t) = lstrip_by p s ++ c :: t.
Proof.
  intros Hc. induction s as [|x s IH]; simpl; [by rewrite Hc|].
  by destruct (p x).
Qed.

Lemma rstrip_by_app_stop p s c t :
  p c = false → rstrip_by p (s ++ c :: t) = s ++ c :: rstrip_by p t.
Proof.
  intros Hc. induction s as [|x s IH]; simpl.
  - destruct (rstrip_by p t); [by rewrite Hc|done].
  - rewrite IH. by destruct s.
Qed.

Lemma lstrip_by_suffix p s : ∃ a, s = a ++ lstrip_by p s.
Proof.
  induction s as [|x s [a IH]]; simpl; [by exists []|].
  destruct (p x); [|by exists []]. exists (x :: a). simpl. by f_equal.
Qed.

Lemma rstrip_by_fixed_suffix p a t :
  rstrip_by p (a ++ t) = a ++ t → rstrip_by p t = t.
Proof.
  induction a as [|x a IH]; simpl; [done|].
  destruct (rstrip_by p (a ++ t)) as [|y r] eqn:Hr.
  - destruct (p x); [done|]. intros [= Hat]. apply IH. by rewrite <- Hat.
  - intros [= Hat]. apply IH. done.
Qed.

Lemma elem_of_lstrip_by p s x : x ∈ lstrip_by p s → x ∈ s.
Proof.
  destruct (lstrip_by_suffix p s) as [a Ha]. intros Hx.
  rewrite Ha. apply elem_of_app. by right.
Qed.

Lemma remove_char_app c s t :
  remove_char c (s ++ t) = remove_char c s ++ remove_char c t.
Proof. apply List.filter_app. Qed.

Lemma remove_char_cons_ne c x s :
  x ≠ c → remove_char c (x :: s) = x :: remove_char c s.
Proof.
  intros Hne. unfold remove_char. simpl.
  by rewrite bool_decide_eq_false_2.
Qed.

Lemma elem_of_remove_char c s x : x ∈ remove_char c s ↔ x ∈ s ∧ x ≠ c.
Proof.
  unfold remove_char. rewrite !list_elem_of_In, List.filter_In.
  rewrite negb_true_iff, bool_decide_eq_false. done.
Qed.

Lemma remove_unsafe_app s t :
  remove_unsafe (s ++ t) = remove_unsafe s ++ remove_unsafe t.
Proof.
  unfold remove_unsafe, _UNSAFE_URL_BYTES_TO_REMOVE. cbn [foldl].
  by rewrite !remove_char_app.
Qed.

Lemma elem_of_remove_unsafe s x :
  x ∈ remove_unsafe s ↔ x ∈ s ∧ x ∉ _UNSAFE_URL_BYTES_TO_REMOVE.
Proof.
  unfold remove_unsafe, _UNSAFE_URL_BYTES_TO_REMOVE. cbn [foldl].
  rewrite !elem_of_remove_char, !not_elem_of_cons.
  pose proof (not_elem_of_nil x). tauto.
Qed.

Lemma remove_unsafe_cons_safe x s :
  x ∉ _UNSAFE_URL_BYTES_TO_REMOVE →
  remove_unsafe (x :: s) = x :: remove_unsafe s.
Proof.
  unfold remove_unsafe, _UNSAFE_URL_BYTES_TO_REMOVE. cbn [foldl].
  rewrite !not_elem_of_cons. intros (? & ? & ? & _).
  by rewrite !remove_char_cons_ne.
Qed.

Lemma remove_unsafe_id s :
  Forall (λ x, x ∉ _UNSAFE_URL_BYTES_TO_REMOVE) s → remove_unsafe s = s.
Proof.
  induction 1 as [|x s Hx _ IH]; [done|].
  by rewrite remove_unsafe_cons_safe, IH.
Qed.

Lemma cut_Some c s a b :
  cut c s = Some (a, b) ↔ s = a ++ c :: b ∧ c ∉ a.
Proof.
  revert a b. induction s as [|x s IH]; intros a b; simpl.
  - split; [done|]. intros [Hs _]. by destruct a.
  - destruct (decide (x = c)) as [->|Hne].
    + split.
      * intros [= <- <-]. split; [done|]. apply not_elem_of_nil.
      * intros [Hs Hc]. destruct a as [|y a]; simplify_eq/=; [done|].
        by apply not_elem_of_cons in Hc as [? _].
    + destruct (cut c s) as [[a' b']|] eqn:Hcut.
      * split.
        -- intros [= <- <-].
           destruct (proj1 (IH a' b') eq_refl) as [-> Hc].
           split; [done|]. by apply not_elem_of_cons.
        -- intros [Hs Hc]. destruct a as [|y a]; simplify_eq/=.
           apply not_elem_of_cons in Hc as [_ Hc].
           by assert (Some (a', b') = Some (a, b)) as [= -> ->]
             by (by apply IH).
      * split; [done|]. intros [Hs Hc].
        destruct a as [|y a]; simplify_eq/=.
        apply not_elem_of_cons in Hc as [_ Hc].
        by assert (None = Some (a, b)) by (by apply IH).
Qed.

Lemma cut_None c s : cut c s = None ↔ c ∉ s.
Proof.
  induction s as [|x s IH]; simpl.
  - split; [intros _; apply not_elem_of_nil|done].
  - rewrite not_elem_of_cons. destruct (decide (x = c)) as [->|Hne].
    + split; [done|]. by intros [? _].
    + destruct (cut c s) as [[a b]|].
      * split; [done|]. intros [_ Hc]. by apply IH in Hc.
      * split; [|done]. intros _. split; [done|]. by apply IH.
Qed.

Lemma cut_app c a b : c ∉ a → cut c (a ++ c :: b) = Some (a, b).
Proof. intros Hc. by apply cut_Some. Qed.

Lemma split_off_app c a b : c ∉ a → split_off c (a ++ c :: b) = (a, b).
Proof. intros Hc. unfold split_off. by rewrite cut_app. Qed.

Lemma split_off_absent c s : c ∉ s → split_off c s = (s, []).
Proof.
  intros Hc. unfold split_off. by rewrite (proj2 (cut_None c s) Hc).
Qed.

Lemma split_off_spec c s :
  (c ∉ fst (split_off c s))
  ∧ (∀ x, x ∈ fst (split_off c s) ++ snd (split_off c s) → x ∈ s).
Proof.
  unfold split_off. destruct (cut c s) as [[a b]|] eqn:Hcut; simpl.
  - apply cut_Some in Hcut as [-> Hc]. split; [done|].
    intros x. rewrite !elem_of_app, elem_of_cons. tauto.
  - apply cut_None in Hcut. split; [done|]. intros x.
    by rewrite app_nil_r.
Qed.

Lemma span_until_app_stop p s c t :
  p c = true →
  span_until p (s ++ c :: t)
  = ((span_until p s).1, (span_until p s).2 ++ c :: t).
Proof.
  intros Hc. induction s as [|x s IH]; simpl; [by rewrite Hc|].
  destruct (p x); [done|]. rewrite IH. by destruct (span_until p s).
Qed.

Lemma span_until_spec p s :
  s = (span_until p s).1 ++ (span_until p s).2
  ∧ Forall (λ c, p c = false) (span_until p s).1
  ∧ match (span_until p s).2 with
    | [] => True
    | c :: _ => p c = true
    end.
Proof.
  induction s as [|x s (IH1 & IH2 & IH3)]; simpl; [by auto|].
  destruct (p x) eqn:Hx; simpl; [by auto|].
  destruct (span_until p s) as [a b]; simpl in *.
  split_and!; [by f_equal|by constructor|done].
Qed.

Lemma span_until_all p s t :
  Forall (λ c, p c = false) s →
  match t with [] => True | c :: _ => p c = true end →
  span_until p (s ++ t) = (s, t).
Proof.
  intros Hs Ht. induction Hs as [|x s Hx _ IH]; simpl.
  - destruct t as [|c t]; [done|]. simpl. by rewrite Ht.
  - by rewrite Hx, IH.
Qed.

Lemma startswith_nil s : startswith [] s = true.
Proof. unfold startswith. by destruct s. Qed.

Lemma startswith_cons_nil x lit : startswith (x :: lit) [] = false.
Proof. done. Qed.

Lemma startswith_cons_cons x lit y s :
  startswith (x :: lit) (y :: s) = bool_decide (y = x) && startswith lit s.
Proof.
  unfold startswith. simpl.
  destruct (decide (y = x)) as [->|Hne].
  - rewrite (bool_decide_eq_true_2 (x = x)) by done. simpl.
    apply bool_decide_ext. split; [by intros [=]|by intros ->].
  - rewrite (bool_decide_eq_false_2 (y = x)) by done. simpl.
    apply bool_decide_eq_false_2. by intros [=].
Qed.

Lemma startswith_app_stop lit s c t :
  c ∉ lit → startswith lit (s ++ c :: t) = startswith lit s.
Proof.
  revert s. induction lit as [|x lit IH]; intros s Hc.
  - by rewrite !startswith_nil.
  - apply not_elem_of_cons in Hc as [Hne Hc].
    destruct s as [|y s]; simpl.
    + rewrite startswith_cons_cons, startswith_cons_nil.
      by rewrite bool_decide_eq_false_2.
    + rewrite !startswith_cons_cons. by rewrite IH.
Qed.

Lemma startswith_app lit s : startswith lit (lit ++ s) = true.
Proof.
  induction lit as [|x lit IH]; simpl; [apply startswith_nil|].
  rewrite startswith_cons_cons, IH. by rewrite bool_decide_eq_true_2.
Qed.

End string_facts.

Section urlsplit_facts.

Variable _check_bracketed_host : str → bool.

Local Abbreviation urlsplit := (urlsplit _check_bracketed_host).
Local Abbreviation split_netloc := (split_netloc _check_bracketed_host).
Local Abbreviation netloc_raises := (netloc_raises _check_bracketed_host).
Local Abbreviation normalize_url := (normalize_url _check_bracketed_host).

Lemma urlsplit_unfold url :
  urlsplit url =
  let url2 := remove_unsafe (lstrip_by is_c0_or_space url) in
  match split_netloc (split_scheme url2).2 with
  | None => None
  | Some (netloc, rest) =>
      Some (mkSplit (split_scheme url2).1 netloc
              (split_off "?" (split_off "#" rest).1).1
              (split_off "?" (split_off "#" rest).1).2
              (split_off "#" rest).2)
  end.
Proof.
  unfold UrlParse.urlsplit. cbv zeta.
  destruct (split_scheme _) as [sch rest]. cbn [fst snd mbind option_bind].
  destruct (split_netloc rest) as [[netloc rest']|]; [|done].
  cbn. destruct (split_off "#" rest') as [u frag]. cbn [fst snd].
  by destruct (split_off "?" u).
Qed.

Lemma cut_app_absent c a t :
  c ∉ a → cut c (a ++ t) = (λ xy, (a ++ xy.1, xy.2)) <$> cut c t.
Proof.
  induction a as [|x a IH]; intros Hc; simpl.
  - by destruct (cut c t) as [[]|].
  - apply not_elem_of_cons in Hc as [Hne Hc].
    destruct (decide (x = c)); [congruence|]. rewrite IH by done.
    by destruct (cut c t) as [[]|].
Qed.

Lemma split_scheme_rest url x :
  x ∈ (split_scheme url).2 → x ∈ url.
Proof.
  unfold split_scheme. destruct (cut ":" url) as [[[|c pre] post]|] eqn:Hcut;
    try done.
  apply cut_Some in Hcut as [-> _].
  destruct (_ && _); [|done]. simpl. intros Hx.
  rewrite elem_of_cons, elem_of_app, elem_of_cons. tauto.
Qed.

Lemma split_scheme_fragment P g :
  "#"%char ∉ P →
  split_scheme (P ++ "#"%char :: g)
  = ((split_scheme P).1, (split_scheme P).2 ++ "#"%char :: g).
Proof.
  intros HP. unfold split_scheme.
  destruct (cut ":" P) as [[pre post]|] eqn:Hcut.
  - apply cut_Some in Hcut as [-> Hpre].
    rewrite <- app_assoc. cbn [app]. rewrite cut_app by done.
    destruct pre as [|c pre]; [done|].
    destruct (_ && _); cbn [fst snd]; [done|]. by rewrite <- app_assoc.
  - apply cut_None in Hcut. rewrite cut_app_absent by done. cbn [cut].
    destruct (decide ("#"%char = ":"%char)) as [|_]; [done|].
    destruct (cut ":" g) as [[x y]|]; cbn; [|done].
    destruct (P ++ "#"%char :: x) as [|c pre] eqn:Hpre; [done|].
    assert (forallb is_scheme_char (c :: pre) = false) as Hall.
    { rewrite <- Hpre, forallb_app. simpl. apply andb_false_r. }
    cbn [forallb] in Hall. by rewrite Hall, andb_false_r.
Qed.

Lemma startswith_true lit s :
  startswith lit s = true → s = lit ++ drop (length lit) s.
Proof.
  unfold startswith. intros Hs%bool_decide_eq_true.
  rewrite <- Hs at 1. by rewrite take_drop.
Qed.

Lemma split_netloc_fragment R g :
  "#"%char ∉ R →
  split_netloc (R ++ "#"%char :: g)
  = (λ nr, (nr.1, nr.2 ++ "#"%char :: g)) <$> split_netloc R.
Proof.
  intros HR. unfold UrlParse.split_netloc.
  rewrite startswith_app_stop by by_evaluation.
  destruct (startswith (py "//") R) eqn:Hs; [|done].
  apply startswith_true in Hs. set (R' := drop (length (py "//")) R) in Hs.
  rewrite Hs. unfold _splitnetloc. cbn [py list_ascii_of_string app drop].
  rewrite !drop_0, span_until_app_stop by done.
  destruct (span_until is_netloc_delim _) as [n rest]. cbn [fst snd].
  by destruct (netloc_raises n).
Qed.

Lemma split_netloc_rest url n rest x :
  split_netloc url = Some (n, rest) → x ∈ n ++ rest → x ∈ url.
Proof.
  unfold UrlParse.split_netloc.
  destruct (startswith (py "//") url) eqn:Hs.
  - apply startswith_true in Hs. unfold _splitnetloc.
    pose proof (span_until_spec is_netloc_delim (drop 2 url)) as (Hsp & _ & _).
    destruct (span_until _ _) as [n' rest']; cbn [fst snd] in Hsp.
    destruct (netloc_raises n'); [done|]. intros [= <- <-] Hx.
    rewrite Hs. apply elem_of_app. right.
    change (length (py "//")) with 2. by rewrite Hsp.
  - intros [= <- <-]. done.
Qed.

(** A fragment only reaches the fragment field of the parsed URL. *)
Lemma urlsplit_fragment P g :
  "#"%char ∉ P →
  urlsplit (P ++ "#"%char :: g)
  = (λ parts, _replace_fragment parts (remove_unsafe g)) <$> urlsplit P.
Proof.
  intros HP. rewrite !urlsplit_unfold. cbv zeta.
  rewrite lstrip_by_app_stop by done.
  rewrite remove_unsafe_app.
  rewrite remove_unsafe_cons_safe by by_evaluation.
  set (P2 := remove_unsafe (lstrip_by is_c0_or_space P)).
  assert ("#"%char ∉ P2) as HP2.
  { intros [Hin _]%elem_of_remove_unsafe. by apply elem_of_lstrip_by in Hin. }
  rewrite split_scheme_fragment by done. cbn [fst snd].
  assert ("#"%char ∉ (split_scheme P2).2) as HR.
  { intros Hin. by apply split_scheme_rest in Hin. }
  rewrite split_netloc_fragment by done.
  destruct (split_netloc (split_scheme P2).2) as [[n rest]|] eqn:Hn; [|done].
  cbn [fmap option_fmap option_map fst snd].
  assert ("#"%char ∉ rest) as Hrest.
  { intros Hin. apply HR. eapply split_netloc_rest; [done|].
    apply elem_of_app. by right. }
  rewrite split_off_app by done. rewrite (split_off_absent "#" rest) by done.
  done.
Qed.

Lemma normalize_fragment_core P g :
  "#"%char ∉ P →
  urlsplit (P ++ "#"%char :: g) ≫= accept = urlsplit P ≫= accept.
Proof.
  intros HP. rewrite urlsplit_fragment by done.
  by destruct (urlsplit P).
Qed.

Lemma prepare_fragment base f :
  ∃ f', prepare (base ++ "#"%char :: f)
        = www_prefixed (lstrip_by isspace base) ++ "#"%char :: f'.
Proof.
  exists (_strip_trailing_punct (rstrip_by isspace f)).
  unfold prepare, strip, _strip_trailing_punct.
  rewrite lstrip_by_app_stop by done.
  rewrite !rstrip_by_app_stop by done.
  unfold www_prefixed, lower. rewrite map_app. cbn [map].
  change (lower_char "#") with "#"%char.
  rewrite startswith_app_stop by by_evaluation.
  by destruct (startswith _ _).
Qed.

Lemma prepare_clean base :
  ends_clean base → prepare base = www_prefixed (lstrip_by isspace base).
Proof.
  intros [Hsp Hpu]. unfold prepare, strip, _strip_trailing_punct in *.
  destruct (lstrip_by_suffix isspace base) as [a Ha].
  rewrite Ha in Hsp, Hpu.
  apply rstrip_by_fixed_suffix in Hsp, Hpu. by rewrite Hsp, Hpu.
Qed.

Lemma www_prefixed_no_fragment raw :
  "#"%char ∉ raw → "#"%char ∉ www_prefixed raw.
Proof.
  unfold www_prefixed. destruct (startswith _ _); [|done].
  intros Hraw [Hin|Hin]%elem_of_app; [|done].
  revert Hin. by_evaluation.
Qed.

Lemma normalize_url_bind raw :
  normalize_url raw = urlsplit (prepare raw) ≫= accept.
Proof. done. Qed.

Lemma normalize_url_same_fragment base f1 f2 :
  "#"%char ∉ base →
  normalize_url (base ++ "#"%char :: f1)
  = normalize_url (base ++ "#"%char :: f2).
Proof.
  intros Hbase. rewrite !normalize_url_bind.
  destruct (prepare_fragment base f1) as [f1' ->].
  destruct (prepare_fragment base f2) as [f2' ->].
  assert ("#"%char ∉ www_prefixed (lstrip_by isspace base)) as HP.
  { apply www_prefixed_no_fragment. intros Hin.
    by apply elem_of_lstrip_by in Hin. }
  by rewrite !normalize_fragment_core.
Qed.

Lemma normalize_url_drop_fragment base f :
  "#"%char ∉ base → ends_clean base →
  normalize_url (base ++ "#"%char :: f) = normalize_url base.
Proof.
  intros Hbase Hclean. rewrite !normalize_url_bind.
  destruct (prepare_fragment base f) as [f' ->].
  rewrite prepare_clean by done.
  apply normalize_fragment_core, www_prefixed_no_fragment.
  intros Hin. by apply elem_of_lstrip_by in Hin.
Qed.

(** *** What [urlsplit] hands to [urlunsplit] *)

Lemma is_netloc_delim_true c :
  is_netloc_delim c = true → c = "/"%char ∨ c = "?"%char ∨ c = "#"%char.
Proof.
  unfold is_netloc_delim, char_in. intros Hc%bool_decide_eq_true.
  cbn in Hc. rewrite !elem_of_cons, elem_of_nil in Hc. tauto.
Qed.

Lemma split_netloc_Some url n rest :
  split_netloc url = Some (n, rest) → n ≠ [] →
  url = py "//" ++ n ++ rest
  ∧ Forall (λ c, is_netloc_delim c = false) n
  ∧ match rest with [] => True | c :: _ => is_netloc_delim c = true end
  ∧ netloc_raises n = false.
Proof.
  unfold UrlParse.split_netloc.
  destruct (startswith (py "//") url) eqn:Hs; [|by intros [= <- <-]].
  apply startswith_true in Hs. unfold _splitnetloc.
  change (length (py "//")) with 2 in Hs.
  pose proof (span_until_spec is_netloc_delim (drop 2 url))
    as (Hsp & Hn & Hrest).
  destruct (span_until _ _) as [n' rest']; cbn [fst snd] in *.
  destruct (netloc_raises n') eqn:Hraise; [done|].
  intros [= <- <-] _. split_and!; try done. by rewrite <- Hsp.
Qed.

Lemma split_off_cons c x s :
  split_off c (x :: s)
  = if decide (x = c) then ([], s)
    else (x :: (split_off c s).1, (split_off c s).2).
Proof.
  unfold split_off. simpl. destruct (decide (x = c)); [done|].
  by destruct (cut c s) as [[]|].
Qed.

Lemma path_of_rest rest :
  match rest with [] => True | c :: _ => is_netloc_delim c = true end →
  (split_off "?" (split_off "#" rest).1).1 = []
  ∨ ∃ p, (split_off "?" (split_off "#" rest).1).1 = "/"%char :: p.
Proof.
  destruct rest as [|c rest]; [by left|].
  intros [-> | [-> | ->]]%is_netloc_delim_true; rewrite split_off_cons;
    case_decide; try done; cbn [fst snd].
  - rewrite split_off_cons. case_decide; [done|]. right. eauto.
  - rewrite split_off_cons. case_decide; [|done]. by left.
  - by left.
Qed.

Lemma urlsplit_parts url parts :
  urlsplit url = Some parts → netloc parts ≠ [] →
  Forall safe (netloc parts ++ path parts ++ query parts)
  ∧ Forall (λ c, is_netloc_delim c = false) (netloc parts)
  ∧ netloc_raises (netloc parts) = false
  ∧ ("#"%char ∉ path parts) ∧ ("?"%char ∉ path parts)
  ∧ ("#"%char ∉ query parts)
  ∧ (path parts = [] ∨ ∃ p, path parts = "/"%char :: p).
Proof.
  rewrite urlsplit_unfold. cbv zeta.
  set (url2 := remove_unsafe (lstrip_by is_c0_or_space url)).
  destruct (split_netloc (split_scheme url2).2) as [[n rest]|] eqn:Hn;
    [|done].
  intros [= <-]. cbn [netloc path query]. intros Hne.
  pose proof (split_netloc_Some _ _ _ Hn Hne) as (_ & Hdelim & Hrest & Hraise).
  pose proof (split_off_spec "#" rest) as [Hfrag Hsub1].
  pose proof (split_off_spec "?" (fst (split_off "#" rest))) as [Hq Hsub2].
  assert (∀ x, x ∈ n ++ (split_off "?" (split_off "#" rest).1).1
                     ++ (split_off "?" (split_off "#" rest).1).2 →
               x ∈ n ++ rest) as Hsub.
  { intros x [Hx|Hx]%elem_of_app; apply elem_of_app; [by left|right].
    apply Hsub1, elem_of_app. left. by apply Hsub2. }
  split_and!; try done.
  - apply Forall_forall. intros x Hx%Hsub.
    eapply split_netloc_rest in Hx; [|done].
    apply split_scheme_rest in Hx.
    by apply elem_of_remove_unsafe in Hx as [_ Hx].
  - intros Hin. apply Hfrag, Hsub2, elem_of_app. by left.
  - intros Hin. apply Hfrag, Hsub2, elem_of_app. by right.
  - by apply path_of_rest.
Qed.

Lemma urlunsplit_with_netloc sch n pth qry :
  sch ≠ [] → n ≠ [] →
  pth = [] ∨ (∃ p, pth = "/"%char :: p) →
  urlunsplit (mkSplit sch n pth qry [])
  = sch ++ py ":" ++ py "//" ++ n ++ pth ++ query_suffix qry.
Proof.
  intros Hsch Hn Hpath. unfold urlunsplit. cbn [scheme netloc path query fragment].
  rewrite (bool_decide_eq_true_2 (n ≠ [])) by done. cbn [orb].
  rewrite (bool_decide_eq_true_2 (sch ≠ [])) by done.
  rewrite (bool_decide_eq_false_2 ([] ≠ [])) by (by intros []).
  assert ((if bool_decide (pth ≠ [])
              && negb (bool_decide (take 1 pth = py "/"))
           then py "/" ++ pth else pth) = pth) as ->.
  { destruct Hpath as [-> | [p ->]]; [done|].
    rewrite (bool_decide_eq_true_2 (take 1 (_ :: p) = _)); [|done].
    by rewrite andb_false_r. }
  destruct qry as [|c q]; cbn [query_suffix].
  - rewrite (bool_decide_eq_false_2 ([] ≠ [])) by (by intros []).
    by rewrite !app_nil_r.
  - rewrite (bool_decide_eq_true_2 (c :: q ≠ [])) by done.
    by rewrite <- !app_assoc.
Qed.

Lemma scheme_prefix sch r :
  sch ∈ [py "http"; py "https"] →
  lstrip_by is_c0_or_space (sch ++ r) = sch ++ r
  ∧ lstrip_by isspace (sch ++ r) = sch ++ r
  ∧ split_scheme (sch ++ py ":" ++ r) = (sch, r)
  ∧ Forall safe (sch ++ py ":" ++ py "//")
  ∧ www_prefixed (sch ++ r) = sch ++ r
  ∧ sch ≠ [].
Proof.
  rewrite !elem_of_cons, elem_of_nil.
  intros [-> | [-> | []]]; split_and!; try reflexivity; try done;
    repeat (constructor; [by_evaluation|]); constructor.
Qed.

(** Parsing what [urlunsplit] assembled from an accepted URL gives the
    same components back. *)
Lemma urlsplit_urlunsplit sch n pth qry :
  sch ∈ [py "http"; py "https"] →
  Forall safe (n ++ pth ++ qry) →
  Forall (λ c, is_netloc_delim c = false) n →
  netloc_raises n = false →
  "#"%char ∉ pth → "?"%char ∉ pth → "#"%char ∉ qry →
  pth = [] ∨ (∃ p, pth = "/"%char :: p) →
  urlsplit (sch ++ py ":" ++ py "//" ++ n ++ pth ++ query_suffix qry)
  = Some (mkSplit sch n pth qry []).
Proof.
  intros Hsch Hsafe Hdelim Hraise Hp1 Hp2 Hq Hpath.
  assert (Forall safe (n ++ pth ++ query_suffix qry)) as Hsafe'.
  { rewrite !Forall_app in Hsafe |- *. destruct Hsafe as (? & ? & ?).
    split_and!; try done. destruct qry; [done|].
    cbn. constructor; [by_evaluation|done]. }
  assert (split_netloc (py "//" ++ n ++ pth ++ query_suffix qry)
          = Some (n, pth ++ query_suffix qry)) as Hnet.
  { unfold UrlParse.split_netloc. rewrite startswith_app.
    unfold _splitnetloc. cbn [py list_ascii_of_string app drop].
    rewrite drop_0, span_until_all; [by rewrite Hraise|done|].
    destruct Hpath as [-> | [p ->]]; [|done].
    by destruct qry. }
  assert (split_off "#" (pth ++ query_suffix qry)
          = (pth ++ query_suffix qry, [])) as Hfrag.
  { apply split_off_absent. rewrite not_elem_of_app. split; [done|].
    destruct qry as [|c q]; [apply not_elem_of_nil|]. cbn.
    apply not_elem_of_cons. split; [done|]. done. }
  assert (split_off "?" (pth ++ query_suffix qry) = (pth, qry)) as Hqs.
  { destruct qry as [|c q]; cbn [query_suffix].
    - rewrite app_nil_r. by apply split_off_absent.
    - cbn [py list_ascii_of_string app]. by apply split_off_app. }
  rewrite urlsplit_unfold. cbv zeta.
  destruct (scheme_prefix sch
              (py ":" ++ py "//" ++ n ++ pth ++ query_suffix qry) Hsch)
    as (-> & _ & _ & Hpre & _ & _).
  destruct (scheme_prefix sch
              (py "//" ++ n ++ pth ++ query_suffix qry) Hsch)
    as (_ & _ & Hscheme & _ & _ & _).
  rewrite remove_unsafe_id.
  2:{ assert (sch ++ py ":" ++ py "//" ++ n ++ pth ++ query_suffix qry
              = (sch ++ py ":" ++ py "//") ++ n ++ pth ++ query_suffix qry)
        as -> by (by rewrite <- !app_assoc).
      by apply Forall_app. }
  rewrite Hscheme. cbn [fst snd]. rewrite Hnet, Hfrag. cbn [fst snd].
  by rewrite Hqs.
Qed.

Lemma accept_Some parts u :
  accept parts = Some u →
  scheme parts ∈ [py "http"; py "https"] ∧ netloc parts ≠ []
  ∧ u = urlunsplit (_replace_fragment parts []).
Proof.
  unfold accept.
  destruct (decide (scheme parts ∈ [py "http"; py "https"])) as [Hs|Hs].
  - rewrite (bool_decide_eq_true_2 _ Hs). cbn [negb].
    destruct (decide (netloc parts = [])) as [Hn|Hn].
    + by rewrite (bool_decide_eq_true_2 _ Hn).
    + rewrite (bool_decide_eq_false_2 _ Hn). by intros [= <-].
  - by rewrite (bool_decide_eq_false_2 _ Hs).
Qed.

Lemma prepare_canonical sch rest :
  sch ∈ [py "http"; py "https"] → ends_clean (sch ++ rest) →
  prepare (sch ++ rest) = sch ++ rest.
Proof.
  intros Hsch Hclean. rewrite prepare_clean by done.
  destruct (scheme_prefix sch rest Hsch) as (_ & -> & _ & _ & -> & _).
  done.
Qed.

(** What an accepted URL looks like. *)
Lemma normalize_url_Some raw u :
  normalize_url raw = Some u →
  ∃ parts,
    urlsplit (prepare raw) = Some parts
    ∧ scheme parts ∈ [py "http"; py "https"] ∧ netloc parts ≠ []
    ∧ u = urlunsplit (_replace_fragment parts [])
    ∧ u = scheme parts ++ py ":" ++ py "//" ++ netloc parts
          ++ path parts ++ query_suffix (query parts).
Proof.
  unfold URLExtractor.normalize_url.
  destruct (urlsplit (prepare raw)) as [parts|] eqn:Hsplit; [|done].
  intros (Hsch & Hn & ->)%accept_Some. exists parts.
  split_and!; try done.
  pose proof (urlsplit_parts _ _ Hsplit Hn) as (_ & _ & _ & _ & _ & _ & Hpath).
  unfold _replace_fragment. apply urlunsplit_with_netloc; try done.
  by destruct (scheme_prefix (scheme parts) [] Hsch) as (_ & _ & _ & _ & _ & ?).
Qed.

Lemma accept_None parts :
  accept parts = None ↔
  scheme parts ∉ [py "http"; py "https"] ∨ netloc parts = [].
Proof.
  unfold accept.
  destruct (decide (scheme parts ∈ [py "http"; py "https"])) as [Hs|Hs].
  - rewrite (bool_decide_eq_true_2 _ Hs). cbn [negb].
    destruct (decide (netloc parts = [])) as [Hn|Hn].
    + rewrite (bool_decide_eq_true_2 _ Hn). split; [by right|done].
    + rewrite (bool_decide_eq_false_2 _ Hn). split; [done|tauto].
  - rewrite (bool_decide_eq_false_2 _ Hs). split; [by left|done].
Qed.

Lemma normalize_url_no_fragment raw u :
  normalize_url raw = Some u → "#"%char ∉ u.
Proof.
  intros (parts & Hsplit & Hsch & Hn & _ & ->)%normalize_url_Some.
  pose proof (urlsplit_parts _ _ Hsplit Hn)
    as (_ & Hdelim & _ & Hp & _ & Hq & _).
  rewrite !not_elem_of_app. split_and!; try done; try by_evaluation.
  - revert Hsch. rewrite !elem_of_cons, elem_of_nil.
    intros [-> | [-> | []]]; by_evaluation.
  - intros Hin. by apply (proj1 (Forall_forall _ _) Hdelim) in Hin.
  - destruct (query parts) as [|c q]; [apply not_elem_of_nil|].
    cbn. apply not_elem_of_cons. by split.
Qed.

(** C7 (amended).  [normalize_url] returns [None] exactly when the string
    it hands to the parser (the input trimmed, stripped of trailing
    punctuation, with [http://] put before a [www.] prefix) fails to
    parse, or has a scheme other than [http] and [https], or has an empty
    host component (the [netloc]); every accepted output is the URL
    reassembled with an empty fragment and holds no [#]; two inputs that
    both carry a fragment and differ only in it normalize alike, and so
    do an input without fragment and the same input with a fragment
    when it does not end in white space or trailing punctuation. *)
Theorem normalize_url_rejection_and_fragment raw :
  prepare raw
  = www_prefixed (rstrip_by is_trailing_punct (strip raw))
  ∧ (normalize_url raw = None ↔
     urlsplit (prepare raw) = None
     ∨ ∃ parts, urlsplit (prepare raw) = Some parts
                ∧ (scheme parts ∉ [py "http"; py "https"]
                   ∨ netloc parts = []))
  ∧ (∀ u, normalize_url raw = Some u →
       (∃ parts, urlsplit (prepare raw) = Some parts
                 ∧ u = urlunsplit (_replace_fragment parts []))
       ∧ "#"%char ∉ u)
  ∧ (∀ f1 f2, "#"%char ∉ raw →
       normalize_url (raw ++ "#"%char :: f1)
       = normalize_url (raw ++ "#"%char :: f2))
  ∧ (∀ f, "#"%char ∉ raw → ends_clean raw →
       normalize_url (raw ++ "#"%char :: f) = normalize_url raw).
Proof.
  split_and!.
  - done.
  - unfold URLExtractor.normalize_url.
    destruct (urlsplit (prepare raw)) as [parts|];
      [|split; [by left|done]].
    rewrite accept_None. split.
    + intros Hrej. right. eauto.
    + by intros [?|(parts' & [= <-] & Hrej)].
  - intros u Hu. split; [|by eapply normalize_url_no_fragment].
    apply normalize_url_Some in Hu as (parts & ? & _ & _ & ? & _). eauto.
  - intros f1 f2. apply normalize_url_same_fragment.
  - intros f. apply normalize_url_drop_fragment.
Qed.

(** C8 (amended).  On every accepted output [u] that does not end in white
    space or trailing punctuation, [normalize_url] returns [u] itself. *)
Theorem normalize_url_idempotent raw u :
  normalize_url raw = Some u → ends_clean u → normalize_url u = Some u.
Proof.
  intros (parts & Hsplit & Hsch & Hn & _ & Hu)%normalize_url_Some Hclean.
  pose proof (urlsplit_parts _ _ Hsplit Hn)
    as (Hsafe & Hdelim & Hraise & Hp1 & Hp2 & Hq & Hpath).
  rewrite normalize_url_bind. rewrite Hu in Hclean |- *.
  rewrite prepare_canonical by done.
  rewrite urlsplit_urlunsplit by done. cbn [mbind option_bind].
  unfold accept. cbn [scheme netloc].
  rewrite (bool_decide_eq_true_2 _ Hsch), (bool_decide_eq_false_2 _ Hn).
  cbn [negb]. f_equal. apply urlunsplit_with_netloc; [|done|done].
  by destruct (scheme_prefix (scheme parts) [] Hsch) as (_ & _ & _ & _ & _ & ?).
Qed.

End urlsplit_facts.

(** ** Stripping and tidying text *)

Section text_facts.

Lemma rstrip_by_prefix p s :
  ∃ t, s = rstrip_by p s ++ t ∧ Forall (λ c, p c = true) t.
Proof.
  induction s as [|c s (t & Hs & Ht)]; simpl; [by exists []|].
  destruct (rstrip_by p s) as [|c' r] eqn:Hr.
  - destruct (p c) eqn:Hc.
    + exists (c :: s). split; [done|]. simpl in Hs. rewrite Hs.
      by constructor.
    + exists s. split; [done|]. simpl in Hs. by rewrite Hs.
  - exists t. split; [|done]. by rewrite Hs at 1.
Qed.

Lemma rstrip_by_last p s s' c :
  rstrip_by p s = s' ++ [c] → p c = false.
Proof.
  revert s'. induction s as [|x s IH]; intros s'; simpl.
  - by destruct s'.
  - destruct (rstrip_by p s) as [|c' r] eqn:Hr.
    + destruct (p x) eqn:Hx; [by destruct s'|].
      destruct s' as [|? [|]]; [|done..]. by intros [= <-].
    + destruct s' as [|y s'']; [done|].
      intros [= <- Hs]. by apply (IH s'').
Qed.

Lemma rstrip_by_fixed p s :
  (∀ s' c, s = s' ++ [c] → p c = false) → rstrip_by p s = s.
Proof.
  induction s as [|x s IH]; intros Hlast; simpl; [done|].
  destruct s as [|y s].
  - simpl. by rewrite (Hlast [] x).
  - rewrite IH; [done|]. intros s' c Hs. apply (Hlast (x :: s')).
    by rewrite Hs.
Qed.

Lemma rstrip_by_idemp p s : rstrip_by p (rstrip_by p s) = rstrip_by p s.
Proof. apply rstrip_by_fixed. intros s' c. apply rstrip_by_last. Qed.

Lemma lstrip_by_Forall p s :
  Forall (λ c, p c = true) s → lstrip_by p s = [].
Proof. induction 1 as [|c s Hc _ IH]; simpl; [done|]. by rewrite Hc. Qed.

Lemma lstrip_by_head p s :
  match lstrip_by p s with [] => True | c :: _ => p c = false end.
Proof.
  induction s as [|c s IH]; simpl; [done|].
  destruct (p c) eqn:Hc; [done|]. simpl. done.
Qed.

Lemma lstrip_by_fixed p s :
  match s with [] => True | c :: _ => p c = false end → lstrip_by p s = s.
Proof. destruct s as [|c s]; simpl; [done|]. by intros ->. Qed.

Lemma strip_fixed s :
  lstrip_by isspace (strip s) = strip s ∧ rstrip_by isspace (strip s) = strip s.
Proof.
  unfold strip. split; [|apply rstrip_by_idemp].
  apply lstrip_by_fixed.
  pose proof (lstrip_by_head isspace s) as Hh.
  destruct (rstrip_by_prefix isspace (lstrip_by isspace s)) as (t & Hs & _).
  destruct (rstrip_by isspace (lstrip_by isspace s)) as [|c r]; [done|].
  by rewrite Hs in Hh.
Qed.

Lemma strip_all s : Forall (λ c, isspace c = true) s → strip s = [].
Proof. intros Hs. unfold strip. by rewrite lstrip_by_Forall. Qed.

Lemma visible_app s t : visible (s ++ t) = visible s ++ visible t.
Proof. apply List.filter_app. Qed.

Lemma visible_all s : Forall (λ c, isspace c = true) s → visible s = [].
Proof.
  induction 1 as [|c s Hc _ IH]; [done|]. unfold visible in *. simpl.
  by rewrite Hc.
Qed.

Lemma visible_rstrip s : visible (rstrip_by isspace s) = visible s.
Proof.
  destruct (rstrip_by_prefix isspace s) as (t & Hs & Ht).
  rewrite Hs at 2. rewrite visible_app, (visible_all t) by done.
  by rewrite app_nil_r.
Qed.

Lemma visible_lstrip s : visible (lstrip_by isspace s) = visible s.
Proof.
  induction s as [|c s IH]; cbn [lstrip_by]; [done|].
  destruct (isspace c) eqn:Hc; [|done].
  rewrite IH. unfold visible. cbn [List.filter]. by rewrite Hc.
Qed.

Lemma visible_strip s : visible (strip s) = visible s.
Proof. unfold strip. by rewrite visible_rstrip, visible_lstrip. Qed.

Lemma flush_run_spec run :
  Forall (λ c, isspace c = true) run →
  Forall (λ c, isspace c = true) (flush_run run) ∧ length (flush_run run) ≤ 2
  ∧ (length run ≤ 2 → flush_run run = run).
Proof.
  intros Hrun. unfold flush_run. destruct (Nat.leb_spec 3 (length run)).
  - split_and!; [by repeat constructor|simpl; lia|lia].
  - split_and!; [done|lia|done].
Qed.

Lemma short_runs_app n run s :
  Forall (λ c, isspace c = true) run →
  short_runs n (run ++ s)
  = ((n + length run <=? 2) || (length run =? 0))
    && short_runs (n + length run) s.
Proof.
  intros Hrun. revert n.
  induction Hrun as [|c run Hc Hrun IH]; intros n; simpl.
  - by rewrite Nat.add_0_r, orb_true_r.
  - rewrite Hc, IH. rewrite orb_false_r.
    replace (n + S (length run)) with (S n + length run) by lia.
    destruct (Nat.ltb_spec n 2), (Nat.leb_spec (S n + length run) 2),
      (Nat.eqb_spec (length run) 0); simpl; try done; lia.
Qed.

Lemma short_runs_visible n c s :
  isspace c = false → short_runs n (c :: s) = short_runs 0 s.
Proof. simpl. by intros ->. Qed.

Lemma sub_whitespace_short run s :
  Forall (λ c, isspace c = true) run →
  short_runs 0 (sub_whitespace run s) = true.
Proof.
  revert run. induction s as [|c s IH]; intros run Hrun; simpl.
  - destruct (flush_run_spec run Hrun) as (Hf & Hlen & _).
    rewrite <- (app_nil_r (flush_run run)), short_runs_app by done. simpl.
    destruct (Nat.leb_spec (length (flush_run run)) 2); [done|lia].
  - destruct (isspace c) eqn:Hc.
    + apply IH. apply Forall_app. split; [done|]. by repeat constructor.
    + destruct (flush_run_spec run Hrun) as (Hf & Hlen & _).
      rewrite short_runs_app, short_runs_visible by done.
      rewrite IH by constructor.
      destruct (Nat.leb_spec (0 + length (flush_run run)) 2); [done|lia].
Qed.

Lemma short_runs_triple n s pre a b c post :
  short_runs n s = true → s = pre ++ a :: b :: c :: post →
  isspace a && isspace b && isspace c = false.
Proof.
  revert n s. induction pre as [|x pre IH]; intros n s Hs ->; simpl in Hs.
  - destruct (isspace a), (isspace b), (isspace c); try done.
    destruct n as [|[|n]]; simpl in Hs; done.
  - destruct (isspace x).
    + apply andb_true_iff in Hs as [_ Hs]. by eapply IH.
    + by eapply IH.
Qed.

Lemma sub_whitespace_fixed run s :
  Forall (λ c, isspace c = true) run → length run ≤ 2 →
  short_runs (length run) s = true →
  sub_whitespace run s = run ++ s.
Proof.
  revert run. induction s as [|c s IH]; intros run Hrun Hlen Hs; simpl in *.
  - rewrite app_nil_r. by apply flush_run_spec.
  - destruct (isspace c) eqn:Hc.
    + apply andb_true_iff in Hs as [Hn%Nat.ltb_lt Hs].
      rewrite IH.
      * by rewrite <- app_assoc.
      * apply Forall_app. split; [done|]. by repeat constructor.
      * rewrite length_app. simpl. lia.
      * rewrite length_app. simpl. by rewrite Nat.add_1_r.
    + rewrite (IH []); [|constructor|simpl; lia|done].
      by rewrite (proj2 (proj2 (flush_run_spec run Hrun)) Hlen).
Qed.

Lemma visible_sub_whitespace run s :
  Forall (λ c, isspace c = true) run →
  visible (sub_whitespace run s) = visible s.
Proof.
  revert run. induction s as [|c s IH]; intros run Hrun;
    cbn [sub_whitespace].
  - apply visible_all. by apply flush_run_spec.
  - destruct (isspace c) eqn:Hc.
    + rewrite IH.
      * unfold visible. cbn [List.filter]. by rewrite Hc.
      * apply Forall_app. split; [done|]. by repeat constructor.
    + rewrite visible_app, visible_all by (by apply flush_run_spec).
      unfold visible in *. cbn [List.filter app]. rewrite Hc.
      cbn [negb]. f_equal. by apply IH.
Qed.

Lemma sub_whitespace_rstrip run s :
  Forall (λ c, isspace c = true) run →
  s ≠ [] → rstrip_by isspace s = s →
  rstrip_by isspace (sub_whitespace run s) = sub_whitespace run s.
Proof.
  revert run. induction s as [|c s IH]; intros run Hrun Hne Hs; [done|].
  destruct s as [|c' s'].
  - simpl in Hs. destruct (isspace c) eqn:Hc; [done|]. simpl. rewrite Hc.
    by rewrite rstrip_by_app_stop.
  - assert (rstrip_by isspace (c' :: s') = c' :: s') as Hs'.
    { change (rstrip_by isspace (c :: c' :: s'))
        with (match rstrip_by isspace (c' :: s') with
              | [] => if isspace c then [] else [c]
              | r => c :: r
              end) in Hs.
      destruct (rstrip_by isspace (c' :: s')) as [|x r].
      - by destruct (isspace c).
      - congruence. }
    change (sub_whitespace run (c :: c' :: s'))
      with (if isspace c then sub_whitespace (run ++ [c]) (c' :: s')
            else flush_run run ++ c :: sub_whitespace [] (c' :: s')).
    destruct (isspace c) eqn:Hc.
    + apply IH; [|done|done].
      apply Forall_app. split; [done|]. by repeat constructor.
    + rewrite rstrip_by_app_stop by done. by rewrite IH.
Qed.

Lemma tidy_strip txt : strip (tidy txt) = tidy txt.
Proof.
  unfold tidy. destruct (strip_fixed txt) as [Hl Hr].
  destruct (strip txt) as [|c t] eqn:Ht; [done|].
  unfold strip at 1.
  assert (isspace c = false) as Hc.
  { simpl in Hl. destruct (isspace c); [|done].
    pose proof (lstrip_by_suffix isspace t) as [a Ha].
    rewrite Hl in Ha. apply (f_equal length) in Ha.
    rewrite length_app in Ha. simpl in Ha. lia. }
  rewrite (lstrip_by_fixed isspace (sub_whitespace [] (c :: t))).
  - by apply sub_whitespace_rstrip.
  - simpl. by rewrite Hc.
Qed.

Lemma tidy_short txt : short_runs 0 (tidy txt) = true.
Proof. by apply sub_whitespace_short. Qed.

Lemma tidy_idemp txt : tidy (tidy txt) = tidy txt.
Proof.
  unfold tidy at 1. rewrite tidy_strip.
  apply (sub_whitespace_fixed [] (tidy txt)); [constructor|simpl; lia|].
  apply tidy_short.
Qed.

Lemma tidy_visible txt : visible (tidy txt) = visible txt.
Proof.
  unfold tidy. by rewrite visible_sub_whitespace, visible_strip.
Qed.

Lemma tidy_all txt : Forall (λ c, isspace c = true) txt → tidy txt = [].
Proof. intros Ht. unfold tidy. by rewrite strip_all. Qed.

(** X1.  [_strip_trailing_punct] cuts the input in two: what it returns,
    and a tail made of trailing-punctuation characters only; what it
    returns does not end in such a character, so stripping again changes
    nothing. *)
Theorem strip_trailing_punct_spec url :
  (∃ ps, url = _strip_trailing_punct url ++ ps
         ∧ Forall (λ c, is_trailing_punct c = true) ps)
  ∧ (∀ s c, _strip_trailing_punct url = s ++ [c] →
            is_trailing_punct c = false)
  ∧ _strip_trailing_punct (_strip_trailing_punct url)
    = _strip_trailing_punct url.
Proof.
  unfold _strip_trailing_punct. split_and!.
  - apply rstrip_by_prefix.
  - apply rstrip_by_last.
  - apply rstrip_by_idemp.
Qed.

End text_facts.

(** ** The text [extract_main_text] returns *)

Section extraction_facts.

Context `{Config} `{Runtime}.
Variable respond : list str → str → get_outcome.

Lemma extract_main_text_Some html t :
  extract_main_text html = Some t →
  ∃ raw,
    (trafilatura_extract html = Some (Some raw)
     ∨ (HAS_READABILITY = true
        ∧ Document_summary html ≫= fromstring_text_content = Some raw))
    ∧ t = tidy raw.
Proof.
  unfold extract_main_text, primary_strategy, secondary_strategy.
  destruct (trafilatura_extract html) as [[[|c txt]|]|] eqn:Hprimary;
    try (intros [= <-]; eauto);
    (destruct HAS_READABILITY; [|done]);
    (destruct (Document_summary html ≫= fromstring_text_content)
       as [[|c txt]|]; [done| |done]);
    intros [= <-]; eauto.
Qed.

(** X2.  A text returned by [extract_main_text] neither starts nor ends
    with white space and holds no three white-space characters in a row;
    cleaning it again changes nothing. *)
Theorem extract_main_text_shape html t :
  extract_main_text html = Some t →
  strip t = t
  ∧ (∀ pre a b c post, t = pre ++ a :: b :: c :: post →
       isspace a && isspace b && isspace c = false)
  ∧ tidy t = t.
Proof.
  intros (raw & _ & ->)%extract_main_text_Some. split_and!.
  - apply tidy_strip.
  - intros pre a b c post. apply (short_runs_triple 0), tidy_short.
  - apply tidy_idemp.
Qed.

(** X3.  The clean-up only touches white space: a text returned by
    [extract_main_text] has the characters that are not white space of
    what the extractor behind it gave (trafilatura, or readability when
    it is available), in the same order. *)
Theorem extract_main_text_keeps_visible html t :
  extract_main_text html = Some t →
  ∃ raw,
    (trafilatura_extract html = Some (Some raw)
     ∨ (HAS_READABILITY = true
        ∧ Document_summary html ≫= fromstring_text_content = Some raw))
    ∧ visible t = visible raw.
Proof.
  intros (raw & Hraw & ->)%extract_main_text_Some.
  exists raw. split; [done|]. apply tidy_visible.
Qed.

(** X4.  When trafilatura yields a text that is not empty but holds white
    space only, [extract_main_text] returns the empty string and does not
    turn to readability; the worker then reports "no main content
    extracted" for a URL within the length limit. *)
Theorem blank_extraction_blocks_fallback cl url resp c txt :
  respond cl url = Responded resp →
  failure_of (Responded resp) = None →
  trafilatura_extract (text resp) = Some (Some (c :: txt)) →
  Forall (λ x, isspace x = true) (c :: txt) →
  length url ≤ SOURCE_URL_MAX_LENGTH →
  extract_main_text (text resp) = Some []
  ∧ (worker_body respond cl url).1
    = Ok (mkItem url error None (Some (py "no main content extracted"))).
Proof.
  intros Hresp Hok Hprimary Hblank Hshort.
  assert (extract_main_text (text resp) = Some []) as Hnone.
  { unfold extract_main_text, primary_strategy.
    by rewrite Hprimary, tidy_all. }
  split; [done|].
  rewrite worker_body_unfold, (fetch_html_success _ _ _ _ Hresp Hok).
  cbn [truthy default from_option id]. rewrite Hnone. cbn [truthy negb].
  by apply ScrapeItem_new_short.
Qed.

End extraction_facts.

(** ** The matches of the pattern *)

Section pattern_facts.

Lemma host_char_path_char c : is_host_char c = true → is_path_char c = true.
Proof. by_cases_on c. Qed.

Lemma digit_path_char c : isdigit_ascii c = true → is_path_char c = true.
Proof. by_cases_on c. Qed.

Lemma lower_path_char c :
  is_path_char (lower_char c) = true → is_path_char c = true.
Proof. by_cases_on c. Qed.

Lemma lower_path_chars s :
  Forall (λ c, is_path_char c = true) (lower s) →
  Forall (λ c, is_path_char c = true) s.
Proof.
  unfold lower. induction s as [|c s IH]; simpl; [done|].
  intros [Hc Hs]%Forall_cons. constructor; [by apply lower_path_char|auto].
Qed.

Lemma match_prefix_Some s n :
  match_prefix s = Some n →
  n ≤ length s ∧ length (take n s) = n ∧ lower (take n s) ∈ prefixes.
Proof.
  unfold match_prefix, startswith, prefixes.
  assert (∀ lit, take (length lit) (lower s) = lit →
            length lit ≤ length s
            ∧ length (take (length lit) s) = length lit
            ∧ lower (take (length lit) s) = lit) as Hlit.
  { intros lit Hlit. unfold lower in *. rewrite firstn_map in Hlit.
    apply (f_equal length) in Hlit as Hlen.
    rewrite length_map, length_take in Hlen.
    split_and!; [lia|rewrite length_take; lia|done]. }
  repeat case_bool_decide; intros [= <-];
    match goal with
    | Heq : take _ _ = ?lit |- _ =>
        destruct (Hlit lit Heq) as (? & ? & Hlow)
    end; (split_and!; [done|done|]);
    change 8 with (length (py "https://"));
    change 7 with (length (py "http://"));
    change 4 with (length (py "www."));
    rewrite Hlow; by_evaluation.
Qed.

Lemma match_port_spec s :
  match_port s ≤ length s
  ∧ Forall (λ c, is_path_char c = true) (take (match_port s) s).
Proof.
  destruct s as [|c r]; [by split; [|constructor]|].
  destruct (decide (c = ":"%char)) as [->|Hc].
  2:{ assert (match_port (c :: r) = 0) as ->;
        [|split; [simpl; lia|constructor]].
      destruct c as [[] [] [] [] [] [] [] []]; done. }
  unfold match_port. cbv zeta.
  pose proof (span_until_spec (λ c, negb (isdigit_ascii c)) r)
    as (Hr & Hdigits & _).
  destruct (span_until _ r) as [digits rest]; cbn [fst snd] in *.
  destruct (2 <=? length digits); [|split; [simpl; lia|constructor]].
  subst r. split.
  - rewrite length_cons, length_app. lia.
  - change (take (1 + ?n) (?x :: ?l)) with (x :: take n l).
    constructor; [done|].
    rewrite take_app_le by lia.
    apply Forall_take. eapply Forall_impl; [exact Hdigits|].
    intros x Hx. by apply digit_path_char, negb_false_iff.
Qed.

Lemma match_path_spec s :
  match_path s ≤ length s
  ∧ Forall (λ c, is_path_char c = true) (take (match_path s) s).
Proof.
  destruct s as [|c r]; [by split; [|constructor]|].
  destruct (decide (c = "/"%char)) as [->|Hc].
  2:{ assert (match_path (c :: r) = 0) as ->;
        [|split; [simpl; lia|constructor]].
      destruct c as [[] [] [] [] [] [] [] []]; done. }
  unfold match_path.
  pose proof (span_until_spec (λ c, negb (is_path_char c)) r)
    as (Hr & Hpath & _).
  destruct (span_until _ r) as [pth rest]; cbn [fst snd] in *.
  subst r. split.
  - rewrite length_cons, length_app. lia.
  - change (take (1 + ?n) (?x :: ?l)) with (x :: take n l).
    constructor; [done|].
    rewrite take_app_length.
    eapply Forall_impl; [exact Hpath|].
    intros x Hx. by apply negb_false_iff.
Qed.

Lemma match_here_Some s k :
  match_here s = Some k →
  0 < k ∧ k ≤ length s ∧ is_match (take k s).
Proof.
  unfold match_here.
  destruct (match_prefix s) as [n|] eqn:Hpre; [|done].
  apply match_prefix_Some in Hpre as (Hn & Hlen & Hlow).
  pose proof (span_until_spec (λ c, negb (is_host_char c)) (drop n s))
    as (Hs & Hhost & _).
  destruct (span_until _ (drop n s)) as [host rest]; cbn [fst snd] in *.
  destruct host as [|h host]; [done|]. cbv zeta.
  set (n1 := n + length (h :: host)).
  assert (drop n1 s = rest) as Hrest.
  { unfold n1. rewrite <- drop_drop, Hs.
    by rewrite drop_app_length. }
  rewrite Hrest.
  destruct (match_port_spec rest) as [Hport_le Hport].
  set (kp := match_port rest) in *.
  assert (drop (n1 + kp) s = drop kp rest) as Hrest2.
  { by rewrite <- drop_drop, Hrest. }
  rewrite Hrest2.
  destruct (match_path_spec (drop kp rest)) as [Hpath_le Hpath].
  set (kq := match_path (drop kp rest)) in *.
  intros [= <-].
  assert (length s = n + length (h :: host) + length rest) as Hlens.
  { rewrite <- (take_drop n s) at 1. rewrite length_app, Hlen, Hs.
    rewrite length_app. lia. }
  rewrite length_drop in Hpath_le.
  assert (take (n1 + kp + kq) s
          = take n s ++ (h :: host) ++ take kp rest ++ take kq (drop kp rest))
    as ->.
  { rewrite <- take_take_drop, Hrest2. rewrite <- take_take_drop, Hrest.
    unfold n1. rewrite <- take_take_drop, Hs.
    rewrite take_app_length. by rewrite <- !app_assoc. }
  split_and!.
  - unfold n1. simpl. lia.
  - unfold n1 in *. simpl in *. lia.
  - split.
    + exists (take n s), h, (host ++ take kp rest ++ take kq (drop kp rest)).
      split_and!; [done|done|].
      apply Forall_cons in Hhost as [Hh _]. by apply negb_false_iff.
    + rewrite !Forall_app. split_and!; [|  |done|done].
      * apply lower_path_chars. revert Hlow. unfold prefixes.
        rewrite !elem_of_cons, elem_of_nil.
        intros [-> | [-> | [-> | []]]]; by repeat constructor.
      * eapply Forall_impl; [exact Hhost|]. intros x Hx.
        by apply host_char_path_char, negb_false_iff.
Qed.

Lemma findall_from_drop skip text :
  findall_from skip text = findall_from 0 (drop skip text).
Proof.
  revert skip. induction text as [|c t IH]; intros [|k]; try done. simpl.
  apply IH.
Qed.

Lemma findall_cons c t :
  findall (c :: t)
  = match match_here (c :: t) with
    | Some n => take n (c :: t) :: findall (drop n (c :: t))
    | None => findall t
    end.
Proof.
  unfold findall. cbn [findall_from].
  destruct (match_here (c :: t)) as [n|] eqn:Hm; [|done].
  apply match_here_Some in Hm as (Hpos & _ & _).
  rewrite findall_from_drop. destruct n as [|n]; [lia|].
  by rewrite Nat.sub_1_r.
Qed.

Lemma findall_spec text :
  Forall is_match (findall text)
  ∧ ∃ gaps, length gaps = S (length (findall text))
            ∧ text = weave gaps (findall text).
Proof.
  remember (length text) as n eqn:Hn. revert text Hn.
  induction n as [n IH] using lt_wf_ind. intros text Hn.
  destruct text as [|c t].
  - split; [constructor|]. by exists [[]].
  - rewrite findall_cons.
    destruct (match_here (c :: t)) as [k|] eqn:Hm.
    + apply match_here_Some in Hm as (Hpos & Hle & Hmatch).
      destruct (IH (length (drop k (c :: t)))) with (text := drop k (c :: t))
        as (Hall & gaps & Hlen & Hw); [rewrite length_drop; lia|done|].
      split; [by constructor|]. exists ([] :: gaps).
      split; [simpl; lia|]. cbn [weave app]. rewrite <- Hw.
      by rewrite take_drop.
    + destruct (IH (length t)) with (text := t)
        as (Hall & gaps & Hlen & Hw); [simpl in Hn; lia|done|].
      split; [done|]. destruct gaps as [|g gaps]; [done|].
      exists ((c :: g) :: gaps). split; [done|].
      cbn [weave] in *. rewrite <- app_comm_cons. by rewrite <- Hw.
Qed.

Lemma weave_substring gaps ms m :
  m ∈ ms → length ms < length gaps →
  ∃ pre post, weave gaps ms = pre ++ m ++ post.
Proof.
  revert gaps. induction ms as [|m' ms IH]; intros gaps Hm Hlen.
  - by apply elem_of_nil in Hm.
  - destruct gaps as [|g gaps]; [simpl in Hlen; lia|]. cbn [weave].
    apply elem_of_cons in Hm as [->|Hm].
    + by exists g, (weave gaps ms).
    + destruct (IH gaps Hm) as (pre & post & ->); [simpl in Hlen; lia|].
      exists (g ++ m' ++ pre), post. by rewrite <- !app_assoc.
Qed.

Lemma path_char_spec c :
  is_path_char c = true ↔ isspace c = false ∧ c ≠ "<"%char.
Proof.
  unfold is_path_char. rewrite andb_true_iff, !negb_true_iff.
  by rewrite bool_decide_eq_false.
Qed.

(** X5.  Every string [findall] returns is a piece of the text that
    starts with [http://], [https://] or [www.] in any case, goes on with
    at least one host character, and holds neither white space nor
    [<]. *)
Theorem findall_matches_shape text m :
  m ∈ findall text →
  (∃ p h r, m = p ++ h :: r
            ∧ lower p ∈ [py "https://"; py "http://"; py "www."]
            ∧ is_host_char h = true)
  ∧ Forall (λ c, isspace c = false ∧ c ≠ "<"%char) m
  ∧ ∃ pre post, text = pre ++ m ++ post.
Proof.
  intros Hm. destruct (findall_spec text) as (Hall & gaps & Hlen & Htext).
  apply (proj1 (Forall_forall _ _) Hall) in Hm as Hshape.
  destruct Hshape as [Hhead Hchars]. split_and!; [done| |].
  - eapply Forall_impl; [exact Hchars|]. intros c. apply path_char_spec.
  - destruct (weave_substring gaps (findall text) m Hm) as (pre & post & Hw);
      [lia|].
    exists pre, post. by rewrite <- Hw.
Qed.

(** X6.  The matches [findall] returns lie in the text one after the
    other without overlapping: the text is a first gap, the first match,
    a gap, the second match, and so on to a last gap. *)
Theorem findall_matches_in_order text :
  ∃ gaps, length gaps = S (length (findall text))
          ∧ text = weave gaps (findall text).
Proof. apply findall_spec. Qed.

End pattern_facts.

(** ** More on the normalizer *)

Section normalizer_facts.

Variable _check_bracketed_host : str → bool.

Local Abbreviation urlsplit := (urlsplit _check_bracketed_host).
Local Abbreviation split_netloc := (split_netloc _check_bracketed_host).
Local Abbreviation normalize_url := (normalize_url _check_bracketed_host).

Lemma lstrip_by_app_all p ws s :
  Forall (λ c, p c = true) ws → lstrip_by p (ws ++ s) = lstrip_by p s.
Proof. induction 1 as [|c ws Hc _ IH]; simpl; [done|]. by rewrite Hc. Qed.

Lemma strip_app_space s ws :
  Forall (λ c, isspace c = true) ws → strip (s ++ ws) = strip s.
Proof.
  intros Hws. unfold strip.
  destruct (lstrip_by isspace s) as [|c t] eqn:Hs.
  - apply lstrip_by_all in Hs.
    rewrite lstrip_by_Forall; [done|]. by apply Forall_app.
  - rewrite lstrip_by_app by (by rewrite Hs). rewrite Hs.
    by rewrite rstrip_by_app_all.
Qed.

Lemma strip_surrounded ws1 s ws2 :
  Forall (λ c, isspace c = true) ws1 → Forall (λ c, isspace c = true) ws2 →
  strip (ws1 ++ s ++ ws2) = strip s.
Proof.
  intros H1 H2. rewrite <- (strip_app_space s ws2) by done.
  unfold strip. by rewrite lstrip_by_app_all.
Qed.

(** X7.  White space around the input does not matter: an input normalizes
    like itself with white space put before and after. *)
Theorem normalize_url_ignores_outer_space ws1 raw ws2 :
  Forall (λ c, isspace c = true) ws1 → Forall (λ c, isspace c = true) ws2 →
  normalize_url (ws1 ++ raw ++ ws2) = normalize_url raw.
Proof.
  intros H1 H2. unfold URLExtractor.normalize_url, prepare.
  by rewrite strip_surrounded.
Qed.

(** *** The case of the scheme *)
Lemma lower_alpha c :
  isascii_alpha (lower_char c) = true → isascii_alpha c = true.
Proof. by_cases_on c. Qed.

Lemma alpha_char c :
  isascii_alpha c = true →
  is_scheme_char c = true ∧ isspace c = false ∧ is_c0_or_space c = false
  ∧ c ≠ ":"%char ∧ safe c.
Proof.
  intros Hc. split_and!.
  - revert Hc. by_cases_on c.
  - revert Hc. by_cases_on c.
  - revert Hc. by_cases_on c.
  - intros ->. done.
  - unfold safe, _UNSAFE_URL_BYTES_TO_REMOVE.
    rewrite !elem_of_cons, elem_of_nil. intros [-> | [-> | [-> | []]]]; done.
Qed.

Lemma alpha_scheme X :
  lower X ∈ [py "http"; py "https"] →
  Forall (λ c, isascii_alpha c = true) X ∧ X ≠ []
  ∧ startswith (py "www.") (lower X) = false.
Proof.
  intros HX. split_and!.
  - assert (Forall (λ c, isascii_alpha c = true) (lower X)) as Hall.
    { revert HX. rewrite !elem_of_cons, elem_of_nil.
      intros [-> | [-> | []]]; by repeat constructor. }
    clear HX. unfold lower in Hall. induction X as [|c X IH]; [done|].
    apply Forall_cons in Hall as [Hc Hall].
    constructor; [by apply lower_alpha|auto].
  - intros ->. revert HX. by_evaluation.
  - revert HX. rewrite !elem_of_cons, elem_of_nil.
    intros [-> | [-> | []]]; done.
Qed.

Lemma alpha_prefix X R :
  Forall (λ c, isascii_alpha c = true) X → X ≠ [] →
  lstrip_by isspace (X ++ R) = X ++ R
  ∧ lstrip_by is_c0_or_space (X ++ R) = X ++ R
  ∧ remove_unsafe (X ++ R) = X ++ remove_unsafe R
  ∧ split_scheme (X ++ ":"%char :: R) = (lower X, R).
Proof.
  intros HX Hne. destruct X as [|c X]; [done|].
  apply Forall_cons in HX as Hc. destruct Hc as [Hc HX'].
  destruct (alpha_char c Hc) as (_ & Hsp & Hc0 & _ & _).
  split_and!.
  - simpl. by rewrite Hsp.
  - simpl. by rewrite Hc0.
  - rewrite remove_unsafe_app. f_equal. apply remove_unsafe_id.
    eapply Forall_impl; [exact HX|]. intros x Hx. by apply alpha_char.
  - unfold split_scheme. rewrite cut_app.
    + rewrite Hc. cbn [andb].
      assert (forallb is_scheme_char (c :: X) = true) as ->; [|done].
      apply forallb_forall. intros x Hx%list_elem_of_In.
      apply (proj1 (Forall_forall _ _) HX) in Hx. by apply alpha_char.
    + intros Hin. apply (proj1 (Forall_forall _ _) HX) in Hin.
      by apply alpha_char in Hin as (_ & _ & _ & ? & _).
Qed.

Lemma startswith_www_app X R :
  lower X ∈ [py "http"; py "https"] →
  startswith (py "www.") (lower (X ++ R)) = false.
Proof.
  unfold lower. rewrite map_app. rewrite !elem_of_cons, elem_of_nil.
  intros [HX | [HX | []]]; unfold lower in HX; rewrite HX; done.
Qed.

Lemma prepare_scheme X r :
  lower X ∈ [py "http"; py "https"] →
  prepare (X ++ py "://" ++ r)
  = X ++ py "://" ++ _strip_trailing_punct (rstrip_by isspace r).
Proof.
  intros HX. destruct (alpha_scheme X HX) as (Halpha & Hne & _).
  unfold prepare, strip, _strip_trailing_punct.
  destruct (alpha_prefix X (py "://" ++ r) Halpha Hne) as (-> & _ & _ & _).
  assert (∀ t, X ++ py "://" ++ t = (X ++ py ":/") ++ "/"%char :: t) as Hsplit.
  { intros t. by rewrite <- app_assoc. }
  rewrite (Hsplit r), rstrip_by_app_stop by done.
  rewrite rstrip_by_app_stop by done. rewrite <- Hsplit.
  by rewrite startswith_www_app.
Qed.

Lemma urlsplit_scheme X Z :
  lower X ∈ [py "http"; py "https"] →
  urlsplit (X ++ ":"%char :: Z) = urlsplit (lower X ++ ":"%char :: Z).
Proof.
  intros HX. destruct (alpha_scheme X HX) as (Halpha & Hne & _).
  assert (lower (lower X) = lower X) as Hlow.
  { revert HX. rewrite !elem_of_cons, elem_of_nil.
    intros [-> | [-> | []]]; done. }
  assert (lower (lower X) ∈ [py "http"; py "https"]) as HX'
    by (by rewrite Hlow).
  destruct (alpha_scheme (lower X) HX') as (Halpha' & Hne' & _).
  rewrite !urlsplit_unfold. cbv zeta.
  destruct (alpha_prefix X (":"%char :: Z) Halpha Hne) as (_ & -> & -> & _).
  destruct (alpha_prefix (lower X) (":"%char :: Z) Halpha' Hne')
    as (_ & -> & -> & _).
  rewrite remove_unsafe_cons_safe by by_evaluation.
  destruct (alpha_prefix X (remove_unsafe Z) Halpha Hne) as (_ & _ & _ & ->).
  destruct (alpha_prefix (lower X) (remove_unsafe Z) Halpha' Hne')
    as (_ & _ & _ & ->).
  by rewrite Hlow.
Qed.

(** X8.  The scheme is read without regard to case: an input whose scheme
    is [http] or [https] in any mix of upper and lower case normalizes
    like the same input with the scheme in lower case. *)
Theorem normalize_url_scheme_case X r :
  lower X ∈ [py "http"; py "https"] →
  normalize_url (X ++ py "://" ++ r) = normalize_url (lower X ++ py "://" ++ r).
Proof.
  intros HX.
  assert (lower (lower X) ∈ [py "http"; py "https"]) as HX'.
  { revert HX. rewrite !elem_of_cons, elem_of_nil.
    intros [-> | [-> | []]]; by_evaluation. }
  unfold URLExtractor.normalize_url.
  rewrite !prepare_scheme by done.
  change (py "://" ++ ?t) with (":"%char :: py "//" ++ t).
  by rewrite urlsplit_scheme.
Qed.

(** *** A [www.] prefix *)

Lemma startswith_www_head s :
  startswith (py "www.") (lower s) = true →
  ∃ c t, s = c :: t ∧ isspace c = false.
Proof.
  destruct s as [|c t]; [done|]. intros Hs. exists c, t. split; [done|].
  unfold lower in Hs. cbn [map] in Hs.
  change (py "www.") with ("w"%char :: py "ww.") in Hs.
  rewrite startswith_cons_cons in Hs.
  apply andb_true_iff in Hs as [Hc%bool_decide_eq_true _].
  revert Hc. by_cases_on c.
Qed.

Lemma ends_clean_app a s :
  s ≠ [] → ends_clean s → ends_clean (a ++ s).
Proof.
  intros Hne [Hsp Hpu]. unfold ends_clean, _strip_trailing_punct in *.
  by rewrite !rstrip_by_fixed_app.
Qed.

(** X9.  A string that starts with [www.] in any case, and does not end
    in white space or trailing punctuation, normalizes like the same
    string with [http://] in front: the two spellings of a link give one
    entry. *)
Theorem normalize_url_www_as_http s :
  ends_clean s → startswith (py "www.") (lower s) = true →
  normalize_url s = normalize_url (py "http://" ++ s).
Proof.
  intros Hclean Hwww.
  destruct (startswith_www_head s Hwww) as (c & t & -> & Hc).
  unfold URLExtractor.normalize_url. f_equal.
  rewrite !prepare_clean; [|by apply ends_clean_app|done].
  cbn [py list_ascii_of_string app lstrip_by]. rewrite Hc.
  change (isspace "h") with false. cbv iota.
  unfold www_prefixed at 1. rewrite Hwww.
  done.
Qed.

(** What an accepted output is made of. *)
Lemma normalize_url_shape raw u :
  normalize_url raw = Some u →
  ∃ sch n pth qry,
    u = sch ++ py "://" ++ n ++ pth ++ query_suffix qry
    ∧ sch ∈ [py "http"; py "https"] ∧ n ≠ []
    ∧ Forall (λ c, is_netloc_delim c = false) n
    ∧ (pth = [] ∨ ∃ p, pth = "/"%char :: p)
    ∧ Forall safe u
    ∧ urlsplit u = Some (mkSplit sch n pth qry []).
Proof.
  intros (parts & Hsplit & Hsch & Hn & _ & ->)%normalize_url_Some.
  pose proof (urlsplit_parts _ _ _ Hsplit Hn)
    as (Hsafe & Hdelim & Hraise & Hp1 & Hp2 & Hq & Hpath).
  exists (scheme parts), (netloc parts), (path parts), (query parts).
  split_and!; try done.
  - destruct (scheme_prefix (scheme parts) [] Hsch) as (_ & _ & _ & Hpre & _).
    rewrite !Forall_app in Hsafe, Hpre. destruct Hsafe as (? & ? & ?).
    destruct Hpre as (? & ? & ?).
    repeat (apply Forall_app; split); try done.
    destruct (query parts); [constructor|]. cbn. constructor; [|done].
    by_evaluation.
  - by apply urlsplit_urlunsplit.
Qed.

(** X10.  Every accepted output is [scheme://host] followed by a path and
    a query: the scheme is [http] or [https], the host is not empty and
    holds none of [/?#], the path is empty or starts with a slash, the
    output holds no tab, carriage return or line feed, and parsing it
    again gives these components back with an empty fragment. *)
Theorem normalize_url_output_reparses raw u :
  normalize_url raw = Some u →
  ∃ sch n pth qry,
    u = sch ++ py "://" ++ n ++ pth ++ query_suffix qry
    ∧ sch ∈ [py "http"; py "https"] ∧ n ≠ []
    ∧ Forall (λ c, is_netloc_delim c = false) n
    ∧ (pth = [] ∨ ∃ p, pth = "/"%char :: p)
    ∧ Forall safe u
    ∧ urlsplit u = Some (mkSplit sch n pth qry []).
Proof. apply normalize_url_shape. Qed.

End normalizer_facts.

(** ** More on link discovery *)

Section more_discovery_facts.

Variable _check_bracketed_host : str → bool.
Variable list_of_set : gset str → list str.
Variable draws : list nat.

Local Abbreviation discovered := (discovered _check_bracketed_host).
Local Abbreviation found := (found _check_bracketed_host).
Local Abbreviation extract_pdf_urls :=
  (extract_pdf_urls _check_bracketed_host list_of_set draws).

Lemma found_app p1 p2 : found (p1 ++ p2) = found p1 ++ found p2.
Proof. unfold found. by rewrite bind_app, omap_app. Qed.

Lemma discovered_app p1 p2 :
  discovered (p1 ++ p2) = discovered p1 ∪ discovered p2.
Proof. by rewrite !discovered_found, found_app, list_to_set_app_L. Qed.

Lemma discovered_page t l :
  discovered [mkPage t l]
  = discovered [mkPage t None] ∪ discovered [mkPage None l].
Proof.
  rewrite !discovered_found, <- list_to_set_app_L. f_equal.
  unfold found.
  change ([?p] ≫= candidates) with (candidates p ++ []).
  unfold candidates. cbn [get_text get_links].
  by rewrite !app_nil_r, app_nil_l, omap_app.
Qed.

Lemma slice_to_negative {A} k (l : list A) :
  (k < 0)%Z →
  Z.of_nat (length (slice_to k l)) = Z.max 0 (Z.of_nat (length l) + k).
Proof.
  intros Hk. unfold slice_to. destruct (Z.ltb_spec k 0); [|lia].
  rewrite length_take. lia.
Qed.

Lemma slice_to_all {A} k (l : list A) :
  (Z.of_nat (length l) ≤ k)%Z → slice_to k l = l.
Proof.
  intros Hk. unfold slice_to. destruct (Z.ltb_spec k 0); [lia|].
  apply take_ge. lia.
Qed.

Hypothesis list_of_set_enumerates : ∀ X, list_of_set X ≡ₚ elements X.

Lemma elements_discovered pages :
  elements (discovered pages) ≡ₚ remove_dups (found pages).
Proof.
  rewrite discovered_found.
  assert (list_to_set (found pages)
          = (list_to_set (remove_dups (found pages)) : gset str)) as ->.
  { apply set_eq. intros x.
    by rewrite !elem_of_list_to_set, elem_of_remove_dups. }
  apply elements_list_to_set, NoDup_remove_dups.
Qed.

Lemma url_list_Permutation pages :
  shuffle draws (list_of_set (discovered pages))
  ≡ₚ remove_dups (found pages).
Proof.
  by rewrite shuffle_Permutation, list_of_set_enumerates, elements_discovered.
Qed.

Lemma extract_pdf_urls_Ok pages k urls :
  extract_pdf_urls (Document pages) k = Ok urls →
  NoDup urls ∧ (∀ u, u ∈ urls → u ∈ found pages)
  ∧ urls = slice_to k (shuffle draws (list_of_set (discovered pages))).
Proof.
  intros [= <-]. split_and!; [| |done].
  - eapply sublist_NoDup; [|apply slice_to_sublist].
    rewrite url_list_Permutation. apply NoDup_remove_dups.
  - intros u Hu.
    eapply elem_of_sublist in Hu; [|apply slice_to_sublist].
    rewrite url_list_Permutation in Hu. by rewrite elem_of_remove_dups in Hu.
Qed.

Lemma extract_pdf_urls_nil pages k :
  (0 ≤ k)%Z →
  extract_pdf_urls (Document pages) k = Ok [] ↔ k = 0%Z ∨ found pages = [].
Proof.
  intros Hk. unfold URLExtractor.extract_pdf_urls.
  set (l := shuffle draws (list_of_set (discovered pages))).
  assert (length l = length (remove_dups (found pages))) as Hlen.
  { unfold l. by rewrite url_list_Permutation. }
  assert (slice_to k l = [] ↔ k = 0%Z ∨ found pages = []) as <-.
  { rewrite <- length_zero_iff_nil, slice_to_length, Hlen by done.
    destruct (found pages) as [|u us] eqn:Hf.
    - simpl. split; [by right|lia].
    - assert (0 < length (remove_dups (u :: us))).
      { assert (u ∈ remove_dups (u :: us)) as Hin.
        { apply elem_of_remove_dups. by left. }
        destruct (remove_dups (u :: us)); [by apply elem_of_nil in Hin|].
        simpl. lia. }
      split; [|intros [->|]; [done|done]]. intros Hmin. left. lia. }
  split; [by intros [= ->]|by intros ->].
Qed.

(** X11.  The pages contribute one by one, and on a page the text and the
    link annotations contribute one by one: the set of URLs of a document
    is the union of the sets of its parts, a page whose [get_text] raises
    still gives its links and one whose [get_links] raises still gives
    the URLs of its text, and a page on which both raise gives nothing. *)
Theorem discovered_page_by_page :
  (∀ p1 p2, discovered (p1 ++ p2) = discovered p1 ∪ discovered p2)
  ∧ (∀ t l, discovered [mkPage t l]
            = discovered [mkPage t None] ∪ discovered [mkPage None l])
  ∧ discovered [mkPage None None] = ∅.
Proof. split_and!; [apply discovered_app|apply discovered_page|done]. Qed.

(** X12.  When the cap is at least the number of distinct normalized URLs
    of the document, nothing is lost: [extract_pdf_urls] returns each of
    them once, in some order. *)
Theorem extract_pdf_urls_under_cap pages k :
  (Z.of_nat (length (remove_dups (found pages))) ≤ k)%Z →
  ∃ urls, extract_pdf_urls (Document pages) k = Ok urls
          ∧ urls ≡ₚ remove_dups (found pages).
Proof.
  intros Hk. eexists. split; [done|].
  rewrite slice_to_all; [apply url_list_Permutation|].
  by rewrite url_list_Permutation.
Qed.

(** X13.  A negative cap [k] counts from the end: of [n] distinct
    normalized URLs, [extract_pdf_urls] returns [n + k], or none when
    that is negative; they are without duplicates and all found in the
    document. *)
Theorem extract_pdf_urls_negative_cap pages k :
  (k < 0)%Z →
  ∃ urls, extract_pdf_urls (Document pages) k = Ok urls
          ∧ NoDup urls
          ∧ (∀ u, u ∈ urls → u ∈ found pages)
          ∧ Z.of_nat (length urls)
            = Z.max 0 (Z.of_nat (length (remove_dups (found pages))) + k).
Proof.
  intros Hk. eexists. split; [done|].
  destruct (extract_pdf_urls_Ok pages k _ eq_refl) as (Hnodup & Hfound & _).
  split_and!; [done|done|].
  by rewrite slice_to_negative, url_list_Permutation.
Qed.

Lemma usable_Some raw u :
  usable _check_bracketed_host raw = Some u →
  normalize_url _check_bracketed_host raw = Some u.
Proof.
  unfold usable.
  by destruct (normalize_url _check_bracketed_host raw) as [[|c norm]|].
Qed.

(** X14.  Only web addresses leave link discovery: every URL
    [extract_pdf_urls] returns is [http://] or [https://] followed by a
    host that is not empty and holds none of [/?#], and has no
    fragment. *)
Theorem extract_pdf_urls_only_http pages k urls :
  extract_pdf_urls (Document pages) k = Ok urls →
  Forall (λ u, ∃ sch n rest,
            u = sch ++ py "://" ++ n ++ rest
            ∧ sch ∈ [py "http"; py "https"] ∧ n ≠ []
            ∧ Forall (λ c, is_netloc_delim c = false) n
            ∧ "#"%char ∉ u) urls.
Proof.
  intros (_ & Hfound & _)%extract_pdf_urls_Ok.
  apply Forall_forall. intros u Hu%Hfound. unfold found in Hu.
  apply list_elem_of_omap in Hu as (raw & _ & Hraw%usable_Some).
  pose proof (normalize_url_no_fragment _ _ _ Hraw) as Hfrag.
  apply normalize_url_shape in Hraw
    as (sch & n & pth & qry & -> & Hsch & Hn & Hdelim & _).
  by exists sch, n, (pth ++ query_suffix qry).
Qed.

End more_discovery_facts.

(** ** More on the event loop *)

Section more_loop_facts.

Context `{Config} `{Runtime}.
Variable respond : list str → str → get_outcome.

Local Abbreviation step := (step respond).
Local Abbreviation step_task := (step_task respond).
Local Abbreviation run := (run respond).

Lemma run_cons i sched st :
  run (i :: sched) st = run sched (default st (step_task i st)).
Proof. done. Qed.

(** *** Empty input *)

Lemma run_no_tasks sem sched : run sched (init sem []) = init sem [].
Proof. induction sched as [|i sched IH]; [done|]. by rewrite run_cons. Qed.

(** *** A semaphore without slots *)

Lemma blocked_step i st st' :
  blocked st → step_task i st = Some st' → blocked st'.
Proof.
  intros (Hsem & Hcl & Hall) Hstep. unfold blocked.
  task_cases step_task_cases Hstep; rewrite Hsem0, Hcl0, Htasks;
    try lia.
  - split_and!; try done. apply Forall_insert; [done|]. cbv. lia.
  - split_and!; try done. apply Forall_insert; [done|]. cbv. lia.
  - apply (proj1 (Forall_lookup _ _) Hall) in Hi. cbv in Hi. lia.
Qed.

Lemma blocked_run sched st : blocked st → blocked (run sched st).
Proof.
  revert st. induction sched as [|i sched IH]; intros st Hst; [done|].
  rewrite run_cons. apply IH.
  destruct (step_task i st) as [st'|] eqn:Hstep; [|done].
  by eapply blocked_step.
Qed.

Lemma blocked_init urls : blocked (init 0 urls).
Proof.
  split_and!; try done. unfold init. cbn [tasks].
  apply Forall_fmap, Forall_true. intros u. cbv. lia.
Qed.

Lemma blocked_remaining st :
  blocked st → 2 * length (tasks st) ≤ remaining st ∧ fetching st = 0.
Proof.
  intros (_ & _ & Hall). unfold remaining, fetching, count_if, total.
  induction Hall as [|t ts Ht _ [IH1 IH2]]; simpl; [split; [lia|done]|].
  unfold is_fetching, rank in *. destruct (t.2); simpl in *; lia.
Qed.

(** *** The log of requests *)

Lemma worker_body_client cl url :
  (worker_body respond cl url).2 = cl ++ [url].
Proof. done. Qed.

Lemma omap_insert_None {A B} (f : A → option B) (l : list A) i x y :
  l !! i = Some x → f x = None → f y = None →
  omap f (<[i:=y]> l) = omap f l.
Proof.
  revert i. induction l as [|a l IH]; intros [|i] Hi Hx Hy; try done.
  - injection Hi as ->. change (<[0:=y]> (x :: l)) with (y :: l).
    by rewrite !omap_cons, Hx, Hy.
  - change (<[S i:=y]> (a :: l)) with (a :: <[i:=y]> l).
    by rewrite !omap_cons, (IH i).
Qed.

Lemma omap_insert_Some {A B} (f : A → option B) (l : list A) i x y b :
  l !! i = Some x → f x = None → f y = Some b →
  omap f (<[i:=y]> l) ≡ₚ b :: omap f l.
Proof.
  revert i. induction l as [|a l IH]; intros [|i] Hi Hx Hy; try done.
  - injection Hi as ->. change (<[0:=y]> (x :: l)) with (y :: l).
    by rewrite !omap_cons, Hx, Hy.
  - change (<[S i:=y]> (a :: l)) with (a :: <[i:=y]> l).
    rewrite !omap_cons. specialize (IH i Hi Hx Hy).
    destruct (f a) as [b'|]; [|done].
    rewrite IH. apply Permutation_swap.
Qed.

Lemma finished_init sem urls : finished (init sem urls) = [].
Proof. unfold finished, init. cbn [tasks]. by induction urls. Qed.

Lemma finished_step i st st' :
  client st ≡ₚ finished st → step_task i st = Some st' →
  client st' ≡ₚ finished st'.
Proof.
  intros Hinv Hstep. unfold finished in *.
  task_cases step_task_cases Hstep; rewrite Hcl, Htasks.
  1-4: by erewrite omap_insert_None.
  rewrite worker_body_client.
  erewrite omap_insert_Some; [|done..].
  rewrite <- Hinv. symmetry. apply Permutation_cons_append.
Qed.

Lemma finished_run sem sched urls :
  client (run sched (init sem urls))
  ≡ₚ finished (run sched (init sem urls)).
Proof.
  assert (∀ st, client st ≡ₚ finished st →
                client (run sched st) ≡ₚ finished (run sched st)) as Hrun.
  { induction sched as [|i sched IH]; intros st Hst; [done|].
    rewrite run_cons. apply IH.
    destruct (step_task i st) as [st'|] eqn:Hstep; [|done].
    by eapply finished_step. }
  apply Hrun. by rewrite finished_init.
Qed.

Lemma finished_sublist st : finished st `sublist_of` (tasks st).*1.
Proof.
  unfold finished. induction (tasks st) as [|t ts IH]; simpl; [done|].
  destruct (t.2); by constructor.
Qed.

Lemma finished_gathered st results :
  gathered st = Some results → finished st = (tasks st).*1.
Proof.
  intros Hall%gathered_Some. unfold finished.
  induction Hall as [|t r ts rs Ht _ IH]; [done|].
  rewrite omap_cons, fmap_cons, Ht. by rewrite IH.
Qed.

(** *** A server without memory *)

Lemma worker_body_stateless cl u :
  (∀ cl cl' u, respond cl u = respond cl' u) →
  (worker_body respond cl u).1 = (worker_body respond [] u).1.
Proof.
  intros Hst. rewrite !worker_body_unfold, !fetch_html_unfold.
  cbn [fst]. by rewrite (Hst cl []).
Qed.

Lemma scrape_urls_stateless sem sched urls res :
  (∀ cl cl' u, respond cl u = respond cl' u) →
  scrape_urls respond sem sched urls = Some res →
  res = collect_items (map (λ u, (worker_body respond [] u).1) urls) urls.
Proof.
  intros Hst (results & Hw & ->)%scrape_urls_Some. f_equal.
  induction Hw as [|u r urls results [cl ->] _ IH]; [done|].
  cbn [map]. by rewrite IH, (worker_body_stateless cl u).
Qed.

Lemma worker_body_fault cl u e :
  respond cl u = OtherError e → (worker_body respond cl u).1 = Raise e.
Proof.
  intros He. rewrite worker_body_unfold, fetch_html_unfold. cbn [fst].
  by rewrite He.
Qed.

Lemma to_item_length u r it :
  worker_result respond u r → to_item (r, u) = Ok it →
  length (source_url it) ≤ SOURCE_URL_MAX_LENGTH.
Proof.
  intros [cl ->]. unfold to_item; cbn [fst snd].
  destruct (worker_body respond cl u).1 as [item|e] eqn:Hwb.
  - intros [= <-]. apply worker_body_Ok in Hwb as Hsrc.
    destruct Hsrc as [-> _]. by apply worker_body_Ok_short in Hwb.
  - by intros [-> ?]%ScrapeItem_new_Ok.
Qed.

Lemma collect_items_length urls results items :
  Forall2 (worker_result respond) urls results →
  collect_items results urls = Ok items →
  Forall (λ it, length (source_url it) ≤ SOURCE_URL_MAX_LENGTH) items.
Proof.
  intros Hw Hitems. unfold collect_items in Hitems.
  apply foldl_append_item_Ok in Hitems as (its & Hits & ->). cbn [app].
  revert its Hits.
  induction Hw as [|u r urls results Hr Hw IH]; intros its Hits;
    cbn [zip_with] in Hits.
  - apply Forall2_nil_inv_l in Hits as ->. constructor.
  - apply Forall2_cons_inv_l in Hits as (it & its' & Hit & Hits & ->).
    constructor; [by eapply to_item_length|by apply IH].
Qed.

(** X15.  On the empty list [scrape_urls] returns the empty list, whatever
    the event loop does, and sends no request. *)
Theorem scrape_urls_empty sem sched :
  scrape_urls respond sem sched [] = Some (Ok [])
  ∧ client (run sched (init sem [])) = [].
Proof. unfold scrape_urls. by rewrite run_no_tasks. Qed.

(** X16.  With [Config.CONCURRENCY] zero the semaphore is created without
    a slot: on a list that is not empty no task ever fetches, no request
    is sent, and [scrape_urls] does not return, however long the event
    loop runs. *)
Theorem semaphore_of_zero_blocks sem sched urls :
  __init__ = Some sem → CONCURRENCY = 0%Z → urls ≠ [] →
  scrape_urls respond sem sched urls = None
  ∧ client (run sched (init sem urls)) = []
  ∧ fetching (run sched (init sem urls)) = 0.
Proof.
  intros [-> _]%service_created -> Hne.
  pose proof (blocked_run sched _ (blocked_init urls)) as Hblocked.
  destruct (blocked_remaining _ Hblocked) as [Hrem Hfetch].
  split_and!; [|apply Hblocked|done].
  unfold scrape_urls.
  destruct (gathered (run sched (init 0 urls))) as [results|] eqn:Hg; [|done].
  assert (remaining (run sched (init 0 urls)) = 0) as Hzero.
  { apply gathered_remaining. by rewrite Hg. }
  apply gathered_Some, Forall2_length in Hg as Hlen.
  pose proof (tasks_for_rtc respond urls _ _ (tasks_for_init respond 0 urls)
                (run_rtc respond sched _)) as [Hurls _].
  apply (f_equal length) in Hurls. rewrite length_fmap in Hurls.
  destruct urls; [done|]. simpl in Hurls. lia.
Qed.

(** X17.  Every input URL is handed to [client.get] once and only once:
    in every state of a run the calls of [client.get] made so far are, up
    to their order, part of the input list, no URL more often than it
    occurs there; and once all tasks are done they are the input list, up
    to order.  (The requests the client sends on its own to follow a
    redirect are inside such a call and are not counted.) *)
Theorem client_get_called_once_per_url sem sched urls :
  let st := run sched (init sem urls) in
  client st ⊆+ urls ∧ (is_Some (gathered st) → client st ≡ₚ urls).
Proof.
  intros st. pose proof (finished_run sem sched urls) as Hinv.
  pose proof (tasks_for_rtc respond urls _ _ (tasks_for_init respond sem urls)
                (run_rtc respond sched _)) as [Hurls _].
  fold st in Hinv, Hurls. split.
  - rewrite Hinv, <- Hurls. apply sublist_submseteq, finished_sublist.
  - intros [results Hg]. rewrite Hinv, <- Hurls.
    by rewrite (finished_gathered _ _ Hg).
Qed.

(** X18.  Against a server whose answer to a URL does not depend on the
    requests made before, the outcome of [scrape_urls] does not depend on
    the order in which the event loop resumes the tasks. *)
Theorem scrape_urls_schedule_independent sem sched1 sched2 urls r1 r2 :
  (∀ cl cl' u, respond cl u = respond cl' u) →
  scrape_urls respond sem sched1 urls = Some r1 →
  scrape_urls respond sem sched2 urls = Some r2 →
  r1 = r2.
Proof.
  intros Hst H1%scrape_urls_stateless H2%scrape_urls_stateless; try done.
  congruence.
Qed.

(** X19.  For URLs within the length limit a fault of one task stays with
    that task: [scrape_urls] returns a list as long as the input, and a
    URL whose request raises an exception that [fetch_html] does not
    catch has, at its position, the [error] item "internal error: "
    followed by the class and the text of the exception. *)
Theorem scrape_urls_converts_faults sem sched urls res :
  Forall (λ u, length u ≤ SOURCE_URL_MAX_LENGTH) urls →
  scrape_urls respond sem sched urls = Some res →
  ∃ items,
    res = Ok items ∧ length items = length urls
    ∧ ∀ i u e,
        urls !! i = Some u → (∀ cl, respond cl u = OtherError e) →
        items !! i
        = Some (mkItem u error None
                  (Some (py "internal error: " ++ class_name e
                         ++ py ": " ++ exn_str e))).
Proof.
  intros Hshort Hres.
  destruct (scrape_urls_isolates respond sem sched urls res Hshort Hres)
    as (items & -> & Hall).
  exists items. split_and!; [done|symmetry; by eapply Forall2_length|].
  intros i u e Hu He.
  destruct (Forall2_lookup_l _ _ _ _ _ Hall Hu) as (it & -> & cl & Hit).
  by rewrite (worker_body_fault cl u e (He cl)) in Hit; subst it.
Qed.

(** *** Enough slots *)

Lemma count_if_lt {A} (p : A → bool) (l : list A) i x :
  l !! i = Some x → p x = false → count_if p l < length l.
Proof.
  unfold count_if, total.
  assert (∀ l' : list A,
            sum_list (map (λ x, if p x then 1 else 0) l') ≤ length l') as Hle.
  { induction l' as [|a l' IH]; simpl; [lia|]. destruct (p a); lia. }
  revert i. induction l as [|a l IH]; intros [|i] Hi Hx; try done; simpl in *.
  - injection Hi as ->. rewrite Hx. specialize (Hle l). lia.
  - specialize (IH i Hi Hx). destruct (p a); lia.
Qed.

Lemma roomy_step value n i st st' :
  (Z.of_nat n ≤ value)%Z →
  balanced value st ∧ length (tasks st) = n ∧ waiting st = 0 →
  step_task i st = Some st' →
  balanced value st' ∧ length (tasks st') = n ∧ waiting st' = 0.
Proof.
  intros Hroom (Hbal & Hlen & Hwait) Hstep.
  split; [by eapply balanced_step|].
  destruct Hbal as [Hfree Hbal]. unfold waiting, fetching in *.
  task_cases step_task_cases Hstep; rewrite Htasks, length_insert;
    (split; [done|]).
  3:{ pose proof (count_if_lt is_fetching (tasks st) i _ Hi eq_refl). lia. }
  all: match goal with
       | |- count_if _ (<[_:=?y]> _) = 0 =>
           pose proof (count_if_insert is_waiting (tasks st) i _ y Hi)
             as Hcount
       end;
    repeat match type of Hcount with
           | context [is_waiting (?u, ?s)] =>
               change (is_waiting (u, s))
                 with (match s with WaitingForSlot => true | _ => false end)
                 in Hcount; cbv iota in Hcount
           end; lia.
Qed.

Lemma roomy_run value n sched st :
  (Z.of_nat n ≤ value)%Z →
  balanced value st ∧ length (tasks st) = n ∧ waiting st = 0 →
  waiting (run sched st) = 0.
Proof.
  intros Hroom. revert st.
  induction sched as [|i sched IH]; intros st Hst; [by destruct Hst as (_ & _ & ?)|].
  change (run (i :: sched) st) with (run sched (default st (step_task i st))).
  apply IH. destruct (step_task i st) as [st'|] eqn:Hstep; [|done].
  by eapply roomy_step.
Qed.

(** *** What makes the call raise *)

Lemma first_long (urls : list str) :
  ¬ Forall (λ u, length u ≤ SOURCE_URL_MAX_LENGTH) urls →
  ∃ urls1 u urls2,
    urls = urls1 ++ u :: urls2
    ∧ Forall (λ u, length u ≤ SOURCE_URL_MAX_LENGTH) urls1
    ∧ SOURCE_URL_MAX_LENGTH < length u.
Proof.
  induction urls as [|u urls IH]; intros Hnot; [by destruct Hnot|].
  destruct (decide (length u ≤ SOURCE_URL_MAX_LENGTH)) as [Hu|Hu].
  - destruct IH as (urls1 & v & urls2 & -> & Hshort & Hlong).
    { intros Hall. apply Hnot. by constructor. }
    exists (u :: urls1), v, urls2. split_and!; [done|by constructor|done].
  - exists [], u, urls. split_and!; [done|constructor|lia].
Qed.

Lemma scrape_urls_Raise sem sched urls e :
  scrape_urls respond sem sched urls = Some (Raise e) →
  ∃ urls1 u urls2,
    urls = urls1 ++ u :: urls2
    ∧ Forall (λ u, length u ≤ SOURCE_URL_MAX_LENGTH) urls1
    ∧ SOURCE_URL_MAX_LENGTH < length u
    ∧ e = ValidationError (validation_message u).
Proof.
  intros Hres.
  destruct (decide (Forall (λ u, length u ≤ SOURCE_URL_MAX_LENGTH) urls))
    as [Hshort|Hlong].
  - by destruct (scrape_urls_isolates respond sem sched urls _ Hshort Hres)
      as (items & ? & _).
  - destruct (first_long urls Hlong) as (urls1 & u & urls2 & -> & Hs & Hl).
    exists urls1, u, urls2. split_and!; try done.
    pose proof (scrape_urls_long_url respond sem sched urls1 u urls2 _
                  Hs Hl Hres) as Heq.
    by injection Heq.
Qed.

(** *** What the worker makes of a fetch *)

Lemma described_nonempty k outcome msg :
  described k outcome msg → truthy (Some msg) = true.
Proof.
  intros Hmsg%described_initial. by destruct msg.
Qed.

Lemma worker_body_failure cl url k :
  length url ≤ SOURCE_URL_MAX_LENGTH →
  failure_of (respond cl url) = Some k →
  ∃ msg, (worker_body respond cl url).1
         = Ok (mkItem url error None (Some msg))
         ∧ described k (respond cl url) msg.
Proof.
  intros Hshort (msg & Hfetch & Hmsg)%(fetch_html_failure respond).
  exists msg. split; [|done].
  rewrite worker_body_unfold, Hfetch.
  rewrite (described_nonempty _ _ _ Hmsg).
  by apply ScrapeItem_new_short.
Qed.

Lemma worker_body_success cl url resp :
  length url ≤ SOURCE_URL_MAX_LENGTH →
  respond cl url = Responded resp →
  failure_of (Responded resp) = None →
  (worker_body respond cl url).1
  = Ok match extract_main_text (text resp) with
       | Some (c :: t) => mkItem url success (Some (c :: t)) None
       | _ => mkItem url error None (Some (py "no main content extracted"))
       end.
Proof.
  intros Hshort Hresp Hok.
  rewrite worker_body_unfold, (fetch_html_success _ _ _ _ Hresp Hok).
  cbn [truthy default from_option id].
  destruct (extract_main_text (text resp)) as [[|c t]|]; cbn [truthy negb];
    by apply ScrapeItem_new_short.
Qed.

Lemma waiting_init sem urls : waiting (init sem urls) = 0.
Proof. unfold waiting, init. cbn [tasks]. by induction urls. Qed.

(** X20.  A call that has the semaphore to itself and finds enough free
    slots never waits: when the counter of the semaphore at the start of
    the call is at least the number of URLs, and no other call of
    [scrape_urls] touches the semaphore while this one runs, in no state
    of the run is a task blocked on the semaphore.  On a service that no
    other request is using the counter is [Config.CONCURRENCY]. *)
Theorem enough_slots_no_waiting sem sched urls :
  (Z.of_nat (length urls) ≤ sem)%Z →
  waiting (run sched (init sem urls)) = 0
  ∧ (__init__ = Some sem → sem = CONCURRENCY).
Proof.
  intros Hroom. split; [|by intros [-> _]%service_created].
  apply (roomy_run sem (length urls)); [done|].
  split_and!; [apply balanced_init; lia| |apply waiting_init].
  unfold init. cbn [tasks]. apply length_map.
Qed.

(** X21.  What the worker makes of a fetch, for a URL within the length
    limit: a failure of the fetcher becomes the [error] item that carries
    the fetcher's message unchanged; a page becomes the [success] item
    that carries the extracted text unchanged when that text is not
    empty, and the [error] item "no main content extracted" otherwise; an
    exception the fetcher does not catch leaves the worker. *)
Theorem worker_outcomes cl url :
  length url ≤ SOURCE_URL_MAX_LENGTH →
  (∀ k, failure_of (respond cl url) = Some k →
     ∃ msg, (worker_body respond cl url).1
            = Ok (mkItem url error None (Some msg))
            ∧ described k (respond cl url) msg)
  ∧ (∀ resp, respond cl url = Responded resp →
       failure_of (Responded resp) = None →
       (worker_body respond cl url).1
       = Ok match extract_main_text (text resp) with
            | Some (c :: t) => mkItem url success (Some (c :: t)) None
            | _ => mkItem url error None
                     (Some (py "no main content extracted"))
            end)
  ∧ (∀ e, respond cl url = OtherError e →
       (worker_body respond cl url).1 = Raise e).
Proof.
  intros Hshort. split_and!.
  - intros k. by apply worker_body_failure.
  - intros resp. by apply worker_body_success.
  - apply worker_body_fault.
Qed.

End more_loop_facts.

(** ** More on the route *)

Section more_route_facts.

Context `{Config} `{Runtime}.
Variable respond : list str → str → get_outcome.
Variable list_of_set : gset str → list str.
Variable draws : list nat.

Local Abbreviation route := (scrape_resume_links respond list_of_set draws).
Local Abbreviation handler := (parse_and_scrape respond list_of_set draws).
Local Abbreviation found := (found check_bracketed_host).

Lemma route_within_limit sem sched content r :
  route sem sched content = Some r →
  (∀ detail, r ≠ HTTPException 413 detail) →
  (size_mb content <= MAX_PDF_SIZE_MB)%Q
  ∧ handler sem sched content = Some r.
Proof.
  unfold scrape_resume_links.
  destruct (Qle_bool (size_mb content) MAX_PDF_SIZE_MB) eqn:Hle; cbn [negb].
  - intros Hr _. split; [by apply Qle_bool_iff|done].
  - intros Hr Hne. injection Hr as Hr. exfalso. eapply Hne. symmetry.
    exact Hr.
Qed.

Lemma route_handler sem sched content :
  (size_mb content <= MAX_PDF_SIZE_MB)%Q →
  route sem sched content = handler sem sched content.
Proof.
  intros Hle%Qle_bool_iff. unfold scrape_resume_links. by rewrite Hle.
Qed.

Lemma handler_cases sem sched content :
  match fitz_open content with
  | OpenRaises e =>
      handler sem sched content
      = Some (HTTPException 400 (bad_request_detail e))
  | Document pages =>
      ∃ urls,
        extract_pdf_urls check_bracketed_host list_of_set draws
          (Document pages) MAX_URLS = Ok urls
        ∧ match urls with
          | [] =>
              handler sem sched content
              = Some (HTTPException 422
                        (py "No hyperlinks found in the PDF"))
          | _ :: _ =>
              handler sem sched content
              = match scrape_urls respond sem sched urls with
                | None => None
                | Some (Ok items) => Some (JSONResponse items)
                | Some (Raise e) => Some (Unhandled e)
                end
          end
  end.
Proof.
  unfold parse_and_scrape. destruct (fitz_open content) as [e|pages].
  - by destruct e.
  - eexists. split; [done|]. cbn [URLExtractor.extract_pdf_urls].
    by destruct (slice_to _ _).
Qed.

(** X22.  The route answers 400 exactly when the upload is within the
    size limit and opening it as a PDF raises; the detail is "Invalid or
    corrupted PDF" for a [FileDataError] and "PDF parse error: " followed
    by the text of the exception for any other. *)
Theorem route_bad_request sem sched content detail :
  route sem sched content = Some (HTTPException 400 detail) ↔
  (size_mb content <= MAX_PDF_SIZE_MB)%Q
  ∧ ∃ e, fitz_open content = OpenRaises e ∧ detail = bad_request_detail e.
Proof.
  pose proof (handler_cases sem sched content) as Hcases. split.
  - intros [Hle Hr]%route_within_limit; [|done]. split; [done|].
    destruct (fitz_open content) as [e|pages].
    + exists e. split; [done|]. congruence.
    + destruct Hcases as ([|u urls] & _ & Hh); rewrite Hh in Hr; [done|].
      by destruct (scrape_urls _ _ _ _) as [[]|].
  - intros (Hle & e & He & ->). rewrite route_handler by done.
    by rewrite He in Hcases.
Qed.

Hypothesis list_of_set_enumerates : ∀ X, list_of_set X ≡ₚ elements X.

(** X23.  With a cap [MAX_URLS] that is not negative, the route answers
    422 exactly when the upload is within the size limit, opens as a PDF,
    and either the cap is zero or no page yields a usable URL; the detail
    is "No hyperlinks found in the PDF". *)
Theorem route_no_links sem sched content detail :
  (0 ≤ MAX_URLS)%Z →
  route sem sched content = Some (HTTPException 422 detail) ↔
  (size_mb content <= MAX_PDF_SIZE_MB)%Q
  ∧ detail = py "No hyperlinks found in the PDF"
  ∧ ∃ pages, fitz_open content = Document pages
             ∧ (MAX_URLS = 0%Z ∨ found pages = []).
Proof.
  intros Hk. pose proof (handler_cases sem sched content) as Hcases. split.
  - intros [Hle Hr]%route_within_limit; [|done]. split; [done|].
    destruct (fitz_open content) as [e|pages]; [congruence|].
    destruct Hcases as ([|u urls] & Hurls & Hh); rewrite Hh in Hr.
    + injection Hr as <-. split; [done|]. exists pages. split; [done|].
      by eapply extract_pdf_urls_nil.
    + by destruct (scrape_urls _ _ _ _) as [[]|].
  - intros (Hle & -> & pages & Hopen & Hnone).
    rewrite route_handler by done. rewrite Hopen in Hcases.
    destruct Hcases as (urls & Hurls & Hh).
    eapply extract_pdf_urls_nil in Hnone; [|done..].
    rewrite Hnone in Hurls. by injection Hurls as <-.
Qed.

(** X24.  With a cap [MAX_URLS] that is not negative, a JSON body of the
    route holds at least one item and at most [MAX_URLS]; the items have
    pairwise different [source_url]s, each a normalized URL found in the
    uploaded document and at most 2000 characters long. *)
Theorem route_response sem sched content items :
  (0 ≤ MAX_URLS)%Z →
  route sem sched content = Some (JSONResponse items) →
  0 < length items ∧ (Z.of_nat (length items) ≤ MAX_URLS)%Z
  ∧ NoDup (source_url <$> items)
  ∧ ∃ pages, fitz_open content = Document pages
             ∧ Forall (λ it, source_url it ∈ found pages
                             ∧ length (source_url it) ≤ SOURCE_URL_MAX_LENGTH)
                 items.
Proof.
  intros Hk [Hle Hr]%route_within_limit; [|done].
  pose proof (handler_cases sem sched content) as Hcases.
  destruct (fitz_open content) as [e|pages]; [congruence|].
  destruct Hcases as ([|u urls] & Hurls & Hh); rewrite Hh in Hr; [done|].
  destruct (scrape_urls _ _ _ _) as [[its|]|] eqn:Hscrape; try done.
  injection Hr as ->.
  apply scrape_urls_Some in Hscrape as (results & Hw & Hitems).
  symmetry in Hitems.
  pose proof (collect_items_Ok _ _ _ _ Hw Hitems) as Hall.
  pose proof (collect_items_length _ _ _ _ Hw Hitems) as Hshort.
  assert (∀ us its, Forall2 (λ u it, source_url it = u ∧ item_ok it) us its →
                    source_url <$> its = us) as Hsources.
  { induction 1 as [|x it xs its' [Hx _] _ IH]; [done|].
    by rewrite fmap_cons, Hx, IH. }
  apply Hsources in Hall as Hsrc.
  apply (f_equal length) in Hsrc as Hlen. rewrite length_fmap in Hlen.
  pose proof (extract_pdf_urls_Ok _ _ _ list_of_set_enumerates _ _ _ Hurls)
    as (Hnodup & Hfound & Hslice).
  apply (f_equal length) in Hslice. rewrite slice_to_length in Hslice by done.
  split_and!.
  - rewrite Hlen. simpl. lia.
  - rewrite Hlen, Hslice. lia.
  - by rewrite Hsrc.
  - exists pages. split; [done|].
    apply Forall_forall. intros it Hit. split.
    + apply Hfound. rewrite <- Hsrc. by apply list_elem_of_fmap_2.
    + by apply (proj1 (Forall_forall _ _) Hshort).
Qed.

(** X25.  The one exception the handler lets through: when the route ends
    in an exception that is not an [HTTPException], the upload opened as
    a PDF, one of the normalized URLs found in it is longer than 2000
    characters, and the exception is the validation error of the
    [ScrapeItem] built for that URL. *)
Theorem route_unhandled_only_for_long_url sem sched content e :
  route sem sched content = Some (Unhandled e) →
  ∃ pages u,
    fitz_open content = Document pages
    ∧ u ∈ found pages
    ∧ SOURCE_URL_MAX_LENGTH < length u
    ∧ e = ValidationError (validation_message u).
Proof.
  intros [Hle Hr]%route_within_limit; [|done].
  pose proof (handler_cases sem sched content) as Hcases.
  destruct (fitz_open content) as [e'|pages]; [congruence|].
  destruct Hcases as ([|u urls] & Hurls & Hh); rewrite Hh in Hr; [done|].
  destruct (scrape_urls _ _ _ _) as [[its|e']|] eqn:Hscrape; try done.
  injection Hr as ->.
  apply scrape_urls_Raise in Hscrape
    as (urls1 & v & urls2 & Hsplit & _ & Hlong & ->).
  pose proof (extract_pdf_urls_Ok _ _ _ list_of_set_enumerates _ _ _ Hurls)
    as (_ & Hfound & _).
  exists pages, v. split_and!; try done.
  apply Hfound. rewrite Hsplit. apply elem_of_app. right. by left.
Qed.

End more_route_facts.

(** ** Closed instances *)

Example normalize_url_examples :
  normalize_url (λ _, true) (py "https://x.com/a#frag")
  = normalize_url (λ _, true) (py "https://x.com/a")
  ∧ normalize_url (λ _, true) (py "ftp://x.com") = None
  ∧ normalize_url (λ _, true) (py "not a url") = None
  ∧ normalize_url (λ _, true) (py " WWW.Example.com/a?b=1#x). ")
    = Some (py "http://WWW.Example.com/a?b=1").
Proof. by vm_compute. Qed.

Example findall_example :
  findall (py "see http://a.b:123456/x and WWW.x.y:8/z, https://q.r/p<a> www.")
  = [py "http://a.b:12345"; py "WWW.x.y"; py "https://q.r/p"].
Proof. by vm_compute. Qed.

(** The two-page document of the specification, end to end: two URLs are
    discovered, and the items come in the order of discovery although the
    second task finishes first. *)
Example end_to_end :
  @extract_pdf_urls (λ _, true) elements [] (Document two_page_document) 40
  = Ok [py "https://a.example/me"; py "http://www.b.example/dev"]
  ∧ @scrape_resume_links default_config two_page_runtime html_server
      elements [] 6 [1; 0; 1; 0; 1; 0] three_bytes
    = Some (JSONResponse
              [mkItem (py "https://a.example/me") success
                 (Some (py "<p>hello</p>")) None;
               mkItem (py "http://www.b.example/dev") success
                 (Some (py "<p>hello</p>")) None]).
Proof. by vm_compute. Qed.

Example tidy_example :
  tidy (py " a  b   c ") = py "a  b" ++ ["010"; "010"]%char ++ py "c".
Proof. by vm_compute. Qed.

(** C1, counterexample: on a list holding one URL of 2001 characters the
    call returns no list at all, under any interleaving. *)
Lemma scrape_urls_long_url_raises :
  @scrape_urls default_config echo_runtime html_server 6 [0; 0; 0] [long_url]
  = Some (Raise (ValidationError
                   (py "ensure this value has at most 2000 characters")))
  ∧ ∀ sched items,
      @scrape_urls default_config echo_runtime html_server 6 sched [long_url]
      ≠ Some (Ok items).
Proof.
  split; [by vm_compute|]. intros sched items Hres.
  apply (@scrape_urls_long_url default_config echo_runtime html_server
           6 sched [] long_url []) in Hres; [done|constructor|].
  by_evaluation.
Qed.

Lemma scrape_urls_preserves_order_witness :
  (∀ sched, ∃ sched',
      is_Some (@scrape_urls default_config echo_runtime mixed_server 6
                 (sched ++ sched') three_urls))
  ∧ (∀ n st,
       nsteps (@step default_config echo_runtime mixed_server) n
         (init 6 three_urls) st →
       n ≤ 4 * length three_urls)
  ∧ (∀ sched res,
      @scrape_urls default_config echo_runtime mixed_server 6
        sched three_urls = Some res →
      ∃ items, res = Ok items
               ∧ length items = length three_urls
               ∧ ∀ i, source_url <$> items !! i = three_urls !! i).
Proof.
  apply (@scrape_urls_preserves_order default_config echo_runtime
           mixed_server 6 three_urls).
  - reflexivity.
  - reflexivity.
  - by_evaluation.
Defined.

(** C2, the failing input: an upload whose text is one URL of 2001
    characters.  Link discovery accepts the URL; the item built for it is
    rejected in the task and again in the final loop, and the exception
    leaves [scrape_urls] and the route. *)
Theorem long_link_escapes_route :
  @scrape_resume_links default_config echo_runtime html_server
    elements [] 6 [0; 0; 0] long_link_upload
  = Some (Unhandled (ValidationError
                       (py "ensure this value has at most 2000 characters"))).
Proof. by vm_compute. Qed.

(** C3, counterexample: with the cap -1 the slice drops the last of the
    two URLs of the document and one is returned. *)
Lemma discovery_negative_cap :
  ∃ urls,
    extract_pdf_urls (λ _, true) elements [] (Document two_page_document) (-1)
    = Ok urls
    ∧ length urls = 1
    ∧ length (remove_dups (found (λ _, true) two_page_document)) = 2
    ∧ Z.of_nat (length urls)
      ≠ Z.min (-1)
          (Z.of_nat
             (length (remove_dups (found (λ _, true) two_page_document)))).
Proof. eexists. split; [by vm_compute|]. by vm_compute. Qed.

Lemma discovery_dedup_cap_witness :
  ∃ urls,
    extract_pdf_urls (λ _, true) elements [3; 1; 4]
      (Document two_page_document) 1 = Ok urls
    ∧ NoDup urls
    ∧ (∀ u, u ∈ urls → u ∈ found (λ _, true) two_page_document)
    ∧ length urls
      = min (Z.to_nat 1)
          (length (remove_dups (found (λ _, true) two_page_document)))
    ∧ (∀ raw ps u,
         rstrip_by isspace raw = raw →
         Forall (λ c, is_trailing_punct c = true) ps →
         usable (λ _, true) raw = Some u →
         usable (λ _, true) (raw ++ ps) = Some u).
Proof.
  apply (discovery_dedup_cap (λ _, true) elements [3; 1; 4]).
  - intros X. reflexivity.
  - lia.
Defined.

Lemma scrape_urls_items_ok_witness :
  Forall item_ok
    [mkItem (py "http://a.example/") success (Some (py "<p>hello</p>")) None;
     mkItem (py "http://b.example/") error None (Some (py "http 404"));
     mkItem (py "http://c.example/") error None
       (Some (py "internal error: RuntimeError: boom"))].
Proof.
  apply (@scrape_urls_items_ok default_config echo_runtime mixed_server
           6 [2; 1; 0; 0; 1; 2; 2; 0; 1] three_urls).
  vm_compute. reflexivity.
Defined.


(** C6, counterexample: a fetch without error whose extraction gives no
    text, for a URL of 2001 characters: the worker raises, and so does
    [scrape_urls]; no [error] item is made. *)
Lemma no_content_long_url_raises :
  (@fetch_html default_config silent_runtime html_server [] long_url).1
  = Ok (Some (py "<p>hello</p>"), None)
  ∧ @extract_main_text silent_runtime (py "<p>hello</p>") = None
  ∧ (@worker_body default_config silent_runtime html_server [] long_url).1
    = Raise (ValidationError
               (py "ensure this value has at most 2000 characters"))
  ∧ @scrape_urls default_config silent_runtime html_server 6 [0; 0; 0]
      [long_url]
    = Some (Raise (ValidationError
                     (py "ensure this value has at most 2000 characters"))).
Proof. by vm_compute. Qed.

Lemma extract_main_text_fallback_witness :
  @extract_main_text silent_runtime (py "<p>x</p>") = None
  ∧ (@worker_body default_config silent_runtime html_server []
       (py "http://a.example/")).1
    = Ok (mkItem (py "http://a.example/") error None
            (Some (py "no main content extracted"))).
Proof.
  destruct (@extract_main_text_fallback default_config silent_runtime
              html_server (py "<p>hello</p>")) as (_ & _ & _ & Hitem & _).
  destruct (@extract_main_text_fallback default_config silent_runtime
              html_server (py "<p>x</p>")) as (_ & _ & Hnone & _).
  split.
  - apply Hnone.
    + by_evaluation.
    + right. by_evaluation.
  - apply (Hitem [] (py "http://a.example/") (Some (py "<p>hello</p>")) None).
    + reflexivity.
    + reflexivity.
    + reflexivity.
    + reflexivity.
    + by_evaluation.
Defined.

(** C7, counterexample: two inputs that differ only by a fragment and do
    not normalize to the same string. *)
Lemma normalize_url_fragment_counterexample :
  normalize_url (λ _, true) (py "http://x.com/a.#frag")
  = Some (py "http://x.com/a.")
  ∧ normalize_url (λ _, true) (py "http://x.com/a.")
    = Some (py "http://x.com/a")
  ∧ normalize_url (λ _, true) (py "http://x.com/a.#frag")
    ≠ normalize_url (λ _, true) (py "http://x.com/a.").
Proof. by vm_compute. Qed.

Lemma normalize_url_rejection_and_fragment_witness :
  normalize_url (λ _, true) (py "www.x.com/a" ++ "#"%char :: py "frag")
  = normalize_url (λ _, true) (py "www.x.com/a").
Proof.
  destruct (normalize_url_rejection_and_fragment (λ _, true)
              (py "www.x.com/a")) as (_ & _ & _ & _ & Hdrop).
  apply Hdrop.
  - by_evaluation.
  - split; reflexivity.
Defined.

(** C8, counterexample: an accepted output that [normalize_url] does not
    return unchanged. *)
Lemma normalize_url_not_idempotent :
  normalize_url (λ _, true) (py "http://x.com/a.#frag")
  = Some (py "http://x.com/a.")
  ∧ normalize_url (λ _, true) (py "http://x.com/a.")
    ≠ Some (py "http://x.com/a.").
Proof. by vm_compute. Qed.

Lemma normalize_url_idempotent_witness :
  normalize_url (λ _, true) (py "http://WWW.Example.com/a?b=1")
  = Some (py "http://WWW.Example.com/a?b=1").
Proof.
  apply (normalize_url_idempotent (λ _, true)
           (py " WWW.Example.com/a?b=1#x). ")).
  - vm_compute. reflexivity.
  - split; vm_compute; reflexivity.
Defined.

Lemma semaphore_bounds_pipelines_witness :
  ∃ st, rtc (@step default_config echo_runtime html_server)
          (init 6 eight_urls) st
        ∧ fetching st = 6 ∧ waiting st = 2.
Proof.
  destruct (@semaphore_bounds_pipelines default_config echo_runtime
              html_server 6 eight_urls eq_refl) as (_ & _ & Hreach).
  exact Hreach.
Defined.

Lemma size_limit_is_strict_witness :
  @scrape_resume_links tiny_config echo_runtime html_server elements []
    6 [] three_bytes
  = @parse_and_scrape tiny_config echo_runtime html_server elements []
      6 [] three_bytes.
Proof.
  destruct (@size_limit_is_strict tiny_config echo_runtime html_server
              elements [] 6 [] three_bytes) as [Heq _].
  apply Heq. reflexivity.
Defined.

Example size_limit_examples :
  @scrape_resume_links tiny_config echo_runtime html_server elements []
    6 [] three_bytes
  = Some (HTTPException 422 (py "No hyperlinks found in the PDF"))
  ∧ ∃ detail,
      @scrape_resume_links tiny_config echo_runtime html_server elements []
        6 [] (three_bytes ++ three_bytes)
      = Some (HTTPException 413 detail).
Proof. split; [by vm_compute|]. eexists. by vm_compute. Qed.

(** ** Closed instances of the further properties *)

Lemma findall_matches_shape_witness :
  Forall (λ c, isspace c = false ∧ c ≠ "<"%char) (py "WWW.x.y").
Proof.
  destruct (findall_matches_shape
              (py "see http://a.b:123456/x and WWW.x.y:8/z, www.")
              (py "WWW.x.y")) as (_ & Hchars & _); [by_evaluation|done].
Defined.

Lemma normalize_url_ignores_outer_space_witness :
  normalize_url (λ _, true) (py "  " ++ py "www.x.com/a" ++ py " ")
  = normalize_url (λ _, true) (py "www.x.com/a").
Proof. apply normalize_url_ignores_outer_space; by_evaluation. Defined.

Lemma normalize_url_www_as_http_witness :
  normalize_url (λ _, true) (py "WWW.Example.com/a")
  = normalize_url (λ _, true) (py "http://" ++ py "WWW.Example.com/a").
Proof.
  apply normalize_url_www_as_http.
  - split; reflexivity.
  - reflexivity.
Defined.

Lemma normalize_url_scheme_case_witness :
  normalize_url (λ _, true) (py "HtTpS" ++ py "://" ++ py "x.com/A")
  = normalize_url (λ _, true) (lower (py "HtTpS") ++ py "://" ++ py "x.com/A").
Proof. apply normalize_url_scheme_case. by_evaluation. Defined.

Lemma normalize_url_output_reparses_witness :
  ∃ sch n pth qry,
    py "http://WWW.Example.com/a?b=1"
    = sch ++ py "://" ++ n ++ pth ++ query_suffix qry
    ∧ urlsplit (λ _, true) (py "http://WWW.Example.com/a?b=1")
      = Some (mkSplit sch n pth qry []).
Proof.
  destruct (normalize_url_output_reparses (λ _, true)
              (py " WWW.Example.com/a?b=1#x). ")
              (py "http://WWW.Example.com/a?b=1"))
    as (sch & n & pth & qry & Hu & _ & _ & _ & _ & _ & Hsplit).
  - vm_compute. reflexivity.
  - by exists sch, n, pth, qry.
Defined.

Lemma extract_pdf_urls_under_cap_witness :
  ∃ urls,
    extract_pdf_urls (λ _, true) elements [3; 1; 4]
      (Document two_page_document) 40 = Ok urls
    ∧ urls ≡ₚ remove_dups (found (λ _, true) two_page_document).
Proof.
  apply (extract_pdf_urls_under_cap (λ _, true) elements [3; 1; 4]).
  - intros X. reflexivity.
  - by vm_compute.
Defined.

Lemma extract_pdf_urls_negative_cap_witness :
  ∃ urls,
    extract_pdf_urls (λ _, true) elements [3; 1; 4]
      (Document two_page_document) (-1) = Ok urls
    ∧ NoDup urls
    ∧ (∀ u, u ∈ urls → u ∈ found (λ _, true) two_page_document)
    ∧ Z.of_nat (length urls)
      = Z.max 0
          (Z.of_nat
             (length (remove_dups (found (λ _, true) two_page_document)))
           + -1).
Proof.
  apply (extract_pdf_urls_negative_cap (λ _, true) elements [3; 1; 4]).
  - intros X. reflexivity.
  - lia.
Defined.

Lemma extract_main_text_shape_witness :
  strip (py "a" ++ ["010"; "010"]%char ++ py "b")
  = py "a" ++ ["010"; "010"]%char ++ py "b"
  ∧ tidy (py "a" ++ ["010"; "010"]%char ++ py "b")
    = py "a" ++ ["010"; "010"]%char ++ py "b".
Proof.
  destruct (@extract_main_text_shape echo_runtime (py " a    b ")
              (py "a" ++ ["010"; "010"]%char ++ py "b")) as (Hs & _ & Ht).
  - vm_compute. reflexivity.
  - by split.
Defined.

Lemma extract_main_text_keeps_visible_witness :
  ∃ raw,
    (@trafilatura_extract echo_runtime (py " a    b ") = Some (Some raw)
     ∨ (@HAS_READABILITY echo_runtime = true
        ∧ @Document_summary echo_runtime (py " a    b ")
          ≫= @fromstring_text_content echo_runtime = Some raw))
    ∧ visible (py "a" ++ ["010"; "010"]%char ++ py "b") = visible raw.
Proof.
  apply (@extract_main_text_keeps_visible echo_runtime (py " a    b ")).
  vm_compute. reflexivity.
Defined.

Lemma blank_extraction_blocks_fallback_witness :
  (@worker_body default_config blank_runtime html_server []
     (py "http://a.example/")).1
  = Ok (mkItem (py "http://a.example/") error None
          (Some (py "no main content extracted"))).
Proof.
  refine (proj2 (@blank_extraction_blocks_fallback default_config
                   blank_runtime html_server [] (py "http://a.example/")
                   _ " "%char [" "; "010"]%char
                   eq_refl eq_refl eq_refl _ _)); by_evaluation.
Defined.

Lemma semaphore_of_zero_blocks_witness :
  @scrape_urls blocked_config echo_runtime html_server 0
    [0; 0; 1; 1; 2; 2; 0; 1; 2] three_urls = None.
Proof.
  destruct (@semaphore_of_zero_blocks blocked_config echo_runtime
              html_server 0 [0; 0; 1; 1; 2; 2; 0; 1; 2] three_urls)
    as [Hnone _]; [reflexivity|reflexivity|done|exact Hnone].
Defined.

Lemma scrape_urls_schedule_independent_witness :
  ∃ r1 r2,
    @scrape_urls default_config echo_runtime mixed_server 6
      [2; 1; 0; 0; 1; 2; 2; 0; 1] three_urls = Some r1
    ∧ @scrape_urls default_config echo_runtime mixed_server 6
        [0; 0; 0; 1; 1; 1; 2; 2; 2] three_urls = Some r2
    ∧ r1 = r2.
Proof.
  eexists _, _. split; [vm_compute; reflexivity|].
  split; [vm_compute; reflexivity|].
  apply (@scrape_urls_schedule_independent default_config echo_runtime
           mixed_server 6 [2; 1; 0; 0; 1; 2; 2; 0; 1]
           [0; 0; 0; 1; 1; 1; 2; 2; 2] three_urls).
  - intros cl cl' u. reflexivity.
  - vm_compute. reflexivity.
  - vm_compute. reflexivity.
Defined.

Lemma scrape_urls_converts_faults_witness :
  ∃ items,
    @scrape_urls default_config echo_runtime mixed_server 6
      [2; 1; 0; 0; 1; 2; 2; 0; 1] three_urls = Some (Ok items)
    ∧ items !! 2
      = Some (mkItem (py "http://c.example/") error None
                (Some (py "internal error: RuntimeError: boom"))).
Proof.
  edestruct (@scrape_urls_converts_faults default_config echo_runtime
               mixed_server 6 [2; 1; 0; 0; 1; 2; 2; 0; 1] three_urls)
    as (items & Hres & _ & Hitem).
  - by_evaluation.
  - vm_compute. reflexivity.
  - exists items. split.
    + rewrite <- Hres. vm_compute. reflexivity.
    + exact (Hitem 2 (py "http://c.example/")
               (Exception (py "RuntimeError") (py "boom"))
               eq_refl (λ _, eq_refl)).
Defined.

Lemma route_no_links_witness :
  (size_mb three_bytes <= @MAX_PDF_SIZE_MB tiny_config)%Q
  ∧ py "No hyperlinks found in the PDF" = py "No hyperlinks found in the PDF"
  ∧ ∃ pages,
      @fitz_open echo_runtime three_bytes = Document pages
      ∧ (@MAX_URLS tiny_config = 0%Z
         ∨ found (@check_bracketed_host echo_runtime) pages = []).
Proof.
  apply (@route_no_links tiny_config echo_runtime html_server elements []
           ltac:(intros X; reflexivity) 6 [] three_bytes).
  - by vm_compute.
  - vm_compute. reflexivity.
Defined.

Lemma route_response_witness :
  NoDup [py "https://a.example/me"; py "http://www.b.example/dev"].
Proof.
  destruct (@route_response default_config two_page_runtime html_server
              elements [] ltac:(intros X; reflexivity) 6 [1; 0; 1; 0; 1; 0]
              three_bytes
              [mkItem (py "https://a.example/me") success
                 (Some (py "<p>hello</p>")) None;
               mkItem (py "http://www.b.example/dev") success
                 (Some (py "<p>hello</p>")) None])
    as (_ & _ & Hnodup & _).
  - by vm_compute.
  - vm_compute. reflexivity.
  - exact Hnodup.
Defined.

Lemma extract_pdf_urls_only_http_witness :
  Forall (λ u, ∃ sch n rest,
            u = sch ++ py "://" ++ n ++ rest
            ∧ sch ∈ [py "http"; py "https"] ∧ n ≠ []
            ∧ Forall (λ c, is_netloc_delim c = false) n
            ∧ "#"%char ∉ u)
    [py "https://a.example/me"; py "http://www.b.example/dev"].
Proof.
  apply (extract_pdf_urls_only_http (λ _, true) elements []
           ltac:(intros X; reflexivity) two_page_document 40).
  vm_compute. reflexivity.
Defined.

Lemma enough_slots_no_waiting_witness :
  waiting (@run default_config echo_runtime html_server
             [0; 0; 1; 1; 2; 2] (init 3 three_urls)) = 0.
Proof.
  destruct (@enough_slots_no_waiting default_config echo_runtime html_server
              3 [0; 0; 1; 1; 2; 2] three_urls) as [Hwait _];
    [by vm_compute|exact Hwait].
Defined.

Lemma worker_outcomes_witness :
  (@worker_body default_config echo_runtime mixed_server []
     (py "http://b.example/")).1
  = Ok (mkItem (py "http://b.example/") error None (Some (py "http 404"))).
Proof.
  destruct (@worker_outcomes default_config echo_runtime mixed_server []
              (py "http://b.example/")) as (Hfail & _ & _); [by_evaluation|].
  destruct (Hfail HttpStatus eq_refl) as (msg & -> & resp & Hresp & ->).
  injection Hresp as <-. reflexivity.
Defined.

Lemma route_unhandled_only_for_long_url_witness :
  ∃ pages u,
    @fitz_open echo_runtime long_link_upload = Document pages
    ∧ u ∈ found (@check_bracketed_host echo_runtime) pages
    ∧ SOURCE_URL_MAX_LENGTH < length u
    ∧ ValidationError (py "ensure this value has at most 2000 characters")
      = ValidationError (@validation_message echo_runtime u).
Proof.
  apply (@route_unhandled_only_for_long_url default_config echo_runtime
           html_server elements [] ltac:(intros X; reflexivity)
           6 [0; 0; 0] long_link_upload).
  vm_compute. reflexivity.
Defined.
